(** * Reward distribution of the Mina indexer

    A shallow embedding of [model/util/calculate.go] and
    [indexing/reward_calculation.go], with the part of Go's [math/big]
    they rely on, and the properties of the reward distribution proved
    or refuted on that embedding. *)

From Stdlib Require Import ZArith QArith Qabs Qround Qpower Lia Lqa.
From Stdlib Require Import Ascii String.
From stdpp Require Import gmap strings list.

Local Open Scope Z_scope.

(** ** Numbers with a fixed count of significant digits

    [math/big.Float] keeps [prec] bits of mantissa and rounds every result
    to nearest, ties to even; [Float.Text('g', 10)] keeps ten decimal digits
    with the same tie rule.  Both are instances of rounding a rational to
    [n] significant digits in base [B]. *)

Module sig.

(** Number of times [n] can be divided by [B] before it drops below [B]:
    the floor of the base-[B] logarithm of a positive integer. *)
Fixpoint ilog_fuel (fuel : nat) (B n : Z) : Z :=
  match fuel with
  | O => 0
  | S f => if n <? B then 0 else 1 + ilog_fuel f B (n / B)
  end.

Definition ilogZ (B n : Z) : Z := ilog_fuel (S (Z.to_nat (Z.log2 n))) B n.

(** [B ^ e] as a rational, for an exponent of either sign. *)
Definition Bpow (B e : Z) : Q := Qpower (inject_Z B) e.

(** Floor of the base-[B] logarithm of a positive rational. *)
Definition Qilog (B : Z) (a : Q) : Z :=
  let e0 := ilogZ B (Qnum a) - ilogZ B (Zpos (Qden a)) in
  if Qle_bool (Bpow B e0) a then e0 else e0 - 1.

(** Nearest integer, ties to the even one. *)
Definition rne (q : Q) : Z :=
  let f := Qfloor q in
  match Qcompare (q - inject_Z f) (1 # 2) with
  | Lt => f
  | Gt => f + 1
  | Eq => if Z.even f then f else f + 1
  end.

(** Mantissa [m] and scale [s] of a positive rational [a] at [n] digits:
    [a] is rounded to [m * B^(-s)], where [B^(n-1) <= a * B^s < B^n]. *)
Definition digits (B n : Z) (a : Q) : Z * Z :=
  let s := n - 1 - Qilog B a in
  (rne (a * Bpow B s), s).

Definition Qsgn (x : Q) : Q := inject_Z (Z.sgn (Qnum x)).

Definition round (B n : Z) (x : Q) : Q :=
  if Qeq_bool x 0 then 0
  else let '(m, s) := digits B n (Qabs x) in
       Qred (Qsgn x * (inject_Z m * Bpow B (- s))).

End sig.

(** ** Decimal text

    Characters are handled as lists and turned into strings at the very end,
    the way Go builds a [[]byte] buffer and converts it. *)

Module text.

Definition digit_char (d : Z) : ascii := ascii_of_nat (48 + Z.to_nat d).

Definition digit_of_char (c : ascii) : option Z :=
  let n := Z.of_nat (nat_of_ascii c) in
  if (48 <=? n) && (n <=? 57) then Some (n - 48) else None.

(** Big-endian decimal digits of a natural number. *)
Fixpoint udigits_fuel (fuel : nat) (n : Z) : list Z :=
  match fuel with
  | O => []
  | S f => if n <? 10 then [n] else udigits_fuel f (n / 10) ++ [n mod 10]
  end.

Definition udigits (n : Z) : list Z := udigits_fuel (S (Z.to_nat (Z.log2 n))) n.

Definition uvalue (ds : list Z) : Z := fold_left (fun acc d => 10 * acc + d) ds 0.

(** [strconv.Itoa] and [big.Int.String] on a value. *)
Definition itoa (z : Z) : list ascii :=
  (if z <? 0 then ["-"%char] else []) ++ map digit_char (udigits (Z.abs z)).

(** Longest prefix of decimal digits, and what follows it. *)
Fixpoint span_digits (s : list ascii) : list Z * list ascii :=
  match s with
  | [] => ([], [])
  | c :: r =>
      match digit_of_char c with
      | Some d => let '(ds, r') := span_digits r in (d :: ds, r')
      | None => ([], s)
      end
  end.

(** An optional sign; [true] is minus. *)
Definition scan_sign (s : list ascii) : bool * list ascii :=
  match s with
  | c :: r =>
      if Ascii.eqb c "-" then (true, r)
      else if Ascii.eqb c "+" then (false, r)
      else (false, s)
  | [] => (false, [])
  end.

Definition signed (neg : bool) (n : Z) : Z := if neg then - n else n.

(** [big.Int.SetString(s, 10)]: an optional sign and one or more digits,
    with nothing left over. *)
Definition parse_int (s : list ascii) : option Z :=
  let '(neg, s1) := scan_sign s in
  match span_digits s1 with
  | (d :: ds, []) => Some (signed neg (uvalue (d :: ds)))
  | _ => None
  end.

(** The decimal syntax of [big.Float.SetString]: sign, digits with an
    optional fraction, and an optional decimal exponent.  (Go also takes
    base prefixes, digit separators and [Inf]; no text built in this
    development has them.)  The result is the exact value denoted. *)
Definition parse_float (s : list ascii) : option Q :=
  let '(neg, s1) := scan_sign s in
  let '(ip, s2) := span_digits s1 in
  let '(fp, s3) :=
    match s2 with
    | c :: r => if Ascii.eqb c "." then span_digits r else ([], s2)
    | [] => ([], s2)
    end in
  match ip ++ fp with
  | [] => None
  | ds =>
      let m := signed neg (uvalue ds) in
      let k := Z.of_nat (length fp) in
      match s3 with
      | [] => Some (Qred (inject_Z m * sig.Bpow 10 (- k)))
      | c :: r =>
          if Ascii.eqb c "e" || Ascii.eqb c "E" then
            let '(eneg, r1) := scan_sign r in
            match span_digits r1 with
            | (e :: es, []) =>
                Some (Qred (inject_Z m
                            * sig.Bpow 10 (signed eneg (uvalue (e :: es)) - k)))
            | _ => None
            end
          else None
      end
  end.

Definition is_digit (d : Z) : Prop := 0 <= d <= 9.

(** A text that does not go on with a digit. *)
Definition stops (s : list ascii) : Prop :=
  match s with
  | [] => True
  | c :: _ => digit_of_char c = None
  end.

(** The three parts of a decimal text after its integer digits. *)
Definition sign_text (neg : bool) : list ascii := if neg then ["-"%char] else [].

Definition frac_text (dot : bool) (fp : list Z) : list ascii :=
  if dot then "."%char :: map digit_char fp else [].

Definition exp_text (eneg : bool) (es : list Z) : list ascii :=
  "e"%char :: (if eneg then "-"%char else "+"%char) :: map digit_char es.

(** Go's [decimal]: the value [0.mant * 10^exp], [mant] without trailing
    zeros. *)
Record decimal := mkDecimal { mant : list Z; exp : Z }.

Definition len {A} (l : list A) : Z := Z.of_nat (length l).

Fixpoint trim_leading (ds : list Z) : list Z :=
  match ds with
  | d :: r => if d =? 0 then trim_leading r else ds
  | [] => []
  end.

Definition trim (ds : list Z) : list Z := rev (trim_leading (rev ds)).

(** A positive rational rounded to [n] decimal digits ([decimal.round]). *)
Definition to_decimal (n : Z) (a : Q) : decimal :=
  let '(m, s) := sig.digits 10 n a in
  let ds := udigits m in
  {| mant := trim ds; exp := len ds - s |}.

Definition decimal_value (d : decimal) : Q :=
  inject_Z (uvalue (mant d)) * sig.Bpow 10 (exp d - len (mant d)).

(** A decimal as [decimal.round] to [prec] digits leaves it. *)
Definition wf_decimal (prec : Z) (d : decimal) : Prop :=
  mant d <> [] /\ Forall is_digit (mant d) /\ len (mant d) <= prec.

(** [decimal.at] *)
Definition at_ (d : decimal) (i : Z) : Z :=
  if (0 <=? i) && (i <? len (mant d)) then nth (Z.to_nat i) (mant d) 0 else 0.

Definition zeros (n : Z) : list ascii := replicate (Z.to_nat n) "0"%char.

(** [fmtF]: [%f] with [prec] digits after the point. *)
Definition fmtF (prec : Z) (d : decimal) : list ascii :=
  (if 0 <? exp d then
     let m := Z.min (len (mant d)) (exp d) in
     map digit_char (take (Z.to_nat m) (mant d)) ++ zeros (exp d - m)
   else ["0"%char])
  ++ (if 0 <? prec then
        "."%char :: map (fun i => digit_char (at_ d (exp d + Z.of_nat i)))
                        (seq 0 (Z.to_nat prec))
      else []).

(** [fmtE]: [%e] with [prec] digits after the point. *)
Definition fmtE (prec : Z) (d : decimal) : list ascii :=
  let ch := match mant d with c :: _ => c | [] => 0 end in
  let e := match mant d with _ :: _ => exp d - 1 | [] => 0 end in
  digit_char ch
  :: (if 0 <? prec then
        let m := Z.min (len (mant d)) (prec + 1) in
        "."%char :: map digit_char (drop 1 (take (Z.to_nat m) (mant d)))
                 ++ zeros (prec + 1 - Z.max 1 m)
      else [])
  ++ "e"%char :: (if e <? 0 then "-"%char else "+"%char)
  :: (if Z.abs e <? 10 then ["0"%char] else [])
  ++ map digit_char (udigits (Z.abs e)).

(** The [%g] branch of [big.Float.Append] for a decimal already rounded
    to [prec] digits. *)
Definition fmtG (prec : Z) (d : decimal) : list ascii :=
  let l := len (mant d) in
  let eprec := if (l <? prec) && (exp d <=? l) then l else prec in
  let e := exp d - 1 in
  if (e <? -4) || (eprec <=? e) then fmtE (Z.min prec l - 1) d
  else fmtF (Z.max ((if exp d <? prec then l else prec) - exp d) 0) d.

End text.

(** ** The part of [math/big] the reward code uses *)

Module big.

(** A [big.Float] with a finite value: its precision in bits and its value.
    Infinities and the sign of zero are left out; dividing by zero, which in
    Go produces an infinity or panics, is reported by [Quo] as [None]. *)
Record Float := mkFloat { prec : Z; val : Q }.

(** [new(big.Float)] *)
Definition new : Float := mkFloat 0 0.

(** [big.NewFloat(x)]: 53 bits, the precision of a float64. *)
Definition NewFloat (x : Q) : Float := mkFloat 53 (sig.round 2 53 x).

(** The precision a result is rounded to: the receiver's, or when that is
    zero the larger of the operands'. *)
Definition result_prec (z x y : Float) : Z :=
  if prec z =? 0 then Z.max (prec x) (prec y) else prec z.

Definition Mul (z x y : Float) : Float :=
  let p := result_prec z x y in mkFloat p (sig.round 2 p (val x * val y)).

Definition Sub (z x y : Float) : Float :=
  let p := result_prec z x y in mkFloat p (sig.round 2 p (val x - val y)).

Definition Quo (z x y : Float) : option Float :=
  if Qeq_bool (val y) 0 then None
  else let p := result_prec z x y in
       Some (mkFloat p (sig.round 2 p (val x / val y))).

(** [z.SetString(s)]: a receiver of precision 0 gets 64 bits. *)
Definition SetString (z : Float) (s : string) : option Float :=
  match text.parse_float (list_ascii_of_string s) with
  | Some q => let p := if prec z =? 0 then 64 else prec z in
              Some (mkFloat p (sig.round 2 p q))
  | None => None
  end.

(** [x.String()], which is [x.Text('g', 10)]. *)
Definition String (x : Float) : string :=
  string_of_list_ascii
    (if Qeq_bool (val x) 0 then ["0"%char]
     else (if Qnum (val x) <? 0 then ["-"%char] else [])
          ++ text.fmtG 10 (text.to_decimal 10 (Qabs (val x)))).

(** [big.Int.Int64]: the low 64 bits of the magnitude read as an int64,
    negated for a negative number. *)
Definition wrap64 (z : Z) : Z := (z + 2 ^ 63) mod 2 ^ 64 - 2 ^ 63.

Definition Int64 (x : Z) : Z :=
  let v := wrap64 (Z.abs x mod 2 ^ 64) in
  if x <? 0 then wrap64 (- v) else v.

(** [big.Int.String] *)
Definition Int_String (x : Z) : string := string_of_list_ascii (text.itoa x).

End big.

(** ** Go results, panics and the heap of floats

    A Go call ends with a value, with a non-nil [error], or in a panic (a nil
    pointer followed).  The [big.Float]s behind pointers live in a heap, a
    list indexed by location, so that two copies of a pointer share the cell
    they point to. *)

Inductive error := ErrNotFound | errorString (msg : string).

Module errors.
Definition New (msg : string) : error := errorString msg.
End errors.

Inductive outcome (A : Type) := Val (a : A) | Err (e : error) | Panic.
Arguments Val {A} a.
Arguments Err {A} e.
Arguments Panic {A}.

Definition M (S A : Type) : Type := S -> outcome A * S.

Definition ret {S A} (a : A) : M S A := fun s => (Val a, s).
Definition fail {S A} (e : error) : M S A := fun s => (Err e, s).
Definition panic {S A} : M S A := fun s => (Panic, s).

Definition bind {S A B} (m : M S A) (k : A -> M S B) : M S B :=
  fun s => match m s with
           | (Val a, s') => k a s'
           | (Err e, s') => (Err e, s')
           | (Panic, s') => (Panic, s')
           end.

Notation "x <- m ;; k" := (bind m (fun x => k))
  (at level 100, m at next level, right associativity).
Notation "m ;;; k" := (bind m (fun _ => k))
  (at level 100, right associativity).

Abbreviation loc := nat (only parsing).
Abbreviation heap := (list big.Float) (only parsing).

(** Following a pointer: nil (or dangling) panics. *)
Definition load (p : option loc) : M heap big.Float :=
  fun h => match p with
           | Some l => match h !! l with
                       | Some f => (Val f, h)
                       | None => (Panic, h)
                       end
           | None => (Panic, h)
           end.

Definition store (p : option loc) (f : big.Float) : M heap unit :=
  fun h => match p with
           | Some l => if decide (l < length h)%nat then (Val tt, <[l := f]> h)
                       else (Panic, h)
           | None => (Panic, h)
           end.

Definition alloc (f : big.Float) : M heap loc :=
  fun h => (Val (length h), h ++ [f]).

(** [z.Quo(x, y)] as a step of a run. *)
Definition quo (z x y : big.Float) : M heap big.Float :=
  match big.Quo z x y with
  | Some q => ret q
  | None => panic
  end.

(** ** [model/types]: amounts and percentages

    The package is not among the sources.  What the sources show of it is
    that [Amount] embeds a [*big.Int] reached as [.Int], which may be nil,
    and that [Percentage] embeds a [*big.Float] reached as [.Float]. *)

Module types.

Record Amount := mkAmount { Int : option Z }.

Record Percentage := mkPercentage { Float : option loc }.

(** Modelled from the spec: [types.NewAmount] is missing from the sources.
    An Amount is an arbitrary-precision integer quantity and a parse failure
    is distinct from zero: a text that is not an integer gives the amount
    that holds no number. *)
Definition NewAmount (src : string) : Amount :=
  mkAmount (text.parse_int (list_ascii_of_string src)).

(** Modelled from the spec: [types.NewPercentage] is missing from the
    sources.  A Percentage is a fractional value of its own, so it gets a
    fresh [big.Float] set from the text; a text that is not a number gives
    the percentage that holds no number. *)
Definition NewPercentage (src : string) : M heap Percentage :=
  match big.SetString big.new src with
  | Some f => l <- alloc f ;; ret (mkPercentage (Some l))
  | None => ret (mkPercentage None)
  end.

(** Modelled from the spec: [Amount.String] is missing from the sources.
    The decimal text of the number, and Go's text of a nil [*big.Int]
    otherwise. *)
Definition String (a : Amount) : string :=
  match Int a with
  | Some z => big.Int_String z
  | None => "<nil>"
  end.

(** [Int64], promoted from [*big.Int]; a nil pointer panics. *)
Definition Int64 {S} (a : Amount) : M S Z :=
  match Int a with
  | Some z => ret (big.Int64 z)
  | None => panic
  end.

(** Modelled from the spec: [Amount.Add] and [Amount.Sub] are missing from
    the sources.  New amounts produced by exact integer arithmetic. *)
Definition Add (a b : Amount) : Amount :=
  match Int a, Int b with
  | Some x, Some y => mkAmount (Some (x + y))
  | _, _ => mkAmount None
  end.

(** Modelled from the spec: [Amount.Sub], missing from the sources like
    [Amount.Add]; the block reward is coinbase plus transaction fees minus
    snark job fees. *)
Definition Sub (a b : Amount) : Amount :=
  match Int a, Int b with
  | Some x, Some y => mkAmount (Some (x - y))
  | _, _ => mkAmount None
  end.

End types.

(** ** [model/util/calculate.go] *)

Module util.

(** CalculateWeight calculates weight *)
Definition CalculateWeight (balance totalStakedAmount : types.Amount)
  : M heap types.Percentage :=
  match big.SetString big.new (types.String balance) with
  | None => fail (errors.New "error with balance amount")
  | Some w =>
      i <- types.Int64 totalStakedAmount ;;
      if i =? 0 then fail (errors.New "total staked amount can not be zero")
      else
        match big.SetString big.new (types.String totalStakedAmount) with
        | None => fail (errors.New "error with total staked amount")
        | Some t =>
            q <- quo big.new w t ;;
            types.NewPercentage (big.String q)
        end
  end.

(** CalculateValidatorReward calculates validator reward.  [validatorFee.Quo]
    is the method of the embedded pointer: its result goes into the cell
    that [validatorFee.Float] points to. *)
Definition CalculateValidatorReward (blockReward : types.Amount)
    (validatorFee : types.Percentage) : M heap types.Amount :=
  match big.SetString big.new (types.String blockReward) with
  | None => fail (errors.New "error with block reward amount")
  | Some vr =>
      z <- load (types.Float validatorFee) ;;
      q <- quo z z (big.NewFloat 100) ;;
      store (types.Float validatorFee) q ;;;
      fee <- load (types.Float validatorFee) ;;
      let vr := big.Mul vr vr fee in
      ret (types.NewAmount (big.String vr))
  end.

(** CalculateDelegatorReward calculates delegator reward.  The weight is
    passed by value; the fee is the same pointer as above. *)
Definition CalculateDelegatorReward (weight : big.Float)
    (blockReward : types.Amount) (validatorFee : types.Percentage)
  : M heap types.Amount :=
  match big.SetString big.new (types.String blockReward) with
  | None => fail (errors.New "error with stake amount")
  | Some br =>
      let remaining := big.NewFloat 0 in
      fee <- load (types.Float validatorFee) ;;
      let remaining := big.Sub remaining (big.NewFloat 100) fee in
      q <- quo fee remaining (big.NewFloat 100) ;;
      store (types.Float validatorFee) q ;;;
      fee <- load (types.Float validatorFee) ;;
      let br := big.Mul br br fee in
      let res := big.Mul big.new br weight in
      ret (types.NewAmount (big.String res))
  end.

End util.

(** ** The records of [model]

    Modelled from the spec: the package [model] is missing from the
    sources.  The fields are those [reward_calculation.go] reads and writes;
    the staked amount of a ledger entry and the owner kind of a reward are
    those of the data model of the specification. *)

Module model.

Record Block := mkBlock {
  Coinbase : types.Amount;
  TransactionsFees : types.Amount;
  SnarkJobsFees : types.Amount;
  Epoch : Z;
  Slot : Z;
  Supercharged : bool;
  Creator : string
}.

Record ValidatorEpoch := mkValidatorEpoch { ValidatorFee : types.Percentage }.

Record Ledger := mkLedger { ID : Z; StakedAmount : types.Amount }.

Record LedgerEntry := mkLedgerEntry {
  PublicKey : string;
  Balance : types.Amount;
  Weight : types.Percentage
}.

Inductive RewardOwnerType := Validator | Delegator.

Record BlockReward := mkBlockReward {
  OwnerAccount : string;
  Reward : types.Amount;
  OwnerType : RewardOwnerType
}.

Definition set_Reward (r : BlockReward) (a : types.Amount) : BlockReward :=
  mkBlockReward (OwnerAccount r) a (OwnerType r).

Definition set_Weight (r : LedgerEntry) (w : types.Percentage) : LedgerEntry :=
  mkLedgerEntry (PublicKey r) (Balance r) w.

End model.

(** ** The store and the other collaborators

    The store is outside the sources.  A lookup answers like the Go call it
    stands for, with a value and an error side by side; [Import] either
    refuses a batch with an error or appends it to the rewards it keeps. *)

Module store.

Record Store := mkStore {
  GetValidatorEpochs : string -> string -> list model.ValidatorEpoch * option error;
  FindLedger : Z -> option model.Ledger * option error;
  LedgerRecords : Z -> list model.LedgerEntry * option error;
  FirstBlockOfEpoch : string -> option model.Block * option error;
  ImportRefused : list model.BlockReward -> option error
}.

(** The same store with another answer to one of its calls. *)
Definition with_LedgerRecords (db : Store)
    (f : Z -> list model.LedgerEntry * option error) : Store :=
  mkStore (GetValidatorEpochs db) (FindLedger db) f (FirstBlockOfEpoch db)
    (ImportRefused db).

Definition with_FirstBlockOfEpoch (db : Store)
    (f : string -> option model.Block * option error) : Store :=
  mkStore (GetValidatorEpochs db) (FindLedger db) (LedgerRecords db) f
    (ImportRefused db).

Definition with_ImportRefused (db : Store)
    (f : list model.BlockReward -> option error) : Store :=
  mkStore (GetValidatorEpochs db) (FindLedger db) (LedgerRecords db)
    (FirstBlockOfEpoch db) f.

End store.

(** What a run can change: the heap of floats and the batches of rewards the
    store has imported, oldest first. *)
Record World := mkWorld {
  mem : heap;
  imported : list (list model.BlockReward)
}.

(** A step on the heap alone, inside a run. *)
Definition on_heap {A} (m : M heap A) : M World A :=
  fun w => let '(r, h) := m (mem w) in (r, mkWorld h (imported w)).

(** [db.Rewards.Import(batch)] *)
Definition Import (db : store.Store) (batch : list model.BlockReward) : M World unit :=
  fun w => match store.ImportRefused db batch with
           | Some e => (Err e, w)
           | None => (Val tt, mkWorld (mem w) (imported w ++ [batch]))
           end.

(** A Go pair of a value and an error, checked with [if err != nil]. *)
Definition checked {S A} (r : error + A) : M S A :=
  match r with
  | inl e => fail e
  | inr a => ret a
  end.

(** Following a pointer to a record. *)
Definition deref {S A} (p : option A) : M S A :=
  match p with
  | Some a => ret a
  | None => panic
  end.

(** The functions of [mapper] and [util] that [RewardCalculation] calls and
    that are not among the sources.  The weighting functions write the
    [Weight] of the records they are given; here they hand the records
    back. *)
Record Collaborators := mkCollaborators {
  DelegatorBlockRewards :
    list model.LedgerEntry -> model.Block -> error + list model.BlockReward;
  ValidatorBlockReward : model.Block -> error + model.BlockReward;
  CalculateWeightsNonSupercharged :
    types.Amount -> list model.LedgerEntry -> M heap (list model.LedgerEntry);
  CalculateSuperchargedWeighting : model.Block -> M heap types.Percentage;
  CalculateWeightsSupercharged :
    types.Percentage -> list model.LedgerEntry -> Z ->
    M heap (list model.LedgerEntry)
}.

(** ** [indexing/reward_calculation.go] *)

Module indexing.

Import model.

Definition is_nil (a : types.Amount) : bool :=
  match types.Int a with None => true | Some _ => false end.

Definition Itoa (z : Z) : string := string_of_list_ascii (text.itoa z).

(** [err != nil && err != store.ErrNotFound] *)
Definition other_error (err : option error) : option error :=
  match err with
  | Some ErrNotFound => None
  | Some e => Some e
  | None => None
  end.

(** Lines 76 to 79: the weight of every record, by public key. *)
Fixpoint weights_by_key (records : list LedgerEntry)
    (recordsMap : gmap string big.Float) : M heap (gmap string big.Float) :=
  match records with
  | [] => ret recordsMap
  | r :: rest =>
      w <- load (types.Float (Weight r)) ;;
      weights_by_key rest (<[PublicKey r := w]> recordsMap)
  end.

(** Lines 85 to 97: the reward of every delegator. *)
Fixpoint delegator_rewards (recordsMap : gmap string big.Float)
    (blockReward : types.Amount) (creatorFee : types.Percentage)
    (delegatorsBlockRewards : list BlockReward) : M heap (list BlockReward) :=
  match delegatorsBlockRewards with
  | [] => ret []
  | dbr :: rest =>
      match recordsMap !! OwnerAccount dbr with
      | None => fail (errors.New ("record is not found for " +:+ OwnerAccount dbr))
      | Some weight =>
          res <- util.CalculateDelegatorReward weight blockReward creatorFee ;;
          rest' <- delegator_rewards recordsMap blockReward creatorFee rest ;;
          ret (set_Reward dbr res :: rest')
      end
  end.

(** Lines 49 to 58: the first block of the epoch and its slot. *)
Definition first_slot_of_epoch (db : store.Store) (block : Block) : M World Z :=
  let '(firstBlockOfEpoch, err) := store.FirstBlockOfEpoch db (Itoa (Epoch block)) in
  (match err with
   | Some e => match other_error err with Some e' => fail e' | None => ret tt end
   | None => match firstBlockOfEpoch with
             | None => fail (errors.New "first block of epoch is not found")
             | Some _ => ret tt
             end
   end) ;;;
  b <- deref firstBlockOfEpoch ;;
  ret (Slot b).

(** RewardCalculation calculates rewards *)
Definition RewardCalculation (co : Collaborators) (db : store.Store)
    (block : Block) : M World unit :=
  if is_nil (Coinbase block) || is_nil (TransactionsFees block)
     || is_nil (SnarkJobsFees block)
  then ret tt
  else
    let '(validatorEpochs, err) :=
      store.GetValidatorEpochs db (Itoa (Epoch block)) (Creator block) in
    match other_error err, validatorEpochs with
    | Some e, _ => fail e
    | None, [] => fail (errors.New "validator fee for epoch not found")
    | None, ve :: _ =>
        let creatorFee := ValidatorFee ve in
        match err with
        | Some e => fail e
        | None =>
            let blockReward := types.Add (Coinbase block) (TransactionsFees block) in
            let blockReward := types.Sub blockReward (SnarkJobsFees block) in
            let '(ledger, err) := store.FindLedger db (Epoch block) in
            match other_error err, err with
            | Some e, _ => fail e
            | None, Some _ => ret tt
            | None, None =>
                ledger <- deref ledger ;;
                let '(records, err) := store.LedgerRecords db (ID ledger) in
                match other_error err with
                | Some e => fail e
                | None =>
                    firstSlotOfEpoch <- first_slot_of_epoch db block ;;
                    records <-
                      (if negb (Supercharged block) then
                         on_heap (CalculateWeightsNonSupercharged co
                                    (StakedAmount ledger) records)
                       else
                         superchargedWeighting <-
                           on_heap (CalculateSuperchargedWeighting co block) ;;
                         on_heap (CalculateWeightsSupercharged co
                                    superchargedWeighting records firstSlotOfEpoch)) ;;
                    recordsMap <- on_heap (weights_by_key records ∅) ;;
                    delegatorsBlockRewards <-
                      checked (DelegatorBlockRewards co records block) ;;
                    delegatorsBlockRewards <-
                      on_heap (delegator_rewards recordsMap blockReward creatorFee
                                 delegatorsBlockRewards) ;;
                    Import db delegatorsBlockRewards ;;;
                    validatorReward <- checked (ValidatorBlockReward co block) ;;
                    reward <-
                      on_heap (util.CalculateValidatorReward blockReward creatorFee) ;;
                    let validatorReward := set_Reward validatorReward reward in
                    Import db [validatorReward] ;;;
                    ret tt
                end
            end
        end
    end.

End indexing.

(** ** The missing collaborators, from the specification *)

Module spec.

Import model.

(** Modelled from the spec: [util.CalculateWeightsNonSupercharged] is
    missing from the sources.  Each record's weight is its own staked amount
    divided by the ledger's total staked amount, written into the record;
    the first failure aborts the pass. *)
Fixpoint CalculateWeightsNonSupercharged (stakedAmount : types.Amount)
    (records : list LedgerEntry) : M heap (list LedgerEntry) :=
  match records with
  | [] => ret []
  | r :: rest =>
      w <- util.CalculateWeight (Balance r) stakedAmount ;;
      rest' <- CalculateWeightsNonSupercharged stakedAmount rest ;;
      ret (set_Weight r w :: rest')
  end.

(** Modelled from the spec: [mapper.DelegatorBlockRewards] is missing from
    the sources.  One delegator reward record for every staking record,
    owned by the record's account, its amount not yet set. *)
Definition DelegatorBlockRewards (records : list LedgerEntry) (block : Block)
  : error + list BlockReward :=
  inr (map (fun r => mkBlockReward (PublicKey r) (types.mkAmount None) Delegator)
           records).

(** Modelled from the spec: [mapper.ValidatorBlockReward] is missing from
    the sources.  One validator reward record, owned by the block's
    creator. *)
Definition ValidatorBlockReward (block : Block) : error + BlockReward :=
  inr (mkBlockReward (Creator block) (types.mkAmount None) Validator).

(** The collaborators of the specification around a supercharged policy,
    which the specification leaves open. *)
Definition collaborators
    (weighting : Block -> M heap types.Percentage)
    (weights : types.Percentage -> list LedgerEntry -> Z -> M heap (list LedgerEntry))
  : Collaborators :=
  mkCollaborators DelegatorBlockRewards ValidatorBlockReward
    CalculateWeightsNonSupercharged weighting weights.

End spec.

(** ** The scenario of the specification

    Total staked 1000, records A with 600 and B with 400, a block reward of
    100 and a fee of 10 percent. *)

Module scenario.

Import model.

Definition amount (z : Z) : types.Amount := types.mkAmount (Some z).

Definition fee : types.Percentage := types.mkPercentage (Some 0%nat).

(** The heap holds the one float of the store's answer: the fee, 10. *)
Definition world : World := mkWorld [big.mkFloat 64 10] [].

Definition block : Block :=
  mkBlock (amount 90) (amount 15) (amount 5) 7 42 false "V".

Definition records : list LedgerEntry :=
  [ mkLedgerEntry "A" (amount 600) (types.mkPercentage None);
    mkLedgerEntry "B" (amount 400) (types.mkPercentage None) ].

(** The first block of the epoch, as the store of the scenario has it. *)
Definition first_block : Block :=
  mkBlock (amount 0) (amount 0) (amount 0) 7 0 false "V".

Definition db : store.Store :=
  store.mkStore
    (fun _ _ => ([mkValidatorEpoch fee], None))
    (fun _ => (Some (mkLedger 1 (amount 1000)), None))
    (fun _ => (records, None))
    (fun _ => (Some first_block, None))
    (fun _ => None).

(** No supercharged block occurs in the scenario. *)
Definition co : Collaborators :=
  spec.collaborators (fun _ => panic) (fun _ _ _ => panic).

(** A store that has the records but refuses to import a validator
    reward. *)
Definition is_validator (r : BlockReward) : bool :=
  match OwnerType r with Validator => true | Delegator => false end.

Definition refusing_validator : store.Store :=
  store.with_ImportRefused db
    (fun batch => if existsb is_validator batch
                  then Some (errors.New "import refused") else None).

(** A store whose lookup of the first block of the epoch reports NotFound
    next to a block value. *)
Definition first_block_not_found : store.Store :=
  store.with_FirstBlockOfEpoch db (fun _ => (Some first_block, Some ErrNotFound)).

(** A store whose lookup of the records of the ledger reports NotFound and
    brings no record. *)
Definition records_not_found : store.Store :=
  store.with_LedgerRecords db (fun _ => ([], Some ErrNotFound)).

(** The block of the scenario, supercharged, with a supercharged policy that
    never fails standing in for the one the specification leaves open: the
    factor is 1 and every record weighs that factor. *)
Definition supercharged_block : Block :=
  mkBlock (amount 90) (amount 15) (amount 5) 7 42 true "V".

Definition supercharged_co : Collaborators :=
  spec.collaborators
    (fun _ => types.NewPercentage "1")
    (fun weighting records _ => ret (map (fun r => set_Weight r weighting) records)).

End scenario.

(** ** Vocabulary of the statements *)

(** The fee a call leaves in the cell it was given: the old one over 100
    for the validator, the rest to 100 over 100 for a delegator. *)
Definition validator_fee_after (f : big.Float) : big.Float :=
  let p := big.result_prec f f (big.NewFloat 100) in
  big.mkFloat p (sig.round 2 p (big.val f / big.val (big.NewFloat 100))).

Definition delegator_fee_after (f : big.Float) : big.Float :=
  let remaining := big.Sub (big.NewFloat 0) (big.NewFloat 100) f in
  let p := big.result_prec f remaining (big.NewFloat 100) in
  big.mkFloat p (sig.round 2 p (big.val remaining / big.val (big.NewFloat 100))).

(** The weight [CalculateWeight] computes from two numbers: both are read
    at 64 bits, divided at 64 bits, printed with ten digits and read again
    at 64 bits. *)
Definition weight_of (balance total : Z) : big.Float :=
  let w := sig.round 2 64 (inject_Z balance) in
  let t := sig.round 2 64 (inject_Z total) in
  big.mkFloat 64 (sig.round 2 64 (sig.round 10 10 (sig.round 2 64 (w / t)))).

(** The float whose text [CalculateValidatorReward] turns into an amount,
    from the block reward [z] and the fee [f] found in the cell: the reward
    read at 64 bits times the fee the call has just left there. *)
Definition validator_reward_float (z : Z) (f : big.Float) : big.Float :=
  let vr := big.mkFloat 64 (sig.round 2 64 (inject_Z z)) in
  big.Mul vr vr (validator_fee_after f).

(** The same for [CalculateDelegatorReward], with the weight it is given. *)
Definition delegator_reward_float (weight : big.Float) (z : Z) (f : big.Float)
  : big.Float :=
  let br := big.mkFloat 64 (sig.round 2 64 (inject_Z z)) in
  big.Mul big.new (big.Mul br br (delegator_fee_after f)) weight.

(** The record has a weight to read on the heap [h]. *)
Definition weight_at (h : list big.Float) (r : model.LedgerEntry) : option big.Float :=
  match types.Float (model.Weight r) with
  | Some l => h !! l
  | None => None
  end.

(** All three reward components of the block are present. *)
Definition components_present (block : model.Block) : Prop :=
  indexing.is_nil (model.Coinbase block) = false /\ indexing.is_nil (model.TransactionsFees block) = false
  /\ indexing.is_nil (model.SnarkJobsFees block) = false.

(** The validator fee was found: a first row and no error. *)
Definition fee_found (db : store.Store) (block : model.Block) : Prop :=
  exists ve rest,
    store.GetValidatorEpochs db (indexing.Itoa (model.Epoch block)) (model.Creator block)
    = (ve :: rest, None).


(** Lines 33 and 34: the block reward of the block. *)
Definition block_reward (block : model.Block) : types.Amount :=
  types.Sub (types.Add (model.Coinbase block) (model.TransactionsFees block))
    (model.SnarkJobsFees block).

(** Lines 60 to 74, on the heap: the weight pass of the block's policy over
    the records of the ledger. *)
Definition weight_pass (co : Collaborators) (block : model.Block)
    (stakedAmount : types.Amount) (records : list model.LedgerEntry)
    (firstSlotOfEpoch : Z) : M (list big.Float) (list model.LedgerEntry) :=
  if negb (model.Supercharged block) then
    CalculateWeightsNonSupercharged co stakedAmount records
  else
    superchargedWeighting <- CalculateSuperchargedWeighting co block ;;
    CalculateWeightsSupercharged co superchargedWeighting records firstSlotOfEpoch.

(** Lines 103 to 116: the validator reward is mapped, computed and
    imported. *)
Definition validator_stage (co : Collaborators) (db : store.Store)
    (block : model.Block) (blockReward : types.Amount)
    (creatorFee : types.Percentage) : M World unit :=
  validatorReward <- checked (ValidatorBlockReward co block) ;;
  reward <- on_heap (util.CalculateValidatorReward blockReward creatorFee) ;;
  let validatorReward := model.set_Reward validatorReward reward in
  Import db [validatorReward] ;;;
  ret tt.

(** The float behind the fee pointer on the heap [h], if there is one. *)
Definition fee_at (h : list big.Float) (fee : types.Percentage) : option big.Float :=
  match types.Float fee with
  | Some l => h !! l
  | None => None
  end.

(** The run of [block] from the world [w] got as far as line 97 with
    nothing failing: the components are there; the fee lookup brought the
    row whose fee is [creatorFee]; the ledger, its records and the first
    block of the epoch were found; the weight pass ran from the heap of [w]
    over those records with the ledger's staked amount; the weights were
    read from the records it left; and the loop over the delegator rewards
    mapped from those records, with the block reward of the block and that
    fee, gave every record its reward: the batch [ds], on the heap [h]. *)
Definition split_completed (co : Collaborators) (db : store.Store)
    (block : model.Block) (w : World) (creatorFee : types.Percentage)
    (ds : list model.BlockReward) (h : list big.Float) : Prop :=
  exists ve rest led records rerr b ferr recs h0 recordsMap h1 dbrs,
    components_present block
    /\ store.GetValidatorEpochs db (indexing.Itoa (model.Epoch block))
         (model.Creator block) = (ve :: rest, None)
    /\ creatorFee = model.ValidatorFee ve
    /\ store.FindLedger db (model.Epoch block) = (Some led, None)
    /\ store.LedgerRecords db (model.ID led) = (records, rerr)
    /\ indexing.other_error rerr = None
    /\ store.FirstBlockOfEpoch db (indexing.Itoa (model.Epoch block)) = (Some b, ferr)
    /\ indexing.other_error ferr = None
    /\ weight_pass co block (model.StakedAmount led) records (model.Slot b) (mem w)
       = (Val recs, h0)
    /\ indexing.weights_by_key recs ∅ h0 = (Val recordsMap, h1)
    /\ DelegatorBlockRewards co recs block = inr dbrs
    /\ indexing.delegator_rewards recordsMap (block_reward block) creatorFee dbrs h1
       = (Val ds, h).

(** [y] is [x] up to a relative error of [e]: [y = x * r] for a factor [r]
    between [1 - e] and [1 + e]. *)
Definition close (e x y : Q) : Prop :=
  exists r : Q, (y == x * r /\ 1 - e <= r <= 1 + e)%Q.

(** ** Further inputs of the scenario

    The records of the scenario once the weight pass has run, the heap it
    leaves, and what the loops make of them; inputs that fail. *)

Module examples.

Import model scenario.

(** The heap after the weight pass: the fee, then the two weights. *)
Definition weighted_heap : list big.Float :=
  [big.mkFloat 64 10; weight_of 600 1000; weight_of 400 1000].

Definition weighted_records : list LedgerEntry :=
  [ mkLedgerEntry "A" (amount 600) (types.mkPercentage (Some 1%nat));
    mkLedgerEntry "B" (amount 400) (types.mkPercentage (Some 2%nat)) ].

Definition weights : gmap string big.Float :=
  <["B" := weight_of 400 1000]> (<["A" := weight_of 600 1000]> ∅).

Definition delegators : list BlockReward :=
  [ mkBlockReward "A" (types.mkAmount None) Delegator;
    mkBlockReward "B" (types.mkAmount None) Delegator ].

Definition validator : BlockReward :=
  mkBlockReward "V" (types.mkAmount None) Validator.

(** A delegator reward whose owner is in no record, and a record whose
    weight was never set. *)
Definition stranger : BlockReward :=
  mkBlockReward "C" (types.mkAmount None) Delegator.

Definition unweighted : LedgerEntry :=
  mkLedgerEntry "C" (amount 0) (types.mkPercentage None).

(** A store whose fee lookup fails, and one whose lookup of the first block
    finds nothing and says so with no error. *)
Definition failing_fee : store.Store :=
  store.mkStore (fun _ _ => ([], Some (errors.New "connection lost")))
    (store.FindLedger db) (store.LedgerRecords db) (store.FirstBlockOfEpoch db)
    (store.ImportRefused db).

Definition no_first_block : store.Store :=
  store.with_FirstBlockOfEpoch db (fun _ => (None, None)).

(** Stores whose fee lookup reports NotFound, with no row and next to a
    row, and one whose ledger lookup reports NotFound. *)
Definition fee_not_found : store.Store :=
  store.mkStore (fun _ _ => ([], Some ErrNotFound))
    (store.FindLedger db) (store.LedgerRecords db) (store.FirstBlockOfEpoch db)
    (store.ImportRefused db).

Definition fee_not_found_with_row : store.Store :=
  store.mkStore (fun _ _ => ([mkValidatorEpoch fee], Some ErrNotFound))
    (store.FindLedger db) (store.LedgerRecords db) (store.FirstBlockOfEpoch db)
    (store.ImportRefused db).

Definition ledger_not_found : store.Store :=
  store.mkStore (store.GetValidatorEpochs db) (fun _ => (None, Some ErrNotFound))
    (store.LedgerRecords db) (store.FirstBlockOfEpoch db) (store.ImportRefused db).

End examples.

(** ** Proof steps used more than once *)

(** Inequalities between closed rationals, by computation. *)
Ltac qcmp :=
  solve [ apply Qle_bool_imp_le; vm_compute; reflexivity
        | apply Qlt_alt; vm_compute; reflexivity ].

(** One step of a run: the first action of a [bind] ends with a value, with
    an error or in a panic. *)
Ltac bind_step H E a s1 :=
  match type of H with
  | bind ?m ?k ?s = _ =>
      unfold bind at 1 in H; cbv beta in H;
      destruct (m s) as [[a|?|] s1] eqn:E; cbv beta iota in H
  end.

(** A run that stopped: its result and world are those at hand. *)
Ltac stopped H :=
  first [ injection H as <- <- | cbv [ret fail panic] in H; injection H as <- <- ].

(** A run that cannot have stopped here: its result is not the one at
    hand. *)
Ltac impossible H := cbv [ret fail panic] in H; discriminate H.

(** * Properties *)

(** ** Rounding to significant digits *)

Module sig_facts.

Import sig.

Lemma ilog_fuel_spec (B : Z) (fuel : nat) :
  2 <= B -> forall n, 1 <= n -> n < 2 ^ Z.of_nat fuel ->
  0 <= ilog_fuel fuel B n
  /\ B ^ ilog_fuel fuel B n <= n < B ^ (ilog_fuel fuel B n + 1).
Proof.
  intros HB. induction fuel as [|f IH]; intros n Hn Hlt.
  - simpl in Hlt. lia.
  - cbn [ilog_fuel]. destruct (Z.ltb_spec n B) as [Hs|Hs].
    + simpl. rewrite Z.pow_1_r. lia.
    + assert (Hq1 : 1 <= n / B) by (apply Z.div_le_lower_bound; lia).
      assert (Hq2 : n / B < 2 ^ Z.of_nat f).
      { apply Z.div_lt_upper_bound; [lia|].
        rewrite Nat2Z.inj_succ, Z.pow_succ_r in Hlt by lia.
        assert (0 < 2 ^ Z.of_nat f) by (apply Z.pow_pos_nonneg; lia). nia. }
      destruct (IH _ Hq1 Hq2) as (H0 & Hlo & Hhi).
      set (k := ilog_fuel f B (n / B)) in *.
      pose proof (Z.div_mod n B ltac:(lia)) as Hdm.
      pose proof (Z.mod_pos_bound n B ltac:(lia)) as Hmb.
      replace (1 + k + 1) with (Z.succ (k + 1)) by lia.
      replace (1 + k) with (Z.succ k) by lia.
      rewrite !Z.pow_succ_r by lia.
      split; [lia|]. split; nia.
Qed.

Lemma ilogZ_spec (B n : Z) :
  2 <= B -> 1 <= n ->
  0 <= ilogZ B n /\ B ^ ilogZ B n <= n < B ^ (ilogZ B n + 1).
Proof.
  intros HB Hn. unfold ilogZ. apply ilog_fuel_spec; try lia.
  rewrite Nat2Z.inj_succ, Z2Nat.id by apply Z.log2_nonneg.
  apply Z.log2_spec. lia.
Qed.

Local Open Scope Q_scope.

Lemma inject_Z_pos (z : Z) : (0 < z)%Z -> 0 < inject_Z z.
Proof. intros H. rewrite Zlt_Qlt in H. exact H. Qed.

Lemma Bpow_pos (B e : Z) : (0 < B)%Z -> 0 < Bpow B e.
Proof. intros H. apply Qpower_0_lt, inject_Z_pos, H. Qed.

Lemma Bpow_add (B a b : Z) :
  (0 < B)%Z -> Bpow B (a + b) == Bpow B a * Bpow B b.
Proof.
  intros H. apply Qpower_plus. intros E.
  pose proof (inject_Z_pos B H) as HB. rewrite E in HB. inversion HB.
Qed.

Lemma Bpow_Z (B e : Z) : (0 <= e)%Z -> Bpow B e == inject_Z (B ^ e).
Proof. intros H. unfold Bpow. rewrite Zpower_Qpower by exact H. reflexivity. Qed.

Lemma Bpow_cancel (B e : Z) : (0 < B)%Z -> Bpow B e * Bpow B (- e) == 1.
Proof.
  intros H. rewrite <- Bpow_add by exact H. rewrite Z.add_opp_diag_r. reflexivity.
Qed.

Lemma num_den (a : Q) : a * inject_Z (Zpos (Qden a)) == inject_Z (Qnum a).
Proof. destruct a as [n d]. unfold Qeq, inject_Z. simpl. lia. Qed.

Lemma Qnum_pos (a : Q) : 0 < a -> (1 <= Qnum a)%Z.
Proof. destruct a as [n d]. unfold Qlt. simpl. lia. Qed.

(** The two brackets of the floor logarithm. *)
Lemma Qilog_spec (B : Z) (a : Q) :
  (2 <= B)%Z -> 0 < a ->
  Bpow B (Qilog B a) <= a /\ a < Bpow B (Qilog B a + 1).
Proof.
  intros HB Ha. unfold Qilog.
  pose proof (Qnum_pos a Ha) as Hn.
  destruct (ilogZ_spec B (Qnum a) HB Hn) as (Hn0 & Hnl & Hnu).
  destruct (ilogZ_spec B (Zpos (Qden a)) HB ltac:(lia)) as (Hd0 & Hdl & Hdu).
  set (ln := ilogZ B (Qnum a)) in *. set (ld := ilogZ B (Zpos (Qden a))) in *.
  pose proof (num_den a) as Ea.
  assert (HB0 : (0 < B)%Z) by lia.
  rewrite Zle_Qle in Hnl, Hdl. rewrite Zlt_Qlt in Hnu, Hdu.
  rewrite <- !Bpow_Z in Hnl, Hnu, Hdl, Hdu by lia.
  assert (HD : 0 < inject_Z (Zpos (Qden a))) by (apply inject_Z_pos; lia).
  set (D := inject_Z (Zpos (Qden a))) in *. set (N := inject_Z (Qnum a)) in *.
  destruct (Qle_bool (Bpow B (ln - ld)) a) eqn:Hc.
  - apply Qle_bool_iff in Hc. split; [exact Hc|].
    assert (E : Bpow B (ln - ld + 1) * Bpow B ld == Bpow B (ln + 1)).
    { rewrite <- Bpow_add by lia. replace (ln - ld + 1 + ld)%Z with (ln + 1)%Z by lia.
      reflexivity. }
    pose proof (Bpow_pos B (ln - ld + 1) HB0) as HP.
    pose proof (Bpow_pos B ld HB0) as HY.
    set (P := Bpow B (ln - ld + 1)) in *. set (Y := Bpow B ld) in *.
    set (X := Bpow B (ln + 1)) in *.
    destruct (Qlt_le_dec a P) as [|Hge]; [assumption|exfalso].
    nra.
  - assert (Hlt : a < Bpow B (ln - ld)).
    { destruct (Qlt_le_dec a (Bpow B (ln - ld))) as [|Hge]; [assumption|].
      apply Qle_bool_iff in Hge. congruence. }
    replace (ln - ld - 1 + 1)%Z with (ln - ld)%Z by lia. split; [|exact Hlt].
    assert (E : Bpow B (ln - ld - 1) * Bpow B (ld + 1) == Bpow B ln).
    { rewrite <- Bpow_add by lia. replace (ln - ld - 1 + (ld + 1))%Z with ln by lia.
      reflexivity. }
    pose proof (Bpow_pos B (ln - ld - 1) HB0) as HP.
    pose proof (Bpow_pos B (ld + 1) HB0) as HY.
    set (P := Bpow B (ln - ld - 1)) in *. set (Y := Bpow B (ld + 1)) in *.
    set (X := Bpow B ln) in *.
    destruct (Qlt_le_dec a P) as [Hl|]; [exfalso|assumption].
    nra.
Qed.

(** The nearest integer is at most one half away. *)
Lemma rne_spec (q : Q) :
  inject_Z (rne q) - (1 # 2) <= q <= inject_Z (rne q) + (1 # 2).
Proof.
  unfold rne. pose proof (Qfloor_le q) as Hl. pose proof (Qlt_floor q) as Hu.
  rewrite inject_Z_plus in Hu. change (inject_Z 1) with 1 in Hu.
  set (f := Qfloor q) in *.
  destruct (Qcompare_spec (q - inject_Z f) (1 # 2)) as [E|E|E].
  - destruct (Z.even f); [|rewrite inject_Z_plus; change (inject_Z 1) with 1]; lra.
  - lra.
  - rewrite inject_Z_plus; change (inject_Z 1) with 1. lra.
Qed.

Lemma Qsgn_abs (x : Q) : Qsgn x * Qabs x == x.
Proof.
  destruct x as [n d]. unfold Qsgn, Qabs, Qeq, Qmult, inject_Z. simpl.
  destruct n; simpl; lia.
Qed.

Lemma Qabs_pos_of_nonzero (x : Q) : ~ x == 0 -> 0 < Qabs x.
Proof.
  intros H. destruct (Qlt_le_dec 0 (Qabs x)) as [|Hle]; [assumption|].
  exfalso. apply H. pose proof (Qabs_nonneg x) as H0.
  apply Qabs_Qle_condition in Hle. lra.
Qed.

Lemma close_refl (e x : Q) : 0 <= e -> close e x x.
Proof. intros He. exists 1. split; [ring | lra]. Qed.

Lemma close_weaken (e e' x y : Q) : e <= e' -> close e x y -> close e' x y.
Proof. intros He (r & E & H). exists r. split; [exact E | lra]. Qed.

Lemma close_trans (e1 e2 x y z : Q) :
  0 <= e1 -> 0 <= e2 -> e1 <= 1 ->
  close e1 x y -> close e2 y z -> close (e1 + e2 + e1 * e2) x z.
Proof.
  intros H1 H2 H1' (r1 & E1 & B1) (r2 & E2 & B2). exists (r1 * r2). split.
  - rewrite E2, E1. ring.
  - split; nra.
Qed.

Lemma close_div (e x x' t t' : Q) :
  0 <= e -> e < 1 -> ~ t == 0 ->
  close e x x' -> close e t t' -> close (2 * e / (1 - e)) (x / t) (x' / t').
Proof.
  intros H0 H1 Ht (r1 & E1 & B1) (r2 & E2 & B2).
  assert (Hr2 : 0 < r2) by lra.
  exists (r1 / r2). split.
  - rewrite E1, E2. field. split; [lra | exact Ht].
  - assert (Hd : 0 < 1 - e) by lra.
    assert (Eq : 2 * e / (1 - e) * (1 - e) == 2 * e) by (field; lra).
    set (k := 2 * e / (1 - e)) in *.
    assert (Hk : 0 <= k).
    { apply Qle_shift_div_l; [exact Hd | lra]. }
    split.
    + apply Qle_shift_div_l; [exact Hr2 | nra].
    + apply Qle_shift_div_r; [exact Hr2 | nra].
Qed.

Lemma close_nonzero (e x y : Q) : e < 1 -> close e x y -> ~ x == 0 -> ~ y == 0.
Proof.
  intros He (r & E & B) Hx Hy. rewrite E in Hy.
  apply Qmult_integral in Hy. destruct Hy as [Hy|Hy]; [auto | lra].
Qed.

(** Rounding to [n] digits in base [B] costs a relative error of at most
    half a unit in the last digit: [B^(1-n) / 2]. *)
Lemma round_close (B n : Z) (x : Q) :
  (2 <= B)%Z -> close ((1 # 2) * Bpow B (1 - n)) x (round B n x).
Proof.
  intros HB. assert (HB0 : (0 < B)%Z) by lia.
  pose proof (Bpow_pos B (1 - n) HB0) as He.
  unfold round. destruct (Qeq_bool x 0) eqn:Hz.
  - apply Qeq_bool_eq in Hz. exists 1. split; [rewrite Hz; ring | lra].
  - apply Qeq_bool_neq in Hz. unfold digits.
    pose proof (Qabs_pos_of_nonzero x Hz) as Ha.
    destruct (Qilog_spec B (Qabs x) HB Ha) as (Hlo & _).
    set (a := Qabs x) in *. set (e := Qilog B a) in *.
    set (s := (n - 1 - e)%Z).
    pose proof (rne_spec (a * Bpow B s)) as Hm.
    set (m := inject_Z (rne (a * Bpow B s))) in *.
    pose proof (Bpow_pos B s HB0) as HPs.
    pose proof (Bpow_pos B (n - 1) HB0) as HT.
    assert (ET : Bpow B (n - 1) == Bpow B e * Bpow B s).
    { rewrite <- Bpow_add by lia. replace (e + s)%Z with (n - 1)%Z by (unfold s; lia).
      reflexivity. }
    assert (EeT : Bpow B (1 - n) * Bpow B (n - 1) == 1).
    { rewrite <- Bpow_add by lia. replace (1 - n + (n - 1))%Z with 0%Z by lia.
      reflexivity. }
    assert (Hsc : Bpow B (n - 1) <= a * Bpow B s) by (rewrite ET; nra).
    set (sc := a * Bpow B s) in *. set (T := Bpow B (n - 1)) in *.
    set (eps := Bpow B (1 - n)) in *.
    assert (Hsc0 : 0 < sc) by lra.
    exists (m / sc). split.
    + rewrite Qred_correct. unfold sc. rewrite <- (Qsgn_abs x) at 2. fold a.
      unfold Bpow. rewrite Qpower_opp. fold (Bpow B s). field.
      split; lra.
    + split.
      * apply Qle_shift_div_l; [exact Hsc0 | nra].
      * apply Qle_shift_div_r; [exact Hsc0 | nra].
Qed.

(** A rounded value is zero only if the value is. *)
Lemma round_nonzero (B n : Z) (x : Q) :
  (2 <= B)%Z -> (1 <= n)%Z -> ~ x == 0 -> ~ round B n x == 0.
Proof.
  intros HB Hn Hx.
  apply (close_nonzero ((1 # 2) * Bpow B (1 - n)) x);
    [|apply round_close; exact HB|exact Hx].
  assert (H : Bpow B (1 - n) <= 1).
  { assert (E : Bpow B (1 - n) * Bpow B (n - 1) == 1).
    { rewrite <- Bpow_add by lia. replace (1 - n + (n - 1))%Z with 0%Z by lia.
      reflexivity. }
    assert (H1 : 1 <= Bpow B (n - 1)).
    { apply Qpower_1_le; [|lia]. change 1 with (inject_Z 1).
      rewrite <- Zle_Qle. lia. }
    pose proof (Bpow_pos B (1 - n) ltac:(lia)). nra. }
  lra.
Qed.

End sig_facts.

(** ** Decimal text: what is printed parses back *)

Module text_facts.

Import text.

Local Open Scope Z_scope.

Lemma digit_cases (d : Z) :
  is_digit d ->
  d = 0 \/ d = 1 \/ d = 2 \/ d = 3 \/ d = 4 \/ d = 5 \/ d = 6 \/ d = 7 \/ d = 8 \/ d = 9.
Proof. unfold is_digit. lia. Qed.

Lemma digit_of_digit_char (d : Z) : is_digit d -> digit_of_char (digit_char d) = Some d.
Proof.
  intros H. apply digit_cases in H.
  repeat (destruct H as [H|H]; [subst; reflexivity|]). subst. reflexivity.
Qed.

Lemma scan_sign_digit (d : Z) (s : list ascii) :
  is_digit d -> scan_sign (digit_char d :: s) = (false, digit_char d :: s).
Proof.
  intros H. apply digit_cases in H.
  repeat (destruct H as [H|H]; [subst; reflexivity|]). subst. reflexivity.
Qed.

Lemma span_digits_app (ds : list Z) (rest : list ascii) :
  Forall is_digit ds -> stops rest ->
  span_digits (map digit_char ds ++ rest) = (ds, rest).
Proof.
  intros Hds Hr. induction Hds as [|d ds Hd _ IH]; cbn [map app span_digits].
  - destruct rest as [|c r]; [reflexivity|]. cbn [span_digits stops] in *.
    rewrite Hr. reflexivity.
  - rewrite (digit_of_digit_char d Hd), IH. reflexivity.
Qed.

Lemma uvalue_snoc (ds : list Z) (d : Z) : uvalue (ds ++ [d]) = 10 * uvalue ds + d.
Proof. unfold uvalue. rewrite fold_left_app. reflexivity. Qed.

Lemma uvalue_app (ds es : list Z) :
  uvalue (ds ++ es) = uvalue ds * 10 ^ len es + uvalue es.
Proof.
  induction es as [|e es IH] using rev_ind.
  - rewrite app_nil_r. unfold len. simpl. unfold uvalue at 3. simpl. lia.
  - rewrite app_assoc, !uvalue_snoc, IH. unfold len.
    rewrite length_app, Nat2Z.inj_add. simpl length.
    rewrite Z.pow_add_r by lia. change (10 ^ Z.of_nat 1) with 10. lia.
Qed.

Lemma uvalue_zeros (n : nat) : uvalue (replicate n 0) = 0.
Proof.
  induction n as [|n IH]; [reflexivity|].
  change (replicate (S n) 0) with ([0] ++ replicate n 0).
  rewrite uvalue_app, IH. reflexivity.
Qed.

Lemma udigits_fuel_spec (fuel : nat) :
  forall n, 0 <= n < 2 ^ Z.of_nat (S fuel) ->
  Forall is_digit (udigits_fuel (S fuel) n)
  /\ uvalue (udigits_fuel (S fuel) n) = n
  /\ udigits_fuel (S fuel) n <> [].
Proof.
  assert (Hsmall : forall f n, 0 <= n -> n < 10 ->
            Forall is_digit (udigits_fuel (S f) n)
            /\ uvalue (udigits_fuel (S f) n) = n /\ udigits_fuel (S f) n <> []).
  { intros f n H0 H10. cbn [udigits_fuel].
    destruct (Z.ltb_spec n 10) as [_|]; [|lia].
    split; [|split].
    - repeat constructor; unfold is_digit; lia.
    - unfold uvalue. cbn [fold_left]. lia.
    - discriminate. }
  induction fuel as [|f IH]; intros n Hn.
  - apply Hsmall; [lia|]. change (2 ^ Z.of_nat 1) with 2 in Hn. lia.
  - destruct (Z.ltb_spec n 10) as [Hs|Hs]; [apply Hsmall; lia|].
    assert (Hq : 0 <= n / 10 < 2 ^ Z.of_nat (S f)).
    { split; [apply Z.div_pos; lia|]. apply Z.div_lt_upper_bound; [lia|].
      rewrite (Nat2Z.inj_succ (S f)), Z.pow_succ_r in Hn by lia. lia. }
    destruct (IH _ Hq) as (Hd & Hv & Hne).
    pose proof (Z.mod_pos_bound n 10 ltac:(lia)).
    change (udigits_fuel (S (S f)) n)
      with (if n <? 10 then [n] else udigits_fuel (S f) (n / 10) ++ [n mod 10]).
    destruct (Z.ltb_spec n 10) as [|_]; [lia|].
    split; [|split].
    + apply Forall_app. split; [exact Hd|]. repeat constructor; unfold is_digit; lia.
    + rewrite uvalue_snoc, Hv. pose proof (Z.div_mod n 10 ltac:(lia)). lia.
    + intros E. apply app_eq_nil in E. destruct E as [_ E]. discriminate.
Qed.

Lemma udigits_spec (n : Z) :
  0 <= n ->
  Forall is_digit (udigits n) /\ uvalue (udigits n) = n /\ udigits n <> [].
Proof.
  intros Hn. apply udigits_fuel_spec.
  rewrite Nat2Z.inj_succ, Z2Nat.id by apply Z.log2_nonneg.
  destruct (Z.eq_dec n 0) as [->|Hz]; [simpl; lia|].
  split; [lia|]. apply Z.log2_spec. lia.
Qed.

Lemma Qred_inject_Z (z : Z) : Qred (inject_Z z) = inject_Z z.
Proof.
  unfold Qred, inject_Z.
  pose proof (Z.ggcd_gcd z 1) as Hg.
  pose proof (Z.ggcd_correct_divisors z 1) as Hd.
  destruct (Z.ggcd z 1) as (g, (aa, bb)). simpl in *.
  rewrite Z.gcd_1_r in Hg. subst g. destruct Hd as [Ha Hb].
  rewrite Z.mul_1_l in Ha, Hb. subst. reflexivity.
Qed.

(** An integer printed by [itoa] is read back by the float parser as that
    integer, and by the integer parser as well. *)
Lemma parse_float_itoa (z : Z) : parse_float (itoa z) = Some (inject_Z z).
Proof.
  destruct (udigits_spec (Z.abs z) ltac:(lia)) as (Hd & Hv & Hne).
  unfold itoa, parse_float.
  destruct (udigits (Z.abs z)) as [|d ds] eqn:E; [congruence|].
  assert (Hd0 : is_digit d) by (inversion Hd; assumption).
  assert (Hspan : span_digits (map digit_char (d :: ds)) = (d :: ds, [])).
  { rewrite <- (app_nil_r (map _ _)). apply span_digits_app; [exact Hd | exact I]. }
  assert (Hq : forall m, Qred (inject_Z m * sig.Bpow 10 (- 0)) = inject_Z m).
  { intros m. transitivity (Qred (inject_Z m)); [|apply Qred_inject_Z].
    apply Qred_complete. change (sig.Bpow 10 (- 0)) with 1%Q. apply Qmult_1_r. }
  destruct (Z.ltb_spec z 0) as [Hneg|Hpos].
  - change (["-"%char] ++ map digit_char (d :: ds))
      with ("-"%char :: map digit_char (d :: ds)).
    change (scan_sign ("-"%char :: map digit_char (d :: ds)))
      with (true, map digit_char (d :: ds)).
    cbv beta iota. rewrite Hspan. cbv beta iota.
    rewrite app_nil_r. change (len []) with 0. simpl length.
    unfold signed. rewrite Hv, Hq. f_equal. f_equal. lia.
  - change ([] ++ map digit_char (d :: ds)) with (digit_char d :: map digit_char ds).
    rewrite (scan_sign_digit d _ Hd0). cbv beta iota.
    change (digit_char d :: map digit_char ds) with (map digit_char (d :: ds)).
    rewrite Hspan. cbv beta iota.
    rewrite app_nil_r. simpl length.
    unfold signed. rewrite Hv, Hq. f_equal. f_equal. lia.
Qed.

Lemma parse_int_itoa (z : Z) : parse_int (itoa z) = Some z.
Proof.
  destruct (udigits_spec (Z.abs z) ltac:(lia)) as (Hd & Hv & Hne).
  unfold itoa, parse_int.
  destruct (udigits (Z.abs z)) as [|d ds] eqn:E; [congruence|].
  assert (Hd0 : is_digit d) by (inversion Hd; assumption).
  assert (Hspan : span_digits (map digit_char (d :: ds)) = (d :: ds, [])).
  { rewrite <- (app_nil_r (map _ _)). apply span_digits_app; [exact Hd | exact I]. }
  destruct (Z.ltb_spec z 0) as [Hneg|Hpos].
  - change (["-"%char] ++ map digit_char (d :: ds))
      with ("-"%char :: map digit_char (d :: ds)).
    change (scan_sign ("-"%char :: map digit_char (d :: ds)))
      with (true, map digit_char (d :: ds)).
    cbv beta iota. rewrite Hspan. unfold signed. rewrite Hv. f_equal. lia.
  - change ([] ++ map digit_char (d :: ds)) with (digit_char d :: map digit_char ds).
    rewrite (scan_sign_digit d _ Hd0). cbv beta iota.
    change (digit_char d :: map digit_char ds) with (map digit_char (d :: ds)).
    rewrite Hspan. unfold signed. rewrite Hv. f_equal. lia.
Qed.

(** *** The shape of a parsed number *)

Lemma stops_frac_exp (dot : bool) (fp : list Z) (tail : list ascii) :
  stops tail -> (tail = [] \/ exists r, tail = "e"%char :: r) ->
  stops (frac_text dot fp ++ tail).
Proof.
  intros Hs _. destruct dot; [reflexivity | exact Hs].
Qed.

Lemma scan_sign_text (neg : bool) (d : Z) (s : list ascii) :
  is_digit d ->
  scan_sign (sign_text neg ++ digit_char d :: s) = (neg, digit_char d :: s).
Proof.
  intros Hd. destruct neg; [reflexivity|]. apply scan_sign_digit, Hd.
Qed.

(** The integer and fraction digits of a text, and what comes after. *)
Lemma scan_mantissa (ip fp : list Z) (dot : bool) (tail : list ascii) :
  Forall is_digit ip -> Forall is_digit fp -> (dot = false -> fp = []) ->
  tail = [] \/ (exists r, tail = "e"%char :: r) ->
  let '(ip', s2) := span_digits (map digit_char ip ++ frac_text dot fp ++ tail) in
  ip' = ip
  /\ match s2 with
     | c :: r => if Ascii.eqb c "." then span_digits r else ([], s2)
     | [] => ([], s2)
     end = (fp, tail).
Proof.
  intros Hip Hfp Hdot Htail.
  assert (Hst : stops tail) by (destruct Htail as [->|(r & ->)]; [exact I | reflexivity]).
  rewrite (span_digits_app ip _ Hip (stops_frac_exp dot fp tail Hst Htail)).
  split; [reflexivity|]. destruct dot; cbn [frac_text app].
  - change (Ascii.eqb "." ".") with true. cbv iota.
    apply span_digits_app; assumption.
  - rewrite (Hdot eq_refl). destruct Htail as [->|(r & ->)]; reflexivity.
Qed.

Lemma parse_float_fixed (neg dot : bool) (ip fp : list Z) :
  Forall is_digit ip -> ip <> [] -> Forall is_digit fp -> (dot = false -> fp = []) ->
  parse_float (sign_text neg ++ map digit_char ip ++ frac_text dot fp)
  = Some (Qred (inject_Z (signed neg (uvalue (ip ++ fp))) * sig.Bpow 10 (- len fp))).
Proof.
  intros Hip Hne Hfp Hdot. unfold parse_float.
  destruct ip as [|d ip']; [congruence|].
  assert (Hd : is_digit d) by (inversion Hip; assumption).
  cbn [map app]. rewrite (scan_sign_text neg d _ Hd).
  pose proof (scan_mantissa (d :: ip') fp dot [] Hip Hfp Hdot (or_introl eq_refl)) as H.
  rewrite app_nil_r in H. cbn [map app] in H.
  destruct (span_digits (digit_char d :: map digit_char ip' ++ frac_text dot fp))
    as [ip2 s2].
  destruct H as [-> ->]. cbn [app]. reflexivity.
Qed.

Lemma parse_float_exp (neg dot eneg : bool) (ip fp es : list Z) :
  Forall is_digit ip -> ip <> [] -> Forall is_digit fp -> (dot = false -> fp = []) ->
  Forall is_digit es -> es <> [] ->
  parse_float (sign_text neg ++ map digit_char ip ++ frac_text dot fp
               ++ exp_text eneg es)
  = Some (Qred (inject_Z (signed neg (uvalue (ip ++ fp)))
                * sig.Bpow 10 (signed eneg (uvalue es) - len fp))).
Proof.
  intros Hip Hne Hfp Hdot Hes Hnes. unfold parse_float.
  destruct ip as [|d ip']; [congruence|].
  assert (Hd : is_digit d) by (inversion Hip; assumption).
  cbn [map app]. rewrite (scan_sign_text neg d _ Hd).
  pose proof (scan_mantissa (d :: ip') fp dot (exp_text eneg es) Hip Hfp Hdot
                (or_intror (ex_intro _ _ eq_refl))) as H.
  cbn [map app] in H.
  destruct (span_digits (digit_char d :: map digit_char ip' ++ frac_text dot fp
                         ++ exp_text eneg es)) as [ip2 s2].
  destruct H as [-> ->]. cbn [app]. unfold exp_text.
  change (Ascii.eqb "e" "e" || Ascii.eqb "e" "E") with true. cbv iota.
  destruct es as [|e es']; [congruence|].
  assert (He : is_digit e) by (inversion Hes; assumption).
  assert (Hsg : scan_sign ((if eneg then "-"%char else "+"%char)
                           :: map digit_char (e :: es'))
                = (eneg, map digit_char (e :: es'))).
  { destruct eneg; reflexivity. }
  rewrite Hsg. rewrite <- (app_nil_r (map digit_char (e :: es'))).
  rewrite (span_digits_app (e :: es') [] Hes I). reflexivity.
Qed.

(** *** The shape of a printed number *)

Lemma map_digit_zeros (n : nat) :
  map digit_char (replicate n 0) = replicate n "0"%char.
Proof. induction n as [|n IH]; [reflexivity|]. cbn [replicate map]. rewrite IH. reflexivity. Qed.

Lemma Forall_zeros (n : nat) : Forall is_digit (replicate n 0).
Proof. induction n; constructor; [unfold is_digit; lia | assumption]. Qed.

Lemma len_replicate {A} (n : nat) (x : A) : len (replicate n x) = Z.of_nat n.
Proof. unfold len. rewrite length_replicate. reflexivity. Qed.

Lemma len_app {A} (l k : list A) : len (l ++ k) = len l + len k.
Proof. unfold len. rewrite length_app. lia. Qed.

Lemma map_seq_offset {A} (f : nat -> A) (a n : nat) :
  map f (seq a n) = map (fun i => f (a + i)%nat) (seq 0 n).
Proof.
  revert f a. induction n as [|n IH]; intros f a; [reflexivity|].
  cbn [seq map]. rewrite Nat.add_0_r. f_equal.
  rewrite (IH f (S a)), (IH (fun i => f (a + i)%nat) 1%nat).
  apply map_ext. intros i. f_equal. lia.
Qed.

Lemma map_seq_zeros (g : nat -> Z) (n : nat) :
  (forall i, (i < n)%nat -> g i = 0) -> map g (seq 0 n) = replicate n 0.
Proof.
  induction n as [|n IH]; intros Hg; [reflexivity|].
  rewrite seq_S, map_app, IH by (intros; apply Hg; lia).
  cbn [map Nat.add]. rewrite Hg by lia.
  clear. induction n; [reflexivity|]. cbn [replicate app]. f_equal. assumption.
Qed.

Lemma map_nth_seq (l : list Z) :
  map (fun i => nth i l 0) (seq 0 (length l)) = l.
Proof.
  induction l as [|x l IH]; [reflexivity|].
  cbn [length seq map nth]. f_equal.
  rewrite map_seq_offset. exact IH.
Qed.

Lemma map_nth_seq_drop (l : list Z) (j : nat) :
  map (fun i => nth (j + i) l 0) (seq 0 (length l - j)) = drop j l.
Proof.
  revert j. induction l as [|x l IH]; intros j.
  - destruct j; reflexivity.
  - destruct j as [|j].
    + cbn [drop]. rewrite Nat.sub_0_r. apply (map_nth_seq (x :: l)).
    + cbn [length drop]. rewrite Nat.sub_succ. exact (IH j).
Qed.

Lemma at_nonneg (d : decimal) (j : Z) (i : nat) :
  0 <= j -> at_ d (j + Z.of_nat i) = nth (Z.to_nat j + i) (mant d) 0.
Proof.
  intros Hj. unfold at_, len.
  destruct (Z.leb_spec 0 (j + Z.of_nat i)); [|lia].
  destruct (Z.ltb_spec (j + Z.of_nat i) (Z.of_nat (length (mant d)))); cbn [andb].
  - f_equal. lia.
  - symmetry. apply nth_overflow. lia.
Qed.

Lemma at_negative (d : decimal) (i : Z) : i < 0 -> at_ d i = 0.
Proof. intros H. unfold at_. destruct (Z.leb_spec 0 i); [lia | reflexivity]. Qed.

(** The digits after the point when the decimal point lies left of the
    mantissa, and when it lies inside it. *)
Lemma frac_digits_left (d : decimal) :
  exp d <= 0 ->
  map (fun i => at_ d (exp d + Z.of_nat i)) (seq 0 (Z.to_nat (len (mant d) - exp d)))
  = replicate (Z.to_nat (- exp d)) 0 ++ mant d.
Proof.
  intros He. unfold len.
  replace (Z.to_nat (Z.of_nat (length (mant d)) - exp d))
    with (Z.to_nat (- exp d) + length (mant d))%nat by lia.
  rewrite seq_app, map_app. f_equal.
  - apply map_seq_zeros. intros i Hi. apply at_negative. lia.
  - rewrite Nat.add_0_l, map_seq_offset.
    rewrite <- (map_nth_seq (mant d)) at 2. apply map_ext. intros i.
    replace (exp d + Z.of_nat (Z.to_nat (- exp d) + i)) with (0 + Z.of_nat i) by lia.
    rewrite at_nonneg by lia. reflexivity.
Qed.

Lemma fmtF_shape (d : decimal) :
  mant d <> [] -> Forall is_digit (mant d) ->
  exists ip fp dot,
    fmtF (Z.max (len (mant d) - exp d) 0) d = map digit_char ip ++ frac_text dot fp
    /\ Forall is_digit ip /\ ip <> [] /\ Forall is_digit fp /\ (dot = false -> fp = [])
    /\ (inject_Z (uvalue (ip ++ fp)) * sig.Bpow 10 (- len fp) == decimal_value d)%Q.
Proof.
  intros Hne Hdig.
  assert (HL : 1 <= len (mant d)).
  { unfold len. destruct (mant d); [congruence | cbn [length]; lia]. }
  unfold fmtF, decimal_value.
  destruct (Z.ltb_spec 0 (exp d)) as [Hpos|Hneg].
  - destruct (Z.lt_ge_cases (exp d) (len (mant d))) as [Hin|Hout].
    + (* the point lies inside the mantissa *)
      exists (take (Z.to_nat (exp d)) (mant d)), (drop (Z.to_nat (exp d)) (mant d)), true.
      rewrite Z.max_l, Z.min_r by lia.
      destruct (Z.ltb_spec 0 (len (mant d) - exp d)) as [_|]; [|lia].
      replace (exp d - exp d) with 0 by lia.
      assert (Hfrac : map (fun i => digit_char (at_ d (exp d + Z.of_nat i)))
                        (seq 0 (Z.to_nat (len (mant d) - exp d)))
                      = map digit_char (drop (Z.to_nat (exp d)) (mant d))).
      { rewrite <- (map_nth_seq_drop (mant d) (Z.to_nat (exp d))), map_map.
        replace (Z.to_nat (len (mant d) - exp d))
          with (length (mant d) - Z.to_nat (exp d))%nat by (unfold len; lia).
        apply map_ext. intros i. rewrite at_nonneg by lia. reflexivity. }
      rewrite Hfrac. change (zeros 0) with (@nil ascii). rewrite app_nil_r.
      split; [reflexivity|].
      rewrite <- (take_drop (Z.to_nat (exp d)) (mant d)) in Hdig.
      apply Forall_app in Hdig. destruct Hdig as [Ht Hd].
      split; [exact Ht|]. split.
      { intros E. apply (f_equal (@length Z)) in E. rewrite length_take in E.
        unfold len in *. cbn [length] in E. lia. }
      split; [exact Hd|]. split; [discriminate|].
      rewrite take_drop. unfold len. rewrite length_drop.
      replace (- Z.of_nat (length (mant d) - Z.to_nat (exp d)))
        with (exp d - Z.of_nat (length (mant d))) by (unfold len in *; lia).
      reflexivity.
    + (* the point lies right of the mantissa *)
      exists (mant d ++ replicate (Z.to_nat (exp d - len (mant d))) 0), [], false.
      rewrite Z.max_r, Z.min_l by lia. change (0 <? 0) with false. cbv iota.
      rewrite take_ge by (unfold len; lia).
      rewrite map_app, map_digit_zeros. split; [reflexivity|].
      split; [apply Forall_app; split; [exact Hdig | apply Forall_zeros]|].
      split; [intros E; apply app_eq_nil in E; destruct E; congruence|].
      split; [constructor|]. split; [reflexivity|].
      rewrite app_nil_r, uvalue_app, uvalue_zeros, len_replicate, Z.add_0_r.
      change (- len []) with 0. rewrite inject_Z_mult.
      rewrite Z2Nat.id by lia.
      rewrite <- (sig_facts.Bpow_Z 10) by lia.
      change (sig.Bpow 10 0) with 1%Q. ring.
  - (* the point lies left of the mantissa *)
    exists [0], (replicate (Z.to_nat (- exp d)) 0 ++ mant d), true.
    rewrite Z.max_l by lia.
    destruct (Z.ltb_spec 0 (len (mant d) - exp d)) as [_|]; [|lia].
    assert (Hfrac : map (fun i => digit_char (at_ d (exp d + Z.of_nat i)))
                      (seq 0 (Z.to_nat (len (mant d) - exp d)))
                    = map digit_char (replicate (Z.to_nat (- exp d)) 0 ++ mant d)).
    { rewrite <- (frac_digits_left d Hneg), map_map. reflexivity. }
    rewrite Hfrac. split; [reflexivity|].
    split; [repeat constructor; unfold is_digit; lia|].
    split; [discriminate|].
    split; [apply Forall_app; split; [apply Forall_zeros | exact Hdig]|].
    split; [discriminate|].
    change ([0] ++ ?l) with (0 :: l).
    assert (Hu : uvalue (0 :: replicate (Z.to_nat (- exp d)) 0 ++ mant d)
                 = uvalue (mant d)).
    { change (0 :: ?l) with ([0] ++ l). rewrite !uvalue_app, uvalue_zeros.
      change (uvalue [0]) with 0. lia. }
    rewrite Hu, len_app, len_replicate.
    replace (- (Z.of_nat (Z.to_nat (- exp d)) + len (mant d)))
      with (exp d - len (mant d)) by lia.
    reflexivity.
Qed.

Lemma fmtE_shape (d : decimal) :
  mant d <> [] -> Forall is_digit (mant d) ->
  exists ip fp dot eneg es,
    fmtE (len (mant d) - 1) d
    = map digit_char ip ++ frac_text dot fp ++ exp_text eneg es
    /\ Forall is_digit ip /\ ip <> [] /\ Forall is_digit fp /\ (dot = false -> fp = [])
    /\ Forall is_digit es /\ es <> []
    /\ (inject_Z (uvalue (ip ++ fp)) * sig.Bpow 10 (signed eneg (uvalue es) - len fp)
        == decimal_value d)%Q.
Proof.
  intros Hne Hdig. unfold fmtE, decimal_value.
  destruct (mant d) as [|d0 tl] eqn:Em; [congruence|].
  inversion Hdig as [|? ? Hd0 Htl]; subst.
  destruct (udigits_spec (Z.abs (exp d - 1)) ltac:(lia)) as (Hed & Hev & Hene).
  set (e := exp d - 1) in *.
  set (pad := if Z.abs e <? 10 then [0] else []).
  exists [d0], tl, (0 <? len (d0 :: tl) - 1), (e <? 0), (pad ++ udigits (Z.abs e)).
  assert (Hlen : len (d0 :: tl) = len tl + 1) by (unfold len; cbn [length]; lia).
  split.
  - cbn [map app]. f_equal. unfold exp_text.
    rewrite map_app.
    assert (Hpad : map digit_char pad = if Z.abs e <? 10 then ["0"%char] else []).
    { unfold pad. destruct (Z.abs e <? 10); reflexivity. }
    rewrite Hpad.
    destruct (Z.ltb_spec 0 (len (d0 :: tl) - 1)) as [Hdot|Hdot]; cbn [frac_text].
    + replace (len (d0 :: tl) - 1 + 1) with (len (d0 :: tl)) by lia.
      rewrite Z.min_id, Z.max_r by lia.
      replace (len (d0 :: tl) - len (d0 :: tl)) with 0 by lia.
      change (zeros 0) with (@nil ascii). rewrite app_nil_r.
      rewrite take_ge by (unfold len; lia). cbn [drop].
      rewrite <- !app_comm_cons. reflexivity.
    + cbn [app]. reflexivity.
  - split; [constructor; [exact Hd0 | constructor]|]. split; [discriminate|].
    split; [exact Htl|]. split.
    { intros Hf. destruct (Z.ltb_spec 0 (len (d0 :: tl) - 1)); [discriminate|].
      destruct tl; [reflexivity|]. unfold len in *. cbn [length] in *. lia. }
    split.
    { apply Forall_app. split; [|exact Hed].
      unfold pad. destruct (Z.abs e <? 10); constructor; [|constructor].
      unfold is_digit. lia. }
    split.
    { intros E. apply app_eq_nil in E. destruct E; congruence. }
    assert (Hes : signed (e <? 0) (uvalue (pad ++ udigits (Z.abs e))) = e).
    { rewrite uvalue_app, Hev.
      assert (Hp : uvalue pad = 0) by (unfold pad; destruct (Z.abs e <? 10); reflexivity).
      rewrite Hp. unfold signed. destruct (Z.ltb_spec e 0); lia. }
    rewrite Hes. change ([d0] ++ tl) with (d0 :: tl).
    replace (e - len tl) with (exp d - len (d0 :: tl)) by (unfold e; lia).
    reflexivity.
Qed.

Lemma inject_signed (neg : bool) (u : Z) :
  (inject_Z (signed neg u) == inject_Z (signed neg 1) * inject_Z u)%Q.
Proof.
  rewrite <- inject_Z_mult. destruct neg; cbn [signed];
    [replace (- u) with (- (1) * u) by lia | replace (1 * u) with u by lia]; reflexivity.
Qed.

(** A rounded decimal printed by [%g], with or without a sign, is read back
    as its value. *)
Lemma parse_fmtG (neg : bool) (prec : Z) (d : decimal) :
  wf_decimal prec d ->
  parse_float (sign_text neg ++ fmtG prec d)
  = Some (Qred (inject_Z (signed neg 1) * decimal_value d)).
Proof.
  intros (Hne & Hdig & Hlen). unfold fmtG.
  assert (HL : 1 <= len (mant d)).
  { unfold len. destruct (mant d); [congruence | cbn [length]; lia]. }
  destruct ((exp d - 1 <? -4)
            || ((if (len (mant d) <? prec) && (exp d <=? len (mant d))
                 then len (mant d) else prec) <=? exp d - 1)) eqn:Hbranch.
  - rewrite Z.min_r by lia.
    destruct (fmtE_shape d Hne Hdig)
      as (ip & fp & dot & eneg & es & -> & Hip & Hipne & Hfp & Hdot & Hes & Hesne & Hv).
    rewrite parse_float_exp by assumption.
    f_equal. apply Qred_complete. rewrite inject_signed, <- Hv. ring.
  - assert (Hprec : Z.max ((if exp d <? prec then len (mant d) else prec) - exp d) 0
                    = Z.max (len (mant d) - exp d) 0).
    { destruct (Z.ltb_spec (exp d) prec); lia. }
    rewrite Hprec.
    destruct (fmtF_shape d Hne Hdig)
      as (ip & fp & dot & -> & Hip & Hipne & Hfp & Hdot & Hv).
    rewrite parse_float_fixed by assumption.
    f_equal. apply Qred_complete. rewrite inject_signed, <- Hv. ring.
Qed.

(** *** From a rational to its ten digits *)

Lemma trim_leading_spec (l : list Z) :
  exists k, l = replicate k 0 ++ trim_leading l.
Proof.
  induction l as [|x l (k & IH)]; [exists 0%nat; reflexivity|].
  cbn [trim_leading]. destruct (Z.eqb_spec x 0) as [->|Hx].
  - exists (S k). cbn [replicate app]. f_equal. exact IH.
  - exists 0%nat. reflexivity.
Qed.

Lemma rev_zeros (k : nat) : rev (replicate k 0) = replicate k 0.
Proof.
  induction k as [|k IH]; [reflexivity|].
  cbn [replicate rev]. rewrite IH.
  clear. induction k; [reflexivity|]. cbn [replicate app]. f_equal. assumption.
Qed.

Lemma trim_spec (ds : list Z) : exists k, ds = trim ds ++ replicate k 0.
Proof.
  destruct (trim_leading_spec (rev ds)) as (k & E). exists k. unfold trim.
  rewrite <- (rev_involutive ds) at 1. rewrite E at 1.
  rewrite rev_app_distr, rev_zeros. reflexivity.
Qed.

Lemma udigits_fuel_length (fuel : nat) :
  forall n k, 0 <= n < 10 ^ k -> 1 <= k -> len (udigits_fuel fuel n) <= k.
Proof.
  induction fuel as [|f IH]; intros n k Hn Hk; [unfold len; cbn; lia|].
  cbn [udigits_fuel]. destruct (Z.ltb_spec n 10) as [Hs|Hs].
  - unfold len. cbn [length]. lia.
  - assert (Hk2 : 2 <= k).
    { destruct (Z.eq_dec k 1) as [->|]; [|lia]. change (10 ^ 1) with 10 in Hn. lia. }
    assert (Hq : 0 <= n / 10 < 10 ^ (k - 1)).
    { split; [apply Z.div_pos; lia|]. apply Z.div_lt_upper_bound; [lia|].
      rewrite <- Z.pow_succ_r by lia. replace (Z.succ (k - 1)) with k by lia. lia. }
    specialize (IH (n / 10) (k - 1) Hq ltac:(lia)).
    rewrite len_app. unfold len at 2. cbn [length]. lia.
Qed.

Lemma digits_bounds (B n : Z) (a : Q) :
  2 <= B -> 1 <= n -> (0 < a)%Q ->
  B ^ (n - 1) <= fst (sig.digits B n a) <= B ^ n.
Proof.
  intros HB Hn Ha. unfold sig.digits. cbn [fst].
  destruct (sig_facts.Qilog_spec B a HB Ha) as (Hlo & Hhi).
  set (e := sig.Qilog B a) in *. set (s := n - 1 - e).
  pose proof (sig_facts.rne_spec (a * sig.Bpow B s)%Q) as Hm.
  set (m := sig.rne (a * sig.Bpow B s)%Q) in *.
  assert (HB0 : 0 < B) by lia.
  pose proof (sig_facts.Bpow_pos B s HB0) as HPs.
  assert (E1 : (sig.Bpow B (n - 1) == sig.Bpow B e * sig.Bpow B s)%Q).
  { rewrite <- sig_facts.Bpow_add by lia. replace (e + s) with (n - 1) by (unfold s; lia).
    reflexivity. }
  assert (E2 : (sig.Bpow B n == sig.Bpow B (e + 1) * sig.Bpow B s)%Q).
  { rewrite <- sig_facts.Bpow_add by lia. replace (e + 1 + s) with n by (unfold s; lia).
    reflexivity. }
  rewrite sig_facts.Bpow_Z in E1, E2 by lia.
  assert (H1 : (inject_Z (B ^ (n - 1)) <= a * sig.Bpow B s)%Q) by (rewrite E1; nra).
  assert (H2 : (a * sig.Bpow B s < inject_Z (B ^ n))%Q) by (rewrite E2; nra).
  set (sc := (a * sig.Bpow B s)%Q) in *.
  split.
  - set (P := B ^ (n - 1)) in *.
    assert (H : (inject_Z (P - 1) < inject_Z m)%Q).
    { unfold Z.sub. rewrite inject_Z_plus. change (inject_Z (- (1))) with (- (1))%Q. lra. }
    rewrite <- Zlt_Qlt in H. lia.
  - assert (H : (inject_Z m < inject_Z (B ^ n + 1))%Q).
    { rewrite inject_Z_plus. change (inject_Z 1) with 1%Q. lra. }
    rewrite <- Zlt_Qlt in H. lia.
Qed.

Lemma to_decimal_spec (a : Q) :
  (0 < a)%Q ->
  wf_decimal 10 (to_decimal 10 a)
  /\ (decimal_value (to_decimal 10 a)
      == inject_Z (fst (sig.digits 10 10 a)) * sig.Bpow 10 (- snd (sig.digits 10 10 a)))%Q.
Proof.
  intros Ha. pose proof (digits_bounds 10 10 a ltac:(lia) ltac:(lia) Ha) as Hm.
  unfold to_decimal, wf_decimal, decimal_value.
  destruct (sig.digits 10 10 a) as [m s]. cbn [fst snd mant exp] in *.
  change (10 ^ (10 - 1)) with 1000000000 in Hm.
  change (10 ^ 10) with 10000000000 in Hm.
  destruct (udigits_spec m ltac:(lia)) as (Hdig & Hval & Hne).
  destruct (trim_spec (udigits m)) as (k & Ek).
  set (t := trim (udigits m)) in *.
  assert (Hut : uvalue t * 10 ^ Z.of_nat k = m).
  { rewrite <- Hval, Ek at 1. rewrite uvalue_app, uvalue_zeros, len_replicate. lia. }
  assert (Hlen : len (udigits m) = len t + Z.of_nat k).
  { rewrite Ek at 1. rewrite len_app, len_replicate. reflexivity. }
  split; [split; [|split]|].
  - intros E. rewrite E in Hut. change (uvalue []) with 0 in Hut. lia.
  - rewrite Ek in Hdig. apply Forall_app in Hdig. apply Hdig.
  - destruct (Z.eq_dec m 10000000000) as [->|Hlt].
    + unfold t. vm_compute. discriminate.
    + pose proof (udigits_fuel_length (S (Z.to_nat (Z.log2 m))) m 10
                    ltac:(change (10 ^ 10) with 10000000000; lia) ltac:(lia)) as Hl.
      fold (udigits m) in Hl. unfold len in *. lia.
  - rewrite Hlen, <- Hut, inject_Z_mult.
    replace (len t + Z.of_nat k - s - len t) with (Z.of_nat k + - s) by lia.
    rewrite sig_facts.Bpow_add by lia.
    rewrite (sig_facts.Bpow_Z 10 (Z.of_nat k)) by lia. ring.
Qed.

End text_facts.

(** ** What [big.Float] prints and reads *)

Module big_facts.

Lemma sgn_signed (x : Q) :
  ~ (x == 0)%Q -> text.signed (Qnum x <? 0) 1 = Z.sgn (Qnum x).
Proof.
  intros Hx. destruct x as [n d]. cbn [Qnum].
  destruct n; [exfalso; apply Hx; reflexivity | reflexivity | reflexivity].
Qed.

(** The text of a float reads back as its value rounded to ten decimal
    digits. *)
Lemma parse_String (x : big.Float) :
  text.parse_float (list_ascii_of_string (big.String x))
  = Some (sig.round 10 10 (big.val x)).
Proof.
  unfold big.String, sig.round. rewrite list_ascii_of_string_of_list_ascii.
  destruct (Qeq_bool (big.val x) 0) eqn:Hz; [reflexivity|].
  apply Qeq_bool_neq in Hz.
  pose proof (sig_facts.Qabs_pos_of_nonzero _ Hz) as Ha.
  destruct (text_facts.to_decimal_spec _ Ha) as (Hwf & Hv).
  change (if Qnum (big.val x) <? 0 then ["-"%char] else [])
    with (text.sign_text (Qnum (big.val x) <? 0)).
  rewrite (text_facts.parse_fmtG _ 10 _ Hwf).
  destruct (sig.digits 10 10 (Qabs (big.val x))) as [m s]. cbn [fst snd] in Hv.
  f_equal. apply Qred_complete. rewrite Hv, (sgn_signed _ Hz). reflexivity.
Qed.

End big_facts.

(** ** The three calculations of [util] *)

Module util_facts.

Import util.

Lemma SetString_amount (z : Z) :
  big.SetString big.new (types.String (types.mkAmount (Some z)))
  = Some (big.mkFloat 64 (sig.round 2 64 (inject_Z z))).
Proof.
  unfold big.SetString, types.String, big.Int_String. cbn [types.Int].
  rewrite list_ascii_of_string_of_list_ascii, text_facts.parse_float_itoa.
  reflexivity.
Qed.

Lemma SetString_nil :
  big.SetString big.new (types.String (types.mkAmount None)) = None.
Proof. reflexivity. Qed.

Lemma SetString_String (x : big.Float) :
  big.SetString big.new (big.String x)
  = Some (big.mkFloat 64 (sig.round 2 64 (sig.round 10 10 (big.val x)))).
Proof. unfold big.SetString. rewrite big_facts.parse_String. reflexivity. Qed.

(** An amount parses as a number exactly when it holds one. *)
Lemma parsable_iff_present (a : types.Amount) :
  big.SetString big.new (types.String a) = None <-> types.Int a = None.
Proof.
  destruct a as [[z|]]; cbn [types.Int].
  - rewrite SetString_amount. split; discriminate.
  - rewrite SetString_nil. split; reflexivity.
Qed.

Lemma NewAmount_Int_String (z : Z) :
  types.NewAmount (big.Int_String z) = types.mkAmount (Some z).
Proof.
  unfold types.NewAmount, big.Int_String.
  rewrite list_ascii_of_string_of_list_ascii, text_facts.parse_int_itoa. reflexivity.
Qed.

Lemma hundred_nonzero : Qeq_bool (big.val (big.NewFloat 100)) 0 = false.
Proof. reflexivity. Qed.

Lemma CalculateValidatorReward_run (z : Z) (fee : types.Percentage) (l : loc)
    (f : big.Float) (h : heap) :
  types.Float fee = Some l -> h !! l = Some f ->
  CalculateValidatorReward (types.mkAmount (Some z)) fee h
  = (Val (types.NewAmount
            (big.String
               (let vr := big.mkFloat 64 (sig.round 2 64 (inject_Z z)) in
                big.Mul vr vr (validator_fee_after f)))),
     <[l := validator_fee_after f]> h).
Proof.
  intros Hfee Hl. unfold CalculateValidatorReward.
  rewrite SetString_amount, Hfee.
  pose proof (lookup_lt_Some _ _ _ Hl) as Hlt.
  unfold bind, load, quo, store, big.Quo. rewrite Hl, hundred_nonzero.
  cbv beta iota delta [ret]. destruct (decide (l < length h)%nat) as [_|]; [|lia].
  cbv beta iota. rewrite list_lookup_insert_eq by exact Hlt. reflexivity.
Qed.

Lemma CalculateDelegatorReward_run (weight : big.Float) (z : Z)
    (fee : types.Percentage) (l : loc) (f : big.Float) (h : heap) :
  types.Float fee = Some l -> h !! l = Some f ->
  CalculateDelegatorReward weight (types.mkAmount (Some z)) fee h
  = (Val (types.NewAmount
            (big.String
               (let br := big.mkFloat 64 (sig.round 2 64 (inject_Z z)) in
                big.Mul big.new (big.Mul br br (delegator_fee_after f)) weight))),
     <[l := delegator_fee_after f]> h).
Proof.
  intros Hfee Hl. unfold CalculateDelegatorReward.
  rewrite SetString_amount, Hfee.
  pose proof (lookup_lt_Some _ _ _ Hl) as Hlt.
  unfold bind, load, quo, store, big.Quo. rewrite Hl, hundred_nonzero.
  cbv beta iota delta [ret]. destruct (decide (l < length h)%nat) as [_|]; [|lia].
  cbv beta iota. rewrite list_lookup_insert_eq by exact Hlt. reflexivity.
Qed.

Lemma Int64_nonzero (t : Z) : big.Int64 t <> 0 -> t <> 0.
Proof. intros H ->. apply H. reflexivity. Qed.

Lemma inject_Z_nonzero (t : Z) : t <> 0 -> ~ (inject_Z t == 0)%Q.
Proof. intros Ht E. apply Ht. unfold Qeq, inject_Z in E. cbn in E. lia. Qed.

(** What [CalculateWeight] does, case by case. *)
Lemma CalculateWeight_no_balance (total : types.Amount) (h : heap) :
  CalculateWeight (types.mkAmount None) total h
  = (Err (errors.New "error with balance amount"), h).
Proof. reflexivity. Qed.

Lemma CalculateWeight_no_total (b : Z) (h : heap) :
  CalculateWeight (types.mkAmount (Some b)) (types.mkAmount None) h = (Panic, h).
Proof. unfold CalculateWeight. rewrite SetString_amount. reflexivity. Qed.

Lemma CalculateWeight_zero_total (b t : Z) (h : heap) :
  big.Int64 t = 0 ->
  CalculateWeight (types.mkAmount (Some b)) (types.mkAmount (Some t)) h
  = (Err (errors.New "total staked amount can not be zero"), h).
Proof.
  intros Ht. unfold CalculateWeight. rewrite SetString_amount.
  unfold bind, types.Int64. cbn [types.Int ret]. rewrite Ht. reflexivity.
Qed.

Lemma CalculateWeight_run (b t : Z) (h : heap) :
  big.Int64 t <> 0 ->
  CalculateWeight (types.mkAmount (Some b)) (types.mkAmount (Some t)) h
  = (Val (types.mkPercentage (Some (length h))), h ++ [weight_of b t]).
Proof.
  intros Ht. unfold CalculateWeight. rewrite !SetString_amount.
  unfold bind at 1. unfold types.Int64. cbn [types.Int ret].
  destruct (Z.eqb_spec (big.Int64 t) 0) as [|_]; [contradiction|].
  unfold quo, big.Quo. cbn [big.val].
  assert (Hnz : Qeq_bool (sig.round 2 64 (inject_Z t)) 0 = false).
  { destruct (Qeq_bool (sig.round 2 64 (inject_Z t)) 0) eqn:E; [|reflexivity].
    apply Qeq_bool_eq in E. exfalso. revert E.
    apply sig_facts.round_nonzero; [lia | lia |].
    apply inject_Z_nonzero, Int64_nonzero, Ht. }
  rewrite Hnz. unfold bind, ret, types.NewPercentage.
  rewrite SetString_String. reflexivity.
Qed.

End util_facts.

Section Calculations.

Import util scenario.

(** C7. The zero test of CalculateWeight reads the total through Int64,
    which keeps the low 64 bits: with a total staked amount of 2^64, which is
    not zero, the call returns "total staked amount can not be zero" for a
    balance of 1, where the claim has it succeed. *)
Theorem weight_fails_on_nonzero_total :
  2 ^ 64 <> 0
  /\ forall h : heap,
       CalculateWeight (amount 1) (amount (2 ^ 64)) h
       = (Err (errors.New "total staked amount can not be zero"), h).
Proof.
  split; [discriminate|]. intros h.
  apply util_facts.CalculateWeight_zero_total. reflexivity.
Qed.

(** C8, as the code has it.  For a balance and a total staked amount whose
    Int64 is not zero, CalculateWeight succeeds; the weight it returns is a
    fresh float of 64 bits that agrees with the exact quotient to a relative
    error of at most 1e-9: the quotient is taken at 64 bits of the operands
    read at 64 bits, and goes through a text of ten significant digits. *)
Theorem weight_is_quotient_to_nine_digits (b t : Z) (h : heap) :
  big.Int64 t <> 0 ->
  exists w : big.Float,
    CalculateWeight (amount b) (amount t) h
    = (Val (types.mkPercentage (Some (length h))), h ++ [w])
    /\ big.prec w = 64
    /\ close (1 # 1000000000) (inject_Z b / inject_Z t) (big.val w).
Proof.
  intros Ht. exists (weight_of b t).
  split; [apply util_facts.CalculateWeight_run, Ht|]. split; [reflexivity|].
  unfold weight_of. cbn [big.val].
  set (beta := ((1 # 2) * sig.Bpow 2 (1 - 64))%Q).
  set (delta := ((1 # 2) * sig.Bpow 10 (1 - 10))%Q).
  set (wq := sig.round 2 64 (inject_Z b)). set (tq := sig.round 2 64 (inject_Z t)).
  set (q := sig.round 2 64 (wq / tq)). set (s := sig.round 10 10 q).
  assert (H1 : close beta (inject_Z b) wq) by (apply sig_facts.round_close; lia).
  assert (H2 : close beta (inject_Z t) tq) by (apply sig_facts.round_close; lia).
  assert (H4 : close beta (wq / tq) q) by (apply sig_facts.round_close; lia).
  assert (H5 : close delta q s) by (apply sig_facts.round_close; lia).
  assert (H6 : close beta s (sig.round 2 64 s)) by (apply sig_facts.round_close; lia).
  assert (Hnz : ~ (inject_Z t == 0)%Q)
    by (apply util_facts.inject_Z_nonzero, util_facts.Int64_nonzero, Ht).
  set (e3 := (2 * beta / (1 - beta))%Q).
  assert (H3 : close e3 (inject_Z b / inject_Z t) (wq / tq)).
  { apply sig_facts.close_div; [qcmp | qcmp | exact Hnz | exact H1 | exact H2]. }
  set (e4 := (e3 + beta + e3 * beta)%Q).
  assert (T1 : close e4 (inject_Z b / inject_Z t) q).
  { apply (sig_facts.close_trans e3 beta _ (wq / tq) _);
      [qcmp | qcmp | qcmp | exact H3 | exact H4]. }
  set (e5 := (e4 + delta + e4 * delta)%Q).
  assert (T2 : close e5 (inject_Z b / inject_Z t) s).
  { apply (sig_facts.close_trans e4 delta _ q _);
      [qcmp | qcmp | qcmp | exact T1 | exact H5]. }
  set (e6 := (e5 + beta + e5 * beta)%Q).
  assert (T3 : close e6 (inject_Z b / inject_Z t) (sig.round 2 64 s)).
  { apply (sig_facts.close_trans e5 beta _ s _);
      [qcmp | qcmp | qcmp | exact T2 | exact H6]. }
  apply (sig_facts.close_weaken e6); [qcmp | exact T3].
Qed.

(** With a block reward that holds a number and no float behind the fee
    pointer, both calculations panic where they follow the pointer. *)
Lemma reward_calls_without_fee (weight : big.Float) (z : Z)
    (fee : types.Percentage) (h : heap) :
  fee_at h fee = None ->
  CalculateValidatorReward (types.mkAmount (Some z)) fee h = (Panic, h)
  /\ CalculateDelegatorReward weight (types.mkAmount (Some z)) fee h = (Panic, h).
Proof.
  unfold fee_at. intros Hf. unfold CalculateValidatorReward, CalculateDelegatorReward.
  rewrite util_facts.SetString_amount. unfold bind, load.
  destruct (types.Float fee) as [l|]; [rewrite Hf|]; split; reflexivity.
Qed.

(** C9, as the code has it.  For every block reward, fee, weight and heap:
    either calculation returns an error exactly when the block reward does
    not parse as a number, and then it is its own first error, with the heap
    as it was, never an amount.  A block reward that parses makes both
    return an amount when there is a float behind the fee pointer, whatever
    that float and the weight are; when there is none, the pointer being
    nil, both panic.  (The second [!ok] test of either function reads the
    flag of the first and never fires.) *)
Theorem rewards_fail_exactly_on_unparsable_block_reward
    (weight : big.Float) (blockReward : types.Amount) (fee : types.Percentage)
    (h : heap) :
  ((exists e, fst (CalculateValidatorReward blockReward fee h) = Err e)
   <-> big.SetString big.new (types.String blockReward) = None)
  /\ ((exists e, fst (CalculateDelegatorReward weight blockReward fee h) = Err e)
      <-> big.SetString big.new (types.String blockReward) = None)
  /\ (big.SetString big.new (types.String blockReward) = None ->
      CalculateValidatorReward blockReward fee h
      = (Err (errors.New "error with block reward amount"), h)
      /\ CalculateDelegatorReward weight blockReward fee h
         = (Err (errors.New "error with stake amount"), h))
  /\ (big.SetString big.new (types.String blockReward) <> None ->
      (forall f, fee_at h fee = Some f ->
         (exists a h', CalculateValidatorReward blockReward fee h = (Val a, h'))
         /\ (exists a h',
               CalculateDelegatorReward weight blockReward fee h = (Val a, h')))
      /\ (fee_at h fee = None ->
          CalculateValidatorReward blockReward fee h = (Panic, h)
          /\ CalculateDelegatorReward weight blockReward fee h = (Panic, h))).
Proof.
  destruct blockReward as [[z|]].
  - assert (Hp : big.SetString big.new (types.String (types.mkAmount (Some z)))
                 <> None)
      by (rewrite util_facts.SetString_amount; discriminate).
    destruct (fee_at h fee) as [f|] eqn:Hf.
    + assert (Hv : exists l, types.Float fee = Some l /\ h !! l = Some f).
      { unfold fee_at in Hf. destruct (types.Float fee) as [l|]; [|discriminate].
        exists l. split; [reflexivity | exact Hf]. }
      destruct Hv as (l & Hl & Hcell).
      pose proof (util_facts.CalculateValidatorReward_run z fee l f h Hl Hcell) as EV.
      pose proof (util_facts.CalculateDelegatorReward_run weight z fee l f h Hl Hcell)
        as ED.
      split; [|split; [|split]].
      * split; [intros [e He]; rewrite EV in He; discriminate He
               | intros E; contradiction].
      * split; [intros [e He]; rewrite ED in He; discriminate He
               | intros E; contradiction].
      * intros E. contradiction.
      * intros _. split; [|intros E; discriminate E].
        intros f' _. split; eexists; eexists; eassumption.
    + destruct (reward_calls_without_fee weight z fee h Hf) as [EV ED].
      split; [|split; [|split]].
      * split; [intros [e He]; rewrite EV in He; discriminate He
               | intros E; contradiction].
      * split; [intros [e He]; rewrite ED in He; discriminate He
               | intros E; contradiction].
      * intros E. contradiction.
      * intros _. split; [intros f' E; discriminate E|].
        intros _. split; assumption.
  - split; [|split; [|split]].
    + split; [intros _; reflexivity | intros _; eexists; reflexivity].
    + split; [intros _; reflexivity | intros _; eexists; reflexivity].
    + intros _. split; reflexivity.
    + intros Hp. exfalso. apply Hp, util_facts.SetString_nil.
Qed.

(** C2. Both calculations write into the float their fee argument points
    to.  With a fee of 10 and a block reward of 100, CalculateValidatorReward
    returns 10 and leaves 0.1 as the fee, so that the same call made again
    computes 0.1; CalculateDelegatorReward with a weight of 1 returns 90 and
    leaves 0.9 as the fee, so that the same call made again computes 99.1. *)
Theorem reward_calls_overwrite_the_fee :
  let ten := big.mkFloat 64 10 in
  let one := big.mkFloat 64 1 in
  (CalculateValidatorReward (amount 100) fee [ten]
   = (Val (amount 10), [validator_fee_after ten])
   /\ CalculateValidatorReward (amount 100) fee [validator_fee_after ten]
      = (Val (types.NewAmount "0.1"),
         [validator_fee_after (validator_fee_after ten)])
   /\ types.NewAmount "0.1" <> amount 10
   /\ big.String (validator_fee_after ten) = "0.1"%string)
  /\ (CalculateDelegatorReward one (amount 100) fee [ten]
      = (Val (amount 90), [delegator_fee_after ten])
      /\ CalculateDelegatorReward one (amount 100) fee [delegator_fee_after ten]
         = (Val (types.NewAmount "99.1"),
            [delegator_fee_after (delegator_fee_after ten)])
      /\ types.NewAmount "99.1" <> amount 90
      /\ big.String (delegator_fee_after ten) = "0.9"%string).
Proof.
  cbv zeta. repeat split; try (vm_compute; reflexivity); vm_compute; discriminate.
Qed.

End Calculations.

(** C8, as claimed, fails.  The weight of 1 in 3 is the float nearest to
    0.3333333333: it is short of the quotient by more than one part in
    10^10 of it, far from fifty significant digits. *)
Lemma weight_of_a_third_has_ten_digits :
  util.CalculateWeight (scenario.amount 1) (scenario.amount 3) []
  = (Val (types.mkPercentage (Some 0%nat)),
     [big.mkFloat 64 (768614336327703217 # 2305843009213693952)])
  /\ big.String (big.mkFloat 64 (768614336327703217 # 2305843009213693952))
     = "0.3333333333"%string
  /\ ((1 # 3) * (1 # 10000000000)
      < (1 # 3) - (768614336327703217 # 2305843009213693952))%Q.
Proof.
  split; [vm_compute; reflexivity|]. split; [vm_compute; reflexivity|]. qcmp.
Qed.

(** A weight at hand for the theorems that need a total staked amount. *)
Lemma weight_is_quotient_witness :
  big.Int64 1000 <> 0
  /\ exists w : big.Float,
       util.CalculateWeight (scenario.amount 600) (scenario.amount 1000) []
       = (Val (types.mkPercentage (Some (length (@nil big.Float)))), [] ++ [w])
       /\ big.prec w = 64
       /\ close (1 # 1000000000) (inject_Z 600 / inject_Z 1000) (big.val w).
Proof.
  split; [discriminate|].
  apply (weight_is_quotient_to_nine_digits 600 1000 []). discriminate.
Defined.

(** C9, as claimed, fails.  With a block reward that parses and a fee
    whose pointer is nil, neither calculation succeeds: both panic. *)
Lemma nil_fee_with_parsable_reward_panics :
  big.SetString big.new (types.String (scenario.amount 100)) <> None
  /\ fst (util.CalculateValidatorReward (scenario.amount 100)
            (types.mkPercentage None) [big.mkFloat 64 10]) = Panic
  /\ fst (util.CalculateDelegatorReward (big.mkFloat 64 1) (scenario.amount 100)
            (types.mkPercentage None) [big.mkFloat 64 10]) = Panic.
Proof.
  split; [vm_compute; discriminate|]. split; vm_compute; reflexivity.
Qed.

(** The theorem at a block reward of 100 with the fee of the scenario, and
    at a block reward that holds no number. *)
Lemma rewards_fail_witness :
  (big.SetString big.new (types.String (scenario.amount 100)) <> None
   /\ fee_at [big.mkFloat 64 10] scenario.fee = Some (big.mkFloat 64 10)
   /\ (exists a h',
         util.CalculateValidatorReward (scenario.amount 100) scenario.fee
           [big.mkFloat 64 10] = (Val a, h'))
   /\ (exists a h',
         util.CalculateDelegatorReward (big.mkFloat 64 1) (scenario.amount 100)
           scenario.fee [big.mkFloat 64 10] = (Val a, h')))
  /\ (big.SetString big.new (types.String (types.mkAmount None)) = None
      /\ util.CalculateValidatorReward (types.mkAmount None) scenario.fee
           [big.mkFloat 64 10]
         = (Err (errors.New "error with block reward amount"), [big.mkFloat 64 10])
      /\ util.CalculateDelegatorReward (big.mkFloat 64 1) (types.mkAmount None)
           scenario.fee [big.mkFloat 64 10]
         = (Err (errors.New "error with stake amount"), [big.mkFloat 64 10])).
Proof.
  assert (Hp : big.SetString big.new (types.String (scenario.amount 100)) <> None)
    by (vm_compute; discriminate).
  split.
  - destruct (rewards_fail_exactly_on_unparsable_block_reward (big.mkFloat 64 1)
                (scenario.amount 100) scenario.fee [big.mkFloat 64 10])
      as (_ & _ & _ & H).
    destruct (H Hp) as [Hv _]. destruct (Hv _ eq_refl) as [H1 H2].
    split; [exact Hp|]. split; [reflexivity|]. split; [exact H1 | exact H2].
  - destruct (rewards_fail_exactly_on_unparsable_block_reward (big.mkFloat 64 1)
                (types.mkAmount None) scenario.fee [big.mkFloat 64 10])
      as (_ & _ & H & _).
    split; [reflexivity | exact (H eq_refl)].
Defined.

(** ** The distribution run *)

Section Orchestration.

Import model indexing.

Variable co : Collaborators.

Lemma guard_passed block :
  components_present block ->
  is_nil (Coinbase block) || is_nil (TransactionsFees block)
  || is_nil (SnarkJobsFees block) = false.
Proof. intros (-> & -> & ->). reflexivity. Qed.

(** C5. A block that lacks one of Coinbase, TransactionsFees and
    SnarkJobsFees makes RewardCalculation return nil at once: the world,
    and the imported rewards in it, are untouched, whatever the store
    holds. *)
Theorem absent_component_is_noop (db : store.Store) (block : Block) (w : World) :
  types.Int (Coinbase block) = None
  \/ types.Int (TransactionsFees block) = None
  \/ types.Int (SnarkJobsFees block) = None ->
  RewardCalculation co db block w = (Val tt, w).
Proof.
  intros H. unfold RewardCalculation, is_nil.
  destruct H as [-> | [-> | ->]]; simpl;
    repeat match goal with |- context [match ?x with Some _ => _ | None => _ end] =>
      destruct x end; reflexivity.
Qed.

(** C6, as the code has it.  With all reward components present: a fee
    lookup that brings no row, reporting nothing or NotFound, ends the run
    with the error "validator fee for epoch not found"; a fee lookup that
    reports NotFound next to a row ends it with the NotFound of the store
    instead (line 30); and once the fee is there, a ledger lookup that
    reports NotFound ends the run with nil.  The world is untouched in all
    three. *)
Theorem missing_fee_fails_missing_ledger_defers
    (db : store.Store) (block : Block) (w : World) :
  components_present block ->
  (forall err,
      store.GetValidatorEpochs db (Itoa (Epoch block)) (Creator block) = ([], err) ->
      err = None \/ err = Some ErrNotFound ->
      RewardCalculation co db block w
      = (Err (errors.New "validator fee for epoch not found"), w))
  /\ (forall ve rest,
        store.GetValidatorEpochs db (Itoa (Epoch block)) (Creator block)
        = (ve :: rest, Some ErrNotFound) ->
        RewardCalculation co db block w = (Err ErrNotFound, w))
  /\ (forall ledger,
        fee_found db block ->
        store.FindLedger db (Epoch block) = (ledger, Some ErrNotFound) ->
        RewardCalculation co db block w = (Val tt, w)).
Proof.
  intros Hc. split; [|split].
  - intros err Hfee Herr. unfold RewardCalculation.
    rewrite (guard_passed _ Hc), Hfee. destruct Herr as [-> | ->]; reflexivity.
  - intros ve rest Hfee. unfold RewardCalculation.
    rewrite (guard_passed _ Hc), Hfee. reflexivity.
  - intros ledger (ve & rest & Hfee) Hled. unfold RewardCalculation.
    rewrite (guard_passed _ Hc), Hfee, Hled. reflexivity.
Qed.

Lemma first_slot_found (db : store.Store) (block : Block) (b : Block)
    (err : option error) :
  store.FirstBlockOfEpoch db (Itoa (Epoch block)) = (Some b, err) ->
  other_error err = None ->
  first_slot_of_epoch db block = ret (Slot b).
Proof.
  intros H He. unfold first_slot_of_epoch. rewrite H.
  destruct err as [e|]; [rewrite He|]; reflexivity.
Qed.

(** A NotFound that comes with a nil block runs into the nil pointer at
    line 58. *)
Lemma first_slot_nil_panics (db : store.Store) (block : Block) (w : World) :
  store.FirstBlockOfEpoch db (Itoa (Epoch block)) = (None, Some ErrNotFound) ->
  first_slot_of_epoch db block w = (Panic, w).
Proof. intros H. unfold first_slot_of_epoch. rewrite H. reflexivity. Qed.

(** Found with no error and no block is the one hard error of the lookup. *)
Lemma first_slot_missing_fails (db : store.Store) (block : Block) (w : World) :
  store.FirstBlockOfEpoch db (Itoa (Epoch block)) = (None, None) ->
  first_slot_of_epoch db block w
  = (Err (errors.New "first block of epoch is not found"), w).
Proof. intros H. unfold first_slot_of_epoch. rewrite H. reflexivity. Qed.

(** C3, as the code has it.  A NotFound from the lookup of the first block
    of the epoch that comes with a block value is no error, whether the
    block is supercharged or not: the run goes on exactly as if the lookup
    had found that value.  For a block that is not supercharged the run does
    not depend on the value at all. *)
Theorem first_block_not_found_is_tolerated
    (db : store.Store) (block b0 : Block) (w : World) :
  store.FirstBlockOfEpoch db (Itoa (Epoch block)) = (Some b0, Some ErrNotFound) ->
  RewardCalculation co db block w
  = RewardCalculation co
      (store.with_FirstBlockOfEpoch db (fun _ => (Some b0, None))) block w
  /\ (Supercharged block = false ->
      forall b1,
        RewardCalculation co db block w
        = RewardCalculation co
            (store.with_FirstBlockOfEpoch db (fun _ => (Some b1, None))) block w).
Proof.
  intros H. split; [|intros Hsc b1]; unfold RewardCalculation;
    cbn [store.with_FirstBlockOfEpoch store.GetValidatorEpochs store.FindLedger
         store.LedgerRecords store.ImportRefused].
  - rewrite (first_slot_found db block b0 _ H eq_refl).
    rewrite (first_slot_found (store.with_FirstBlockOfEpoch db _) block b0 None
               eq_refl eq_refl).
    reflexivity.
  - rewrite (first_slot_found db block b0 _ H eq_refl).
    rewrite (first_slot_found (store.with_FirstBlockOfEpoch db _) block b1 None
               eq_refl eq_refl).
    rewrite Hsc. reflexivity.
Qed.

Lemma block_reward_present (block : Block) :
  components_present block ->
  exists z, types.Sub (types.Add (Coinbase block) (TransactionsFees block))
              (SnarkJobsFees block) = types.mkAmount (Some z).
Proof.
  intros (H1 & H2 & H3). unfold is_nil, types.Sub, types.Add in *.
  destruct (types.Int (Coinbase block)); [|discriminate].
  destruct (types.Int (TransactionsFees block)); [|discriminate].
  destruct (types.Int (SnarkJobsFees block)); [|discriminate].
  cbn [types.Int]. eexists. reflexivity.
Qed.

(** C10. With the components, the fee and the ledger there, a NotFound
    from the lookup of the ledger's records is neither an error nor a
    deferral: the run goes on exactly as if the lookup had succeeded with
    what it brought.  When it brought no record and the block is not
    supercharged, the weight pass and the split pass run on the empty set,
    the empty list of delegator rewards is imported, and the validator
    reward after it. *)
Theorem records_not_found_is_not_deferred
    (db : store.Store) (block : Block) (ledger : Ledger)
    (recs : list LedgerEntry) (w : World) :
  components_present block ->
  store.FindLedger db (Epoch block) = (Some ledger, None) ->
  store.LedgerRecords db (ID ledger) = (recs, Some ErrNotFound) ->
  RewardCalculation co db block w
  = RewardCalculation co (store.with_LedgerRecords db (fun _ => (recs, None))) block w
  /\ (forall ve rest l f b err v,
        store.GetValidatorEpochs db (Itoa (Epoch block)) (Creator block)
        = (ve :: rest, None) ->
        types.Float (ValidatorFee ve) = Some l -> mem w !! l = Some f ->
        recs = [] -> Supercharged block = false ->
        store.FirstBlockOfEpoch db (Itoa (Epoch block)) = (Some b, err) ->
        other_error err = None ->
        (forall h, CalculateWeightsNonSupercharged co (StakedAmount ledger) [] h
                   = (Val [], h)) ->
        DelegatorBlockRewards co [] block = inr [] ->
        ValidatorBlockReward co block = inr v ->
        (forall batch, store.ImportRefused db batch = None) ->
        exists reward h,
          RewardCalculation co db block w
          = (Val tt, mkWorld h (imported w ++ [[]; [set_Reward v reward]]))).
Proof.
  intros Hc Hled Hrec. split.
  - unfold RewardCalculation.
    cbn [store.with_LedgerRecords store.GetValidatorEpochs store.FindLedger
         store.FirstBlockOfEpoch store.ImportRefused].
    rewrite (guard_passed _ Hc), Hled.
    destruct (store.GetValidatorEpochs db (Itoa (Epoch block)) (Creator block))
      as [rows err].
    destruct (other_error err); [reflexivity|].
    destruct rows; [reflexivity|]. destruct err; [reflexivity|].
    cbn [other_error]. unfold bind at 1 3. cbn [deref ret]. rewrite Hrec.
    reflexivity.
  - intros ve rest l f b err v Hfee Hl Hf -> Hsc Hfirst Herr Hw Hd Hv Himp.
    destruct (block_reward_present block Hc) as (z & Hz).
    pose proof (util_facts.CalculateValidatorReward_run z (ValidatorFee ve) l f
                  (mem w) Hl Hf) as Hrun.
    eexists. eexists. unfold RewardCalculation.
    rewrite (guard_passed _ Hc), Hfee, Hled. cbn [other_error].
    unfold bind at 1. cbn [deref ret]. rewrite Hrec. cbn [other_error].
    rewrite (first_slot_found db block b err Hfirst Herr), Hsc, Hv, Hz.
    cbn [negb checked]. unfold bind at 1. cbv beta iota delta [ret].
    unfold bind at 1. unfold on_heap at 1. rewrite Hw. cbv beta iota.
    unfold bind at 1. unfold on_heap at 1.
    cbv beta iota delta [weights_by_key ret]. cbn [mem imported].
    rewrite Hd. unfold bind at 1. cbv beta iota delta [checked ret].
    unfold bind at 1. unfold on_heap at 1.
    cbv beta iota delta [delegator_rewards ret]. cbn [mem imported].
    unfold bind at 1. unfold Import at 1. rewrite Himp. cbv beta iota.
    unfold bind at 1. cbv beta iota delta [ret].
    unfold bind at 1. unfold on_heap at 1. cbn [mem imported]. rewrite Hrun.
    cbv beta iota. unfold bind at 1. unfold Import at 1. rewrite Himp.
    cbv beta iota delta [ret]. cbn [mem imported].
    rewrite <- app_assoc. reflexivity.
Qed.

(** *** What a run leaves imported *)

Lemma on_heap_inv {A} (m : M (list big.Float) A) (w w' : World) (r : outcome A) :
  on_heap m w = (r, w') -> m (mem w) = (r, mem w') /\ imported w' = imported w.
Proof.
  unfold on_heap. destruct (m (mem w)) as [r0 h]. intros E.
  injection E as <- <-. split; reflexivity.
Qed.

Lemma checked_inv {A} (x : error + A) (w w' : World) (r : outcome A) :
  checked x w = (r, w') -> w' = w /\ (forall a, r = Val a -> x = inr a).
Proof.
  destruct x as [e|a]; intros E; injection E as <- <-; split; try reflexivity;
    intros a' Ha; inversion Ha; reflexivity.
Qed.

Lemma deref_inv {A} (p : option A) (w w' : World) (r : outcome A) :
  deref p w = (r, w') -> w' = w.
Proof. destruct p; intros E; injection E as <- <-; reflexivity. Qed.

Lemma on_heap_then_imported {A B} (m : M (list big.Float) A)
    (k : A -> M (list big.Float) B) (w w' : World) (r : outcome B) :
  bind (on_heap m) (fun a => on_heap (k a)) w = (r, w') -> imported w' = imported w.
Proof.
  unfold bind. destruct (on_heap m w) as [[a|e|] w1] eqn:E;
    apply on_heap_inv in E as [_ E]; intros H.
  - apply on_heap_inv in H as [_ H]. congruence.
  - injection H as _ <-. exact E.
  - injection H as _ <-. exact E.
Qed.

Lemma first_slot_world (db : store.Store) (block : Block) (w w' : World)
    (r : outcome Z) :
  first_slot_of_epoch db block w = (r, w') -> w' = w.
Proof.
  unfold first_slot_of_epoch.
  destruct (store.FirstBlockOfEpoch db (Itoa (Epoch block))) as [[b|] [[|msg]|]];
    intros E; injection E as <- <-; reflexivity.
Qed.

Lemma Import_inv (db : store.Store) (batch : list BlockReward) (w w' : World)
    (r : outcome unit) :
  Import db batch w = (r, w') ->
  (exists e, r = Err e /\ w' = w)
  \/ (r = Val tt /\ w' = mkWorld (mem w) (imported w ++ [batch])).
Proof.
  unfold Import. destruct (store.ImportRefused db batch) as [e|]; intros E;
    injection E as <- <-; [left; eauto | right; split; reflexivity].
Qed.

Lemma Import_accepted (db : store.Store) (batch : list BlockReward) (w w' : World)
    (u : unit) :
  Import db batch w = (Val u, w') ->
  store.ImportRefused db batch = None
  /\ w' = mkWorld (mem w) (imported w ++ [batch]).
Proof.
  unfold Import. destruct (store.ImportRefused db batch) as [e|]; intros E;
    [discriminate E | injection E as _ <-; split; reflexivity].
Qed.

Lemma on_heap_bind {A B} (m : M (list big.Float) A)
    (k : A -> M (list big.Float) B) (w : World) :
  bind (on_heap m) (fun a => on_heap (k a)) w = on_heap (bind m k) w.
Proof. unfold bind, on_heap. destruct (m (mem w)) as [[a|e|] h]; reflexivity. Qed.

(** Lines 60 to 74 as the run has them are the weight pass on the heap of
    the world. *)
Lemma weight_pass_on_heap (block : Block) (staked : types.Amount)
    (records : list LedgerEntry) (slot : Z) (w : World) :
  (if negb (Supercharged block) then
     on_heap (CalculateWeightsNonSupercharged co staked records)
   else
     superchargedWeighting <- on_heap (CalculateSuperchargedWeighting co block) ;;
     on_heap (CalculateWeightsSupercharged co superchargedWeighting records slot)) w
  = on_heap (weight_pass co block staked records slot) w.
Proof.
  unfold weight_pass. destruct (negb (Supercharged block));
    [reflexivity | apply on_heap_bind].
Qed.

(** A slot comes only from a block the lookup brought. *)
Lemma first_slot_inv (db : store.Store) (block : Block) (w w' : World) (slot : Z) :
  first_slot_of_epoch db block w = (Val slot, w') ->
  exists b ferr,
    store.FirstBlockOfEpoch db (Itoa (Epoch block)) = (Some b, ferr)
    /\ other_error ferr = None /\ slot = Slot b.
Proof.
  unfold first_slot_of_epoch.
  destruct (store.FirstBlockOfEpoch db (Itoa (Epoch block))) as [[b|] [[|msg]|]];
    intros E; cbv [bind ret fail panic deref other_error] in E;
    try discriminate E; injection E as <- <-;
    eexists; eexists; (split; [reflexivity|]); split; reflexivity.
Qed.

(** What the validator stage does to the world. *)
Lemma validator_stage_inv (db : store.Store) (block : Block)
    (blockReward : types.Amount) (creatorFee : types.Percentage)
    (w1 w2 : World) (r : outcome unit) :
  validator_stage co db block blockReward creatorFee w1 = (r, w2) ->
  (r <> Val tt /\ imported w2 = imported w1)
  \/ (r = Val tt
      /\ exists v reward h',
           ValidatorBlockReward co block = inr v
           /\ util.CalculateValidatorReward blockReward creatorFee (mem w1)
              = (Val reward, h')
           /\ store.ImportRefused db [set_Reward v reward] = None
           /\ w2 = mkWorld h' (imported w1 ++ [[set_Reward v reward]])).
Proof.
  unfold validator_stage. intros H.
  bind_step H E8 vr wh.
  2, 3: stopped H; left; split;
        [discriminate | apply checked_inv in E8 as [-> _]; reflexivity].
  apply checked_inv in E8 as [-> E8]. specialize (E8 _ eq_refl).
  bind_step H E9 reward wi.
  2, 3: stopped H; left; split;
        [discriminate | apply on_heap_inv in E9 as [_ ->]; reflexivity].
  apply on_heap_inv in E9 as [E9 I5].
  bind_step H E10 u wj.
  - stopped H. apply Import_accepted in E10 as [Hacc ->]. right.
    split; [reflexivity|]. exists vr, reward, (mem wi).
    split; [exact E8|]. split; [exact E9|]. split; [exact Hacc|].
    rewrite I5. reflexivity.
  - stopped H. left. split; [discriminate|].
    apply Import_inv in E10 as [(e' & _ & ->)|[? _]]; [exact I5 | discriminate].
  - stopped H. apply Import_inv in E10 as [(e' & ? & _)|[? _]]; discriminate.
Qed.

(** A run either stops before line 99, with nothing imported, or reaches
    it with the split completed and goes on with the two imports. *)
Lemma run_split (db : store.Store) (block : Block) (w w' : World)
    (r : outcome unit) :
  RewardCalculation co db block w = (r, w') ->
  (imported w' = imported w
   /\ (r = Val tt ->
       w' = w
       /\ ((types.Int (Coinbase block) = None
            \/ types.Int (TransactionsFees block) = None
            \/ types.Int (SnarkJobsFees block) = None)
           \/ (fee_found db block
               /\ exists ledger,
                    store.FindLedger db (Epoch block)
                    = (ledger, Some ErrNotFound)))))
  \/ exists creatorFee ds h,
       split_completed co db block w creatorFee ds h
       /\ bind (Import db ds)
            (fun _ => validator_stage co db block (block_reward block) creatorFee)
            (mkWorld h (imported w))
          = (r, w').
Proof.
  intros H. unfold RewardCalculation in H.
  destruct (is_nil (Coinbase block) || is_nil (TransactionsFees block)
            || is_nil (SnarkJobsFees block)) eqn:Hg.
  { stopped H. left. split; [reflexivity|]. intros _. split; [reflexivity|].
    left. unfold is_nil in Hg.
    destruct (types.Int (Coinbase block)); [|auto].
    destruct (types.Int (TransactionsFees block)); [|auto].
    destruct (types.Int (SnarkJobsFees block)); [discriminate Hg|auto]. }
  assert (Hc : components_present block).
  { unfold components_present.
    destruct (is_nil (Coinbase block)); [discriminate Hg|].
    destruct (is_nil (TransactionsFees block)); [discriminate Hg|].
    destruct (is_nil (SnarkJobsFees block)); [discriminate Hg|].
    repeat split. }
  destruct (store.GetValidatorEpochs db (Itoa (Epoch block)) (Creator block))
    as [rows err] eqn:Hfee.
  destruct (other_error err);
    [stopped H; left; split; [reflexivity | intros Hr; discriminate Hr]|].
  destruct rows as [|ve rest];
    [stopped H; left; split; [reflexivity | intros Hr; discriminate Hr]|].
  destruct err;
    [stopped H; left; split; [reflexivity | intros Hr; discriminate Hr]|].
  destruct (store.FindLedger db (Epoch block)) as [ledger lerr] eqn:Hled.
  destruct (other_error lerr) eqn:Ho;
    [stopped H; left; split; [reflexivity | intros Hr; discriminate Hr]|].
  destruct lerr as [le|].
  { stopped H. left. split; [reflexivity|]. intros _. split; [reflexivity|].
    right. split; [exists ve, rest; exact Hfee|]. exists ledger.
    destruct le; [reflexivity | discriminate Ho]. }
  destruct ledger as [led|].
  2: { cbv [bind deref panic] in H. stopped H. left.
       split; [reflexivity | intros Hr; discriminate Hr]. }
  unfold bind at 1 in H. cbn [deref ret] in H.
  destruct (store.LedgerRecords db (ID led)) as [records rerr] eqn:Hrec.
  destruct (other_error rerr) eqn:Hre;
    [stopped H; left; split; [reflexivity | intros Hr; discriminate Hr]|].
  bind_step H E2 slot wb.
  2, 3: stopped H; left; apply first_slot_world in E2 as ->;
        split; [reflexivity | intros Hr; discriminate Hr].
  pose proof (first_slot_world _ _ _ _ _ E2) as ->.
  apply first_slot_inv in E2 as (b & ferr & Hfirst & Hferr & ->).
  unfold bind at 1 in H. cbv beta in H. rewrite weight_pass_on_heap in H.
  destruct (on_heap (weight_pass co block (StakedAmount led) records (Slot b)) w)
    as [[recs|?|] wc] eqn:E3; cbv beta iota in H.
  2, 3: stopped H; left; apply on_heap_inv in E3 as [_ ->];
        split; [reflexivity | intros Hr; discriminate Hr].
  apply on_heap_inv in E3 as [E3 I1].
  bind_step H E4 rmap wd.
  2, 3: stopped H; left; apply on_heap_inv in E4 as [_ ->];
        split; [exact I1 | intros Hr; discriminate Hr].
  apply on_heap_inv in E4 as [E4 I2].
  bind_step H E5 dbrs we.
  2, 3: stopped H; left; apply checked_inv in E5 as [-> _];
        split; [congruence | intros Hr; discriminate Hr].
  apply checked_inv in E5 as [-> E5]. specialize (E5 _ eq_refl).
  bind_step H E6 ds wf.
  2, 3: stopped H; left; apply on_heap_inv in E6 as [_ ->];
        split; [congruence | intros Hr; discriminate Hr].
  apply on_heap_inv in E6 as [E6 I3].
  right. exists (ValidatorFee ve), ds, (mem wf). split.
  - exists ve, rest, led, records, rerr, b, ferr, recs, (mem wc), rmap, (mem wd), dbrs.
    split; [exact Hc|]. split; [exact Hfee|]. split; [reflexivity|].
    split; [exact Hled|]. split; [exact Hrec|]. split; [exact Hre|].
    split; [exact Hfirst|]. split; [exact Hferr|]. split; [exact E3|].
    split; [exact E4|]. split; [exact E5 | exact E6].
  - assert (Ew : wf = mkWorld (mem wf) (imported w)).
    { destruct wf as [hf imf]. cbn [mem imported] in *. congruence. }
    rewrite <- Ew. exact H.
Qed.

(** C4, as the code has it.  A run that ends in a hard error, or in a panic,
    has imported nothing or exactly one batch: the delegator rewards.  That
    batch is the one the run itself computed, from its own lookups, its
    weight pass over the heap of the world and its loop over the delegator
    rewards with the block reward and the fee of the block; the store
    accepted it; and the failure is then that of the validator stage, which
    maps, computes and imports the validator reward after it and leaves the
    delegator rewards in the store. *)
Theorem failed_run_imports_at_most_the_delegators
    (db : store.Store) (block : Block) (w w' : World) (r : outcome unit) :
  RewardCalculation co db block w = (r, w') ->
  r <> Val tt ->
  imported w' = imported w
  \/ exists creatorFee ds h,
       split_completed co db block w creatorFee ds h
       /\ store.ImportRefused db ds = None
       /\ validator_stage co db block (block_reward block) creatorFee
            (mkWorld h (imported w ++ [ds])) = (r, w')
       /\ imported w' = imported w ++ [ds].
Proof.
  intros H Hr.
  destruct (run_split db block w w' r H) as [[I _] | (fee & ds & h & Hs & Hrun)];
    [left; exact I|].
  bind_step Hrun E7 u wg.
  - apply Import_accepted in E7 as [Hacc ->]. cbn [mem imported] in Hrun.
    destruct (validator_stage_inv _ _ _ _ _ _ _ Hrun) as [[_ I] | [-> _]];
      [|contradiction].
    right. exists fee, ds, h. split; [exact Hs|]. split; [exact Hacc|].
    split; [exact Hrun | exact I].
  - stopped Hrun. left.
    apply Import_inv in E7 as [(e' & _ & ->)|[? _]]; [reflexivity | discriminate].
  - stopped Hrun. apply Import_inv in E7 as [(e' & ? & _)|[? _]]; discriminate.
Qed.

End Orchestration.

(** ** The scenario of the specification, run *)

Section Scenario.

Import model indexing scenario.

(** C1. In the scenario of the specification (total staked 1000, A with
    600, B with 400, block reward 100, fee 10) the run succeeds and imports
    54 for A, but the amount of the text "39.64" for B and of the text
    "0.991" for the validator, where 36 and 10 are expected: every reward
    calculation overwrites the fee it is given, so B is paid from a fee of
    0.9 percent and the validator from a fee of 0.991 percent. *)
Theorem scenario_rewards_drift_with_the_fee :
  fst (RewardCalculation co db block world) = Val tt
  /\ imported (snd (RewardCalculation co db block world))
     = [ [ mkBlockReward "A" (amount 54) Delegator;
           mkBlockReward "B" (types.NewAmount "39.64") Delegator ];
         [ mkBlockReward "V" (types.NewAmount "0.991") Validator ] ]
  /\ types.NewAmount "39.64" <> amount 36
  /\ types.NewAmount "0.991" <> amount 10.
Proof.
  split; [vm_compute; reflexivity|]. split; [vm_compute; reflexivity|].
  split; vm_compute; discriminate.
Qed.

(** C3, as claimed, fails.  For a supercharged block, a lookup of the first
    block of the epoch that reports NotFound does not make the run fail:
    no error comes back. *)
Lemma supercharged_run_tolerates_missing_first_block :
  Supercharged supercharged_block = true
  /\ store.FirstBlockOfEpoch first_block_not_found (Itoa (Epoch supercharged_block))
     = (Some first_block, Some ErrNotFound)
  /\ fst (RewardCalculation supercharged_co first_block_not_found
            supercharged_block world) = Val tt.
Proof. repeat split; vm_compute; reflexivity. Qed.

(** C4, as claimed, fails.  When the store refuses the validator reward, the
    run ends in that error with the delegator rewards already imported. *)
Lemma failed_run_keeps_delegator_rewards :
  fst (RewardCalculation co refusing_validator block world)
  = Err (errors.New "import refused")
  /\ imported (snd (RewardCalculation co refusing_validator block world))
     = [ [ mkBlockReward "A" (amount 54) Delegator;
           mkBlockReward "B" (types.NewAmount "39.64") Delegator ] ].
Proof. split; vm_compute; reflexivity. Qed.

End Scenario.

(** ** The theorems at work on the scenario *)

Lemma absent_component_witness :
  (types.Int (model.Coinbase
                (model.mkBlock (types.mkAmount None) (scenario.amount 15)
                   (scenario.amount 5) 7 42 false "V")) = None
   \/ types.Int (model.TransactionsFees
                   (model.mkBlock (types.mkAmount None) (scenario.amount 15)
                      (scenario.amount 5) 7 42 false "V")) = None
   \/ types.Int (model.SnarkJobsFees
                   (model.mkBlock (types.mkAmount None) (scenario.amount 15)
                      (scenario.amount 5) 7 42 false "V")) = None)
  /\ indexing.RewardCalculation scenario.co scenario.db
       (model.mkBlock (types.mkAmount None) (scenario.amount 15)
          (scenario.amount 5) 7 42 false "V") scenario.world
     = (Val tt, scenario.world).
Proof.
  split; [left; reflexivity|].
  apply (absent_component_is_noop scenario.co scenario.db). left. reflexivity.
Defined.

(** C6, as claimed, fails.  A fee lookup that reports NotFound next to a
    row does not give the error "validator fee for epoch not found": the
    NotFound of the store comes back. *)
Lemma fee_not_found_next_to_a_row :
  components_present scenario.block
  /\ store.GetValidatorEpochs examples.fee_not_found_with_row
       (indexing.Itoa (model.Epoch scenario.block)) (model.Creator scenario.block)
     = ([model.mkValidatorEpoch scenario.fee], Some ErrNotFound)
  /\ indexing.RewardCalculation scenario.co examples.fee_not_found_with_row
       scenario.block scenario.world
     = (Err ErrNotFound, scenario.world)
  /\ Err ErrNotFound
     <> (Err (errors.New "validator fee for epoch not found") : outcome unit).
Proof.
  split; [repeat split; reflexivity|]. split; [reflexivity|].
  split; [vm_compute; reflexivity | discriminate].
Qed.

(** The theorem at three stores: the fee lookup reports NotFound with no
    row; it reports NotFound next to a row; the fee is found and the ledger
    lookup reports NotFound. *)
Lemma missing_fee_missing_ledger_witness :
  components_present scenario.block
  /\ (store.GetValidatorEpochs examples.fee_not_found
        (indexing.Itoa (model.Epoch scenario.block)) (model.Creator scenario.block)
      = ([], Some ErrNotFound)
      /\ indexing.RewardCalculation scenario.co examples.fee_not_found
           scenario.block scenario.world
         = (Err (errors.New "validator fee for epoch not found"), scenario.world))
  /\ (store.GetValidatorEpochs examples.fee_not_found_with_row
        (indexing.Itoa (model.Epoch scenario.block)) (model.Creator scenario.block)
      = ([model.mkValidatorEpoch scenario.fee], Some ErrNotFound)
      /\ indexing.RewardCalculation scenario.co examples.fee_not_found_with_row
           scenario.block scenario.world
         = (Err ErrNotFound, scenario.world))
  /\ (fee_found examples.ledger_not_found scenario.block
      /\ store.FindLedger examples.ledger_not_found (model.Epoch scenario.block)
         = (None, Some ErrNotFound)
      /\ indexing.RewardCalculation scenario.co examples.ledger_not_found
           scenario.block scenario.world
         = (Val tt, scenario.world)).
Proof.
  assert (Hc : components_present scenario.block) by (repeat split; reflexivity).
  assert (Hfee : fee_found examples.ledger_not_found scenario.block)
    by (eexists; eexists; reflexivity).
  split; [exact Hc|]. split; [|split].
  - split; [reflexivity|].
    destruct (missing_fee_fails_missing_ledger_defers scenario.co
                examples.fee_not_found scenario.block scenario.world Hc)
      as (H & _ & _).
    apply (H (Some ErrNotFound)); [reflexivity | right; reflexivity].
  - split; [reflexivity|].
    destruct (missing_fee_fails_missing_ledger_defers scenario.co
                examples.fee_not_found_with_row scenario.block scenario.world Hc)
      as (_ & H & _).
    apply (H (model.mkValidatorEpoch scenario.fee) []). reflexivity.
  - split; [exact Hfee|]. split; [reflexivity|].
    destruct (missing_fee_fails_missing_ledger_defers scenario.co
                examples.ledger_not_found scenario.block scenario.world Hc)
      as (_ & _ & H).
    apply (H None Hfee). reflexivity.
Defined.

Lemma first_block_not_found_witness :
  store.FirstBlockOfEpoch scenario.first_block_not_found
    (indexing.Itoa (model.Epoch scenario.block))
  = (Some scenario.first_block, Some ErrNotFound)
  /\ (indexing.RewardCalculation scenario.co scenario.first_block_not_found
        scenario.block scenario.world
      = indexing.RewardCalculation scenario.co
          (store.with_FirstBlockOfEpoch scenario.first_block_not_found
             (fun _ => (Some scenario.first_block, None)))
          scenario.block scenario.world
      /\ (model.Supercharged scenario.block = false ->
          forall b1,
            indexing.RewardCalculation scenario.co scenario.first_block_not_found
              scenario.block scenario.world
            = indexing.RewardCalculation scenario.co
                (store.with_FirstBlockOfEpoch scenario.first_block_not_found
                   (fun _ => (Some b1, None)))
                scenario.block scenario.world)).
Proof.
  split; [reflexivity|].
  apply (first_block_not_found_is_tolerated scenario.co
           scenario.first_block_not_found scenario.block scenario.first_block
           scenario.world).
  reflexivity.
Defined.

Lemma failed_run_witness :
  indexing.RewardCalculation scenario.co scenario.refusing_validator scenario.block
    scenario.world
  = (Err (errors.New "import refused"),
     snd (indexing.RewardCalculation scenario.co scenario.refusing_validator
            scenario.block scenario.world))
  /\ Err (errors.New "import refused") <> Val tt
  /\ (imported (snd (indexing.RewardCalculation scenario.co
                       scenario.refusing_validator scenario.block scenario.world))
      = imported scenario.world
      \/ exists creatorFee ds h,
           split_completed scenario.co scenario.refusing_validator scenario.block
             scenario.world creatorFee ds h
           /\ store.ImportRefused scenario.refusing_validator ds = None
           /\ validator_stage scenario.co scenario.refusing_validator scenario.block
                (block_reward scenario.block) creatorFee
                (mkWorld h (imported scenario.world ++ [ds]))
              = (Err (errors.New "import refused"),
                 snd (indexing.RewardCalculation scenario.co
                        scenario.refusing_validator scenario.block scenario.world))
           /\ imported (snd (indexing.RewardCalculation scenario.co
                               scenario.refusing_validator scenario.block
                               scenario.world))
              = imported scenario.world ++ [ds]).
Proof.
  split; [vm_compute; reflexivity|]. split; [discriminate|].
  apply (failed_run_imports_at_most_the_delegators scenario.co
           scenario.refusing_validator scenario.block scenario.world _
           (Err (errors.New "import refused"))).
  - vm_compute. reflexivity.
  - discriminate.
Defined.

Lemma records_not_found_witness :
  components_present scenario.block
  /\ store.FindLedger scenario.records_not_found (model.Epoch scenario.block)
     = (Some (model.mkLedger 1 (scenario.amount 1000)), None)
  /\ store.LedgerRecords scenario.records_not_found
       (model.ID (model.mkLedger 1 (scenario.amount 1000)))
     = ([], Some ErrNotFound)
  /\ (indexing.RewardCalculation scenario.co scenario.records_not_found
        scenario.block scenario.world
      = indexing.RewardCalculation scenario.co
          (store.with_LedgerRecords scenario.records_not_found (fun _ => ([], None)))
          scenario.block scenario.world
      /\ (forall ve rest l f b err v,
            store.GetValidatorEpochs scenario.records_not_found
              (indexing.Itoa (model.Epoch scenario.block))
              (model.Creator scenario.block)
            = (ve :: rest, None) ->
            types.Float (model.ValidatorFee ve) = Some l ->
            mem scenario.world !! l = Some f ->
            @nil model.LedgerEntry = [] ->
            model.Supercharged scenario.block = false ->
            store.FirstBlockOfEpoch scenario.records_not_found
              (indexing.Itoa (model.Epoch scenario.block)) = (Some b, err) ->
            indexing.other_error err = None ->
            (forall h,
                CalculateWeightsNonSupercharged scenario.co
                  (model.StakedAmount (model.mkLedger 1 (scenario.amount 1000))) [] h
                = (Val [], h)) ->
            DelegatorBlockRewards scenario.co [] scenario.block = inr [] ->
            ValidatorBlockReward scenario.co scenario.block = inr v ->
            (forall batch, store.ImportRefused scenario.records_not_found batch = None) ->
            exists reward h,
              indexing.RewardCalculation scenario.co scenario.records_not_found
                scenario.block scenario.world
              = (Val tt,
                 mkWorld h (imported scenario.world
                            ++ [[]; [model.set_Reward v reward]])))).
Proof.
  split; [repeat split; reflexivity|]. split; [reflexivity|]. split; [reflexivity|].
  apply (records_not_found_is_not_deferred scenario.co
           scenario.records_not_found scenario.block
           (model.mkLedger 1 (scenario.amount 1000)) [] scenario.world);
    [repeat split; reflexivity | reflexivity | reflexivity].
Defined.

(** On the empty record set the run of the scenario imports the empty list
    and then the validator's 10. *)
Lemma records_not_found_run :
  fst (indexing.RewardCalculation scenario.co scenario.records_not_found
         scenario.block scenario.world) = Val tt
  /\ imported (snd (indexing.RewardCalculation scenario.co
                      scenario.records_not_found scenario.block scenario.world))
     = [ []; [model.mkBlockReward "V" (scenario.amount 10) model.Validator] ].
Proof. split; vm_compute; reflexivity. Qed.

(** * Further properties *)

(** ** Rounding: representation, sign, order, exact values *)

Module round_facts.

Import sig sig_facts.

Local Open Scope Q_scope.

Lemma one_lt_base (B : Z) : (2 <= B)%Z -> 1 < inject_Z B.
Proof. intros H. change 1 with (inject_Z 1). rewrite <- Zlt_Qlt. lia. Qed.

Lemma Bpow_le (B e1 e2 : Z) :
  (2 <= B)%Z -> (e1 <= e2)%Z -> Bpow B e1 <= Bpow B e2.
Proof.
  intros HB He. apply Qpower_le_compat_l; [exact He|].
  apply Qlt_le_weak, one_lt_base, HB.
Qed.

Lemma Bpow_lt (B e1 e2 : Z) :
  (2 <= B)%Z -> (e1 < e2)%Z -> Bpow B e1 < Bpow B e2.
Proof. intros HB He. apply Qpower_lt_compat_l; [exact He | apply one_lt_base, HB]. Qed.

(** The floor logarithm is the only exponent with its two brackets. *)
Lemma Qilog_unique (B : Z) (a : Q) (e : Z) :
  (2 <= B)%Z -> 0 < a -> Bpow B e <= a -> a < Bpow B (e + 1) -> Qilog B a = e.
Proof.
  intros HB Ha Hl Hu. destruct (Qilog_spec B a HB Ha) as [Hl' Hu'].
  set (e' := Qilog B a) in *.
  destruct (Z.lt_trichotomy e' e) as [Hlt|[Heq|Hgt]]; [exfalso|exact Heq|exfalso].
  - pose proof (Bpow_le B (e' + 1) e HB ltac:(lia)). lra.
  - pose proof (Bpow_le B (e + 1) e' HB ltac:(lia)). lra.
Qed.

Lemma Qilog_proper (B : Z) (a a' : Q) :
  (2 <= B)%Z -> 0 < a -> a == a' -> Qilog B a = Qilog B a'.
Proof.
  intros HB Ha E. symmetry.
  assert (Ha' : 0 < a') by (rewrite <- E; exact Ha).
  destruct (Qilog_spec B a HB Ha) as [Hl Hu].
  apply Qilog_unique; [exact HB | exact Ha' | rewrite <- E; exact Hl
                       | rewrite <- E; exact Hu].
Qed.

Lemma rne_proper (q q' : Q) : q == q' -> rne q = rne q'.
Proof.
  intros E. unfold rne. rewrite (Qfloor_comp _ _ E).
  assert (Ec : Qcompare (q - inject_Z (Qfloor q')) (1 # 2)
               = Qcompare (q' - inject_Z (Qfloor q')) (1 # 2)).
  { apply Qcompare_comp; [rewrite E; reflexivity | reflexivity]. }
  rewrite Ec. reflexivity.
Qed.

Lemma rne_Z (z : Z) : rne (inject_Z z) = z.
Proof.
  unfold rne. rewrite Qfloor_Z.
  assert (E : Qcompare (inject_Z z - inject_Z z) (1 # 2) = Lt).
  { apply Qlt_alt. assert (H : inject_Z z - inject_Z z == 0) by ring.
    rewrite H. reflexivity. }
  rewrite E. reflexivity.
Qed.

Lemma rne_le (q q' : Q) : q <= q' -> (rne q <= rne q')%Z.
Proof.
  intros H. pose proof (Qfloor_resp_le _ _ H) as Hf.
  pose proof (Qfloor_le q) as Hl. pose proof (Qlt_floor q) as Hu.
  pose proof (Qfloor_le q') as Hl'. pose proof (Qlt_floor q') as Hu'.
  rewrite inject_Z_plus in Hu, Hu'. change (inject_Z 1) with 1 in Hu, Hu'.
  unfold rne. set (f := Qfloor q) in *. set (f' := Qfloor q') in *.
  destruct (Z.eq_dec f f') as [Ef|Nf].
  - rewrite <- Ef in *.
    destruct (Qcompare_spec (q - inject_Z f) (1 # 2)) as [E|E|E];
      destruct (Qcompare_spec (q' - inject_Z f) (1 # 2)) as [E'|E'|E'];
      try destruct (Z.even f); try lia; exfalso; lra.
  - assert (Hlt : (f + 1 <= f')%Z) by lia.
    destruct (Qcompare (q - inject_Z f) (1 # 2));
      destruct (Qcompare (q' - inject_Z f') (1 # 2));
      try destruct (Z.even f); try destruct (Z.even f'); lia.
Qed.

Lemma Qsgn_proper (x y : Q) : x == y -> Qsgn x = Qsgn y.
Proof.
  unfold Qsgn, Qeq. destruct x as [[|p|p] d], y as [[|q|q] e]; cbn;
    intros E; try reflexivity; discriminate.
Qed.

(** Rounding sees the value of a rational, not the fraction that denotes
    it. *)
Lemma round_proper (B n : Z) (x y : Q) :
  (2 <= B)%Z -> x == y -> round B n x = round B n y.
Proof.
  intros HB E. unfold round.
  rewrite (Qeqb_comp x y E 0 0 (Qeq_refl 0)).
  destruct (Qeq_bool y 0) eqn:Hz; [reflexivity|].
  apply Qeq_bool_neq in Hz.
  assert (Hx : ~ x == 0) by (rewrite E; exact Hz).
  pose proof (Qabs_pos_of_nonzero x Hx) as Ha.
  assert (Ea : Qabs x == Qabs y) by (apply Qabs_wd, E).
  unfold digits. rewrite <- (Qilog_proper B _ _ HB Ha Ea).
  rewrite (rne_proper (Qabs x * Bpow B (n - 1 - Qilog B (Qabs x)))
             (Qabs y * Bpow B (n - 1 - Qilog B (Qabs x))))
    by (apply Qmult_comp; [exact Ea | reflexivity]).
  rewrite (Qsgn_proper x y E). reflexivity.
Qed.

Lemma digits_proper (B n : Z) (a a' : Q) :
  (2 <= B)%Z -> 0 < a -> a == a' -> digits B n a = digits B n a'.
Proof.
  intros HB Ha E. unfold digits. rewrite <- (Qilog_proper B a a' HB Ha E).
  rewrite (rne_proper (a * Bpow B (n - 1 - Qilog B a))
             (a' * Bpow B (n - 1 - Qilog B a)))
    by (apply Qmult_comp; [exact E | reflexivity]).
  reflexivity.
Qed.

Lemma Qsgn_pos (x : Q) : 0 < x -> Qsgn x = 1.
Proof.
  destruct x as [[|p|p] d]; unfold Qlt, Qsgn; cbn; intros H;
    [lia | reflexivity | lia].
Qed.

(** The value of a rounded positive number, from its digits. *)
Lemma round_pos_value (B n : Z) (x : Q) :
  (2 <= B)%Z -> 0 < x ->
  round B n x == inject_Z (fst (digits B n x)) * Bpow B (- snd (digits B n x)).
Proof.
  intros HB Hx. unfold round.
  assert (Hz : Qeq_bool x 0 = false).
  { destruct (Qeq_bool x 0) eqn:E; [|reflexivity].
    apply Qeq_bool_eq in E. rewrite E in Hx. inversion Hx. }
  rewrite Hz.
  assert (Ea : Qabs x == x) by (apply Qabs_pos, Qlt_le_weak, Hx).
  assert (Ha : 0 < Qabs x) by (rewrite Ea; exact Hx).
  rewrite (digits_proper B n _ _ HB Ha Ea).
  destruct (digits B n x) as [m s]. cbn [fst snd].
  rewrite Qred_correct, (Qsgn_pos x Hx). ring.
Qed.

Lemma round_zero (B n : Z) (x : Q) : x == 0 -> round B n x = 0.
Proof. intros E. unfold round. rewrite (Qeq_eq_bool _ _ E). reflexivity. Qed.

Lemma Qabs_opp_eq (x : Q) : Qabs (- x) = Qabs x.
Proof. destruct x as [n d]. unfold Qabs, Qopp. cbn. rewrite Z.abs_opp. reflexivity. Qed.

(** Rounding is odd. *)
Lemma round_opp (B n : Z) (x : Q) : round B n (- x) = - round B n x.
Proof.
  unfold round.
  assert (Hb : Qeq_bool (- x) 0 = Qeq_bool x 0).
  { destruct (Qeq_bool x 0) eqn:E.
    - apply Qeq_eq_bool. apply Qeq_bool_eq in E. rewrite E. reflexivity.
    - destruct (Qeq_bool (- x) 0) eqn:E'; [|reflexivity].
      apply Qeq_bool_eq in E'. apply Qeq_bool_neq in E. exfalso. apply E.
      rewrite <- (Qopp_involutive x), E'. reflexivity. }
  rewrite Hb, Qabs_opp_eq. destruct (Qeq_bool x 0); [reflexivity|].
  destruct (digits B n (Qabs x)) as [m s].
  rewrite <- Qred_opp. apply Qred_complete.
  assert (Es : Qsgn (- x) == - Qsgn x).
  { unfold Qsgn. destruct x as [[|p|p] d]; reflexivity. }
  rewrite Es. ring.
Qed.

(** A positive number stays positive. *)
Lemma round_pos (B n : Z) (x : Q) :
  (2 <= B)%Z -> (1 <= n)%Z -> 0 < x -> 0 < round B n x.
Proof.
  intros HB Hn Hx. destruct (round_close B n x HB) as (r & E & Hr & _).
  assert (He : Bpow B (1 - n) <= 1).
  { apply (Bpow_le B (1 - n) 0 HB). lia. }
  rewrite E. apply Qmult_lt_0_compat; [exact Hx | lra].
Qed.

(** Rounding keeps the order of positive numbers. *)
Lemma round_le_pos (B n : Z) (x y : Q) :
  (2 <= B)%Z -> (1 <= n)%Z -> 0 < x -> x <= y -> round B n x <= round B n y.
Proof.
  intros HB Hn Hx Hxy. assert (Hy : 0 < y) by lra.
  assert (HB0 : (0 < B)%Z) by lia.
  rewrite (round_pos_value B n x HB Hx), (round_pos_value B n y HB Hy).
  pose proof (text_facts.digits_bounds B n x HB Hn Hx) as Bx.
  pose proof (text_facts.digits_bounds B n y HB Hn Hy) as By.
  unfold digits in *. cbn [fst snd] in *.
  destruct (Qilog_spec B x HB Hx) as [Lx Ux]. destruct (Qilog_spec B y HB Hy) as [Ly Uy].
  set (ex := Qilog B x) in *. set (ey := Qilog B y) in *.
  assert (Hexy : (ex <= ey)%Z).
  { destruct (Z.le_gt_cases ex ey) as [|Hgt]; [assumption|exfalso].
    pose proof (Bpow_le B (ey + 1) ex HB ltac:(lia)). lra. }
  destruct (Z.eq_dec ex ey) as [Ee|Ne].
  - rewrite <- Ee in *. set (s := (n - 1 - ex)%Z) in *.
    pose proof (Bpow_pos B s HB0) as Hs. pose proof (Bpow_pos B (- s) HB0) as Hms.
    assert (Hm : (rne (x * Bpow B s) <= rne (y * Bpow B s))%Z) by (apply rne_le; nra).
    rewrite Zle_Qle in Hm. nra.
  - set (sx := (n - 1 - ex)%Z) in *. set (sy := (n - 1 - ey)%Z) in *.
    destruct Bx as [_ Bx]. destruct By as [By _].
    rewrite Zle_Qle in Bx, By. rewrite <- !Bpow_Z in Bx, By by lia.
    pose proof (Bpow_pos B (- sx) HB0) as Hsx. pose proof (Bpow_pos B (- sy) HB0) as Hsy.
    assert (E1 : Bpow B n * Bpow B (- sx) == Bpow B (ex + 1)).
    { rewrite <- Bpow_add by lia. replace (n + - sx)%Z with (ex + 1)%Z by (unfold sx; lia).
      reflexivity. }
    assert (E2 : Bpow B (n - 1) * Bpow B (- sy) == Bpow B ey).
    { rewrite <- Bpow_add by lia. replace (n - 1 + - sy)%Z with ey by (unfold sy; lia).
      reflexivity. }
    pose proof (Bpow_le B (ex + 1) ey HB ltac:(lia)) as Hmid.
    set (mx := inject_Z (rne (x * Bpow B sx))) in *.
    set (my := inject_Z (rne (y * Bpow B sy))) in *.
    apply Qle_trans with (Bpow B (ex + 1)); [rewrite <- E1; nra|].
    apply Qle_trans with (Bpow B ey); [exact Hmid|]. rewrite <- E2. nra.
Qed.

(** Rounding keeps the order of all numbers. *)
Lemma round_le (B n : Z) (x y : Q) :
  (2 <= B)%Z -> (1 <= n)%Z -> x <= y -> round B n x <= round B n y.
Proof.
  intros HB Hn Hxy.
  destruct (Qlt_le_dec 0 x) as [Hx|Hx]; [apply round_le_pos; assumption|].
  destruct (Qlt_le_dec 0 y) as [Hy|Hy].
  - apply Qle_trans with 0.
    + destruct (Qeq_dec x 0) as [E|N]; [rewrite (round_zero B n x E); apply Qle_refl|].
      assert (Hnx : 0 < - x) by lra.
      pose proof (round_pos B n (- x) HB Hn Hnx) as H. rewrite round_opp in H. lra.
    + apply Qlt_le_weak, round_pos; assumption.
  - destruct (Qeq_dec y 0) as [Ey|Ny].
    + rewrite (round_zero B n y Ey).
      destruct (Qeq_dec x 0) as [E|N]; [rewrite (round_zero B n x E); apply Qle_refl|].
      assert (Hnx : 0 < - x) by lra.
      pose proof (round_pos B n (- x) HB Hn Hnx) as H. rewrite round_opp in H. lra.
    + assert (Hny : 0 < - y) by lra.
      pose proof (round_le_pos B n (- y) (- x) HB Hn Hny ltac:(lra)) as H.
      rewrite !round_opp in H. lra.
Qed.

(** A rounded value is a reduced fraction, so that it is equal to an
    integer as soon as it has the value of one. *)
Lemma round_reduced (B n : Z) (x : Q) : Qred (round B n x) = round B n x.
Proof.
  unfold round. destruct (Qeq_bool x 0); [reflexivity|].
  destruct (digits B n (Qabs x)) as [m s]. apply Qred_complete, Qred_correct.
Qed.

Lemma round_integer (B n : Z) (x : Q) (z : Z) :
  round B n x == inject_Z z -> round B n x = inject_Z z.
Proof.
  intros E. rewrite <- round_reduced, <- (text_facts.Qred_inject_Z z).
  apply Qred_complete, E.
Qed.

(** An integer of fewer than [n] digits is its own rounding. *)
Lemma round_exact_pos (B n z : Z) :
  (2 <= B)%Z -> (1 <= n)%Z -> (0 < z < B ^ n)%Z ->
  round B n (inject_Z z) = inject_Z z.
Proof.
  intros HB Hn Hz. assert (HB0 : (0 < B)%Z) by lia.
  assert (Hx : 0 < inject_Z z) by (apply inject_Z_pos; lia).
  pose proof (round_pos_value B n _ HB Hx) as Hv.
  assert (E : round B n (inject_Z z) == inject_Z z).
  { rewrite Hv. unfold digits. cbn [fst snd].
    destruct (Qilog_spec B _ HB Hx) as [Hl Hu]. set (e := Qilog B (inject_Z z)) in *.
    assert (He : (e < n)%Z).
    { destruct (Z.lt_ge_cases e n) as [|Hge]; [assumption|exfalso].
      pose proof (Bpow_le B n e HB Hge) as H. rewrite Bpow_Z in H by lia.
      destruct Hz as [_ Hz]. rewrite Zlt_Qlt in Hz. lra. }
    set (s := (n - 1 - e)%Z). assert (Hs : (0 <= s)%Z) by (unfold s; lia).
    rewrite (rne_proper (inject_Z z * Bpow B s) (inject_Z (z * B ^ s)))
      by (rewrite inject_Z_mult, Bpow_Z by exact Hs; reflexivity).
    rewrite rne_Z, inject_Z_mult, <- Bpow_Z by exact Hs.
    rewrite <- Qmult_assoc, Bpow_cancel by exact HB0. ring. }
  apply round_integer, E.
Qed.

Lemma round_exact (B n z : Z) :
  (2 <= B)%Z -> (1 <= n)%Z -> (Z.abs z < B ^ n)%Z ->
  round B n (inject_Z z) = inject_Z z.
Proof.
  intros HB Hn Hz. destruct (Z.lt_trichotomy z 0) as [Hneg|[->|Hpos]].
  - replace (inject_Z z) with (- inject_Z (- z))
      by (rewrite <- inject_Z_opp; f_equal; lia).
    rewrite round_opp, round_exact_pos by (try assumption; lia). reflexivity.
  - reflexivity.
  - apply round_exact_pos; try assumption. lia.
Qed.

End round_facts.

(** ** When the text of a float is the text of an integer *)

Module int_text_facts.

Import text text_facts.

Local Open Scope Z_scope.

Lemma uvalue_bound (ds : list Z) :
  Forall is_digit ds -> 0 <= uvalue ds < 10 ^ len ds.
Proof.
  induction ds as [|d ds IH] using rev_ind; intros H.
  - unfold uvalue, len. cbn. lia.
  - apply Forall_app in H. destruct H as [Hds Hd]. inversion Hd as [|? ? Hd0 _]; subst.
    specialize (IH Hds). rewrite uvalue_snoc, len_app.
    change (len [d]) with 1. rewrite Z.pow_add_r by (unfold len; lia).
    unfold is_digit in Hd0. change (10 ^ 1) with 10. lia.
Qed.

Lemma trim_leading_head (l : list Z) :
  trim_leading l = [] \/ exists d r, trim_leading l = d :: r /\ d <> 0.
Proof.
  induction l as [|x l IH]; [left; reflexivity|].
  cbn [trim_leading]. destruct (Z.eqb_spec x 0) as [->|Hx]; [exact IH|].
  right. exists x, l. split; [reflexivity | exact Hx].
Qed.

(** A trimmed mantissa is empty or ends in a digit that is not zero. *)
Lemma trim_last (ds : list Z) :
  trim ds = [] \/ exists pre d, trim ds = pre ++ [d] /\ d <> 0.
Proof.
  unfold trim. destruct (trim_leading_head (rev ds)) as [->|(d & r & -> & Hd)].
  - left. reflexivity.
  - right. exists (rev r), d. split; [reflexivity | exact Hd].
Qed.

Lemma uvalue_last_mod (pre : list Z) (d : Z) :
  is_digit d -> uvalue (pre ++ [d]) mod 10 = d.
Proof.
  intros Hd. rewrite uvalue_snoc, Z.add_comm, Z.mul_comm, Z_mod_plus_full.
  apply Z.mod_small. unfold is_digit in Hd. lia.
Qed.

(** The integer parser on a text that goes on after its digits. *)
Lemma parse_int_trailing (neg : bool) (ip : list Z) (rest : list ascii) :
  Forall is_digit ip -> ip <> [] -> stops rest -> rest <> [] ->
  parse_int (sign_text neg ++ map digit_char ip ++ rest) = None.
Proof.
  intros Hip Hne Hst Hrest. unfold parse_int.
  destruct ip as [|d ip']; [congruence|].
  assert (Hd : is_digit d) by (inversion Hip; assumption).
  cbn [map app]. rewrite (scan_sign_text neg d _ Hd).
  change (digit_char d :: map digit_char ip' ++ rest)
    with (map digit_char (d :: ip') ++ rest).
  rewrite (span_digits_app (d :: ip') rest Hip Hst).
  destruct rest; [congruence | reflexivity].
Qed.

Lemma parse_int_digits (neg : bool) (ip : list Z) :
  Forall is_digit ip -> ip <> [] ->
  parse_int (sign_text neg ++ map digit_char ip) = Some (signed neg (uvalue ip)).
Proof.
  intros Hip Hne. unfold parse_int.
  destruct ip as [|d ip']; [congruence|].
  assert (Hd : is_digit d) by (inversion Hip; assumption).
  cbn [map app]. rewrite (scan_sign_text neg d _ Hd).
  change (digit_char d :: map digit_char ip') with (map digit_char (d :: ip')).
  rewrite <- (app_nil_r (map digit_char (d :: ip'))).
  rewrite (span_digits_app (d :: ip') [] Hip I). reflexivity.
Qed.

(** [%f] without digits after the point, and with some. *)
Lemma fmtF_integer (d : decimal) :
  mant d <> [] -> len (mant d) <= exp d ->
  fmtF (Z.max (len (mant d) - exp d) 0) d
  = map digit_char (mant d ++ replicate (Z.to_nat (exp d - len (mant d))) 0).
Proof.
  intros Hne Hle.
  assert (HL : 1 <= len (mant d)).
  { unfold len. destruct (mant d); [congruence | cbn [length]; lia]. }
  unfold fmtF. destruct (Z.ltb_spec 0 (exp d)) as [_|]; [|lia].
  rewrite Z.max_r, Z.min_l by lia. change (0 <? 0) with false. cbv iota.
  rewrite take_ge by (unfold len in *; lia).
  rewrite map_app, map_digit_zeros, app_nil_r. reflexivity.
Qed.

Lemma fmtF_fraction (d : decimal) :
  mant d <> [] -> Forall is_digit (mant d) -> exp d < len (mant d) ->
  exists ip rest,
    fmtF (Z.max (len (mant d) - exp d) 0) d = map digit_char ip ++ rest
    /\ Forall is_digit ip /\ ip <> [] /\ stops rest /\ rest <> [].
Proof.
  intros Hne Hdig Hlt. unfold fmtF. rewrite Z.max_l by lia.
  destruct (Z.ltb_spec 0 (len (mant d) - exp d)) as [_|]; [|lia].
  destruct (Z.ltb_spec 0 (exp d)) as [Hpos|Hneg].
  - exists (take (Z.to_nat (exp d)) (mant d)). eexists.
    rewrite Z.min_r by lia. replace (exp d - exp d) with 0 by lia.
    change (zeros 0) with (@nil ascii). rewrite app_nil_r.
    split; [reflexivity|].
    rewrite <- (take_drop (Z.to_nat (exp d)) (mant d)) in Hdig.
    apply Forall_app in Hdig. destruct Hdig as [Ht _].
    split; [exact Ht|]. split.
    { intros E. apply (f_equal (@length Z)) in E. rewrite length_take in E.
      unfold len in *. cbn [length] in E. lia. }
    split; [reflexivity | discriminate].
  - exists [0]. eexists. split; [reflexivity|].
    split; [constructor; [unfold is_digit; lia | constructor]|].
    split; [discriminate|]. split; [reflexivity | discriminate].
Qed.

(** The integer parser on what [%g] prints: it reads a number exactly when
    the decimal point lies at or right of the last digit of the mantissa and
    at most ten places right of the first. *)
Lemma parse_int_fmtG (neg : bool) (d : decimal) :
  wf_decimal 10 d ->
  parse_int (sign_text neg ++ fmtG 10 d)
  = if (len (mant d) <=? exp d) && (exp d <=? 10)
    then Some (signed neg (uvalue (mant d) * 10 ^ (exp d - len (mant d))))
    else None.
Proof.
  intros (Hne & Hdig & Hlen). unfold fmtG.
  assert (HL : 1 <= len (mant d)).
  { unfold len. destruct (mant d); [congruence | cbn [length]; lia]. }
  destruct ((exp d - 1 <? -4)
            || ((if (len (mant d) <? 10) && (exp d <=? len (mant d))
                 then len (mant d) else 10) <=? exp d - 1)) eqn:Hbranch.
  - (* exponent form *)
    assert (Hcond : (len (mant d) <=? exp d) && (exp d <=? 10) = false).
    { apply andb_false_iff. apply orb_true_iff in Hbranch.
      destruct (Z.leb_spec (len (mant d)) (exp d)) as [H1|]; [|left; reflexivity].
      right. apply Z.leb_gt. destruct Hbranch as [Hb|Hb].
      - apply Z.ltb_lt in Hb. lia.
      - apply Z.leb_le in Hb.
        destruct (Z.ltb_spec (len (mant d)) 10); destruct (Z.leb_spec (exp d) (len (mant d)));
          cbn [andb] in Hb; lia. }
    rewrite Hcond, Z.min_r by lia.
    destruct (fmtE_shape d Hne Hdig)
      as (ip & fp & dot & eneg & es & -> & Hip & Hipne & _).
    apply parse_int_trailing; [exact Hip | exact Hipne | |].
    + destruct dot; reflexivity.
    + destruct dot; discriminate.
  - (* fixed form *)
    apply orb_false_iff in Hbranch. destruct Hbranch as [Hb1 Hb2].
    apply Z.ltb_ge in Hb1. apply Z.leb_gt in Hb2.
    assert (Hprec : Z.max ((if exp d <? 10 then len (mant d) else 10) - exp d) 0
                    = Z.max (len (mant d) - exp d) 0).
    { destruct (Z.ltb_spec (exp d) 10); lia. }
    rewrite Hprec.
    destruct (Z.leb_spec (len (mant d)) (exp d)) as [Hint|Hfrac]; cbn [andb].
    + assert (He : exp d <= 10).
      { destruct (Z.ltb_spec (len (mant d)) 10); destruct (Z.leb_spec (exp d) (len (mant d)));
          cbn [andb] in Hb2; lia. }
      destruct (Z.leb_spec (exp d) 10) as [_|]; [|lia].
      rewrite (fmtF_integer d Hne Hint).
      rewrite parse_int_digits.
      * rewrite uvalue_app, uvalue_zeros, len_replicate, Z.add_0_r.
        rewrite Z2Nat.id by lia. reflexivity.
      * apply Forall_app. split; [exact Hdig | apply Forall_zeros].
      * intros E. apply app_eq_nil in E. destruct E; congruence.
    + destruct (fmtF_fraction d Hne Hdig Hfrac) as (ip & rest & -> & Hip & Hipne & Hst & Hr).
      apply parse_int_trailing; assumption.
Qed.

(** The ten digits of a positive rational, with the zeros [trim] took
    off. *)
Lemma to_decimal_facts (a : Q) :
  (0 < a)%Q ->
  exists m s k,
    sig.digits 10 10 a = (m, s)
    /\ 10 ^ 9 <= m <= 10 ^ 10
    /\ udigits m = mant (to_decimal 10 a) ++ replicate k 0
    /\ exp (to_decimal 10 a) = len (udigits m) - s
    /\ uvalue (mant (to_decimal 10 a)) * 10 ^ Z.of_nat k = m
    /\ (exists pre dl, mant (to_decimal 10 a) = pre ++ [dl] /\ dl <> 0 /\ is_digit dl).
Proof.
  intros Ha. pose proof (digits_bounds 10 10 a ltac:(lia) ltac:(lia) Ha) as Hm.
  unfold to_decimal. destruct (sig.digits 10 10 a) as [m s]. cbn [fst mant exp] in *.
  change (10 - 1) with 9 in Hm.
  assert (Hm0 : 0 <= m) by (change (10 ^ 9) with 1000000000 in Hm; lia).
  destruct (udigits_spec m Hm0) as (Hdig & Hval & Hne).
  destruct (trim_spec (udigits m)) as (k & Ek).
  exists m, s, k. split; [reflexivity|]. split; [exact Hm|].
  split; [exact Ek|]. split; [reflexivity|].
  assert (Hut : uvalue (trim (udigits m)) * 10 ^ Z.of_nat k = m).
  { rewrite <- Hval at 2. rewrite Ek at 2.
    rewrite uvalue_app, uvalue_zeros, len_replicate. lia. }
  split; [exact Hut|].
  destruct (trim_last (udigits m)) as [E|(pre & dl & E & Hdl)].
  - rewrite E in Hut. change (uvalue []) with 0 in Hut.
    change (10 ^ 9) with 1000000000 in Hm. lia.
  - exists pre, dl. split; [exact E|]. split; [exact Hdl|].
    rewrite Ek, E in Hdig. apply Forall_app in Hdig. destruct Hdig as [Hdig _].
    apply Forall_app in Hdig. destruct Hdig as [_ Hd]. inversion Hd. assumption.
Qed.

End int_text_facts.

(** ** The amount of the text of a float *)

Module amount_facts.

Import text text_facts int_text_facts.

Local Open Scope Z_scope.

Lemma inject_signed_one (neg : bool) (u : Z) :
  (inject_Z (signed neg 1) * inject_Z u == inject_Z (signed neg u))%Q.
Proof. symmetry. apply inject_signed. Qed.

Lemma signed_involutive (neg : bool) (u : Z) : signed neg (signed neg u) = u.
Proof. destruct neg; cbn [signed]; lia. Qed.

Lemma signed_abs (neg : bool) (u : Z) : Z.abs (signed neg u) = Z.abs u.
Proof. destruct neg; cbn [signed]; lia. Qed.

(** The text of a float is the text of an integer exactly when the float,
    rounded to ten digits, is an integer of magnitude below 10^10; the
    integer parser then reads that integer. *)
Lemma parse_int_String (x : big.Float) (n : Z) :
  parse_int (list_ascii_of_string (big.String x)) = Some n
  <-> sig.round 10 10 (big.val x) = inject_Z n /\ Z.abs n < 10 ^ 10.
Proof.
  pose proof (big_facts.parse_String x) as HF. revert HF.
  unfold big.String. rewrite list_ascii_of_string_of_list_ascii.
  destruct (Qeq_bool (big.val x) 0) eqn:Hz.
  - intros _. apply Qeq_bool_eq in Hz. rewrite (round_facts.round_zero 10 10 _ Hz).
    change (parse_int ["0"%char]) with (Some 0). split.
    + intros E. injection E as <-. split; [reflexivity | reflexivity].
    + intros [E _]. injection E as E. subst. reflexivity.
  - apply Qeq_bool_neq in Hz.
    pose proof (sig_facts.Qabs_pos_of_nonzero _ Hz) as Ha.
    destruct (to_decimal_spec _ Ha) as (Hwf & _).
    destruct (to_decimal_facts _ Ha)
      as (m & s & k & _ & Hm & Eds & Eexp & Hut & (pre & dl & Emant & Hdl & Hdig)).
    change (if Qnum (big.val x) <? 0 then ["-"%char] else [])
      with (sign_text (Qnum (big.val x) <? 0)).
    set (neg := Qnum (big.val x) <? 0). set (d := to_decimal 10 (Qabs (big.val x))) in *.
    rewrite (parse_fmtG neg 10 d Hwf). intros HF. injection HF as HR.
    rewrite (parse_int_fmtG neg d Hwf). unfold decimal_value in HR.
    set (U := uvalue (mant d)) in *. set (L := len (mant d)) in *.
    assert (HL : len (udigits m) = L + Z.of_nat k).
    { rewrite Eds, len_app, len_replicate. reflexivity. }
    assert (HU : 1 <= U).
    { destruct (Z.le_gt_cases 1 U) as [|Hlt]; [assumption|exfalso].
      assert (HU0 : 0 <= U) by (apply uvalue_bound, Hwf).
      assert (U = 0) by lia. rewrite H in Hut.
      change (10 ^ 9) with 1000000000 in Hm. lia. }
    assert (HUl : U < 10 ^ L) by (apply uvalue_bound, Hwf).
    assert (HL0 : 0 <= L) by (unfold L, len; lia).
    destruct ((L <=? exp d) && (exp d <=? 10)) eqn:Hc.
    + apply andb_true_iff in Hc. destruct Hc as [Hc1 Hc2].
      apply Z.leb_le in Hc1, Hc2.
      assert (EQ : (inject_Z (signed neg 1) * (inject_Z U * sig.Bpow 10 (exp d - L))
                    == inject_Z (signed neg (U * 10 ^ (exp d - L))))%Q).
      { rewrite sig_facts.Bpow_Z by lia. rewrite <- inject_Z_mult.
        apply inject_signed_one. }
      assert (ER : sig.round 10 10 (big.val x)
                   = inject_Z (signed neg (U * 10 ^ (exp d - L)))).
      { rewrite <- HR.
        transitivity (Qred (inject_Z (signed neg (U * 10 ^ (exp d - L)))));
          [apply Qred_complete, EQ | apply Qred_inject_Z]. }
      split.
      * intros E. injection E as <-. split; [exact ER|].
        rewrite signed_abs, Z.abs_eq by (apply Z.mul_nonneg_nonneg; lia).
        apply Z.lt_le_trans with (10 ^ L * 10 ^ (exp d - L)).
        -- apply Z.mul_lt_mono_pos_r; [apply Z.pow_pos_nonneg; lia | exact HUl].
        -- rewrite <- Z.pow_add_r by lia.
           replace (L + (exp d - L)) with (exp d) by lia.
           apply Z.pow_le_mono_r; lia.
      * intros [E _]. f_equal. apply inject_Z_injective.
        rewrite <- ER, E. reflexivity.
    + split; [discriminate|]. intros [E Hn]. exfalso.
      (* the rounded value is the integer [n]: the point cannot lie inside
         the mantissa nor further than ten places right *)
      assert (EQ : (inject_Z (signed neg n) == inject_Z U * sig.Bpow 10 (exp d - L))%Q).
      { assert (H1 : (inject_Z (signed neg 1)
                      * (inject_Z U * sig.Bpow 10 (exp d - L)) == inject_Z n)%Q).
        { rewrite <- E, <- HR. symmetry. apply Qred_correct. }
        assert (Hs : (inject_Z (signed neg 1) * inject_Z (signed neg 1) == 1)%Q)
          by (destruct neg; reflexivity).
        rewrite <- inject_signed_one, <- H1.
        set (V := (inject_Z U * sig.Bpow 10 (exp d - L))%Q).
        rewrite Qmult_assoc, Hs. ring. }
      set (N := signed neg n) in *.
      assert (HNabs : Z.abs N < 10 ^ 10) by (unfold N; rewrite signed_abs; exact Hn).
      assert (Hexp : exp d - L = Z.of_nat k - s) by lia.
      rewrite Hexp in EQ.
      assert (Hks : s <= Z.of_nat k).
      { destruct (Z.le_gt_cases s (Z.of_nat k)) as [|Hgt]; [assumption|exfalso].
        assert (EU : U = N * 10 ^ (s - Z.of_nat k)).
        { apply inject_Z_injective. rewrite inject_Z_mult.
          rewrite <- sig_facts.Bpow_Z by lia. rewrite EQ.
          rewrite <- Qmult_assoc, <- sig_facts.Bpow_add by lia.
          replace (Z.of_nat k - s + (s - Z.of_nat k)) with 0 by lia.
          change (sig.Bpow 10 0) with 1%Q. ring. }
        assert (Hmod : U mod 10 = 0).
        { rewrite EU. replace (s - Z.of_nat k) with (Z.succ (s - Z.of_nat k - 1)) by lia.
          rewrite Z.pow_succ_r by lia.
          replace (N * (10 * 10 ^ (s - Z.of_nat k - 1)))
            with (N * 10 ^ (s - Z.of_nat k - 1) * 10) by ring.
          apply Z_mod_mult. }
        unfold U in Hmod. rewrite Emant, (uvalue_last_mod pre dl Hdig) in Hmod.
        congruence. }
      assert (EN : N = U * 10 ^ (Z.of_nat k - s)).
      { apply inject_Z_injective. rewrite inject_Z_mult.
        rewrite <- sig_facts.Bpow_Z by lia. exact EQ. }
      assert (HN : 0 < N).
      { rewrite EN. apply Z.mul_pos_pos; [lia | apply Z.pow_pos_nonneg; lia]. }
      assert (Hs0 : 0 <= s).
      { destruct (Z.le_gt_cases 0 s) as [|Hneg]; [assumption|exfalso].
        assert (Em : N = m * 10 ^ (- s)).
        { rewrite EN, <- Hut, <- Z.mul_assoc, <- Z.pow_add_r by lia.
          do 2 f_equal. all: lia. }
        assert (10 <= 10 ^ (- s)).
        { change 10 with (10 ^ 1) at 1. apply Z.pow_le_mono_r; lia. }
        change (10 ^ 9) with 1000000000 in Hm. change (10 ^ 10) with 10000000000 in *.
        nia. }
      assert (Em : m = N * 10 ^ s).
      { rewrite EN, <- Hut, <- Z.mul_assoc, <- Z.pow_add_r by lia.
        do 2 f_equal. all: lia. }
      assert (Hmlt : 0 <= m < 10 ^ (10 + s)).
      { split; [change (10 ^ 9) with 1000000000 in Hm; lia|].
        rewrite Em, Z.pow_add_r by lia.
        apply Z.mul_lt_mono_pos_r; [apply Z.pow_pos_nonneg; lia | lia]. }
      pose proof (udigits_fuel_length (S (Z.to_nat (Z.log2 m))) m (10 + s) Hmlt
                    ltac:(lia)) as Hlen.
      fold (udigits m) in Hlen.
      apply andb_false_iff in Hc. destruct Hc as [Hc|Hc].
      * apply Z.leb_gt in Hc. lia.
      * apply Z.leb_gt in Hc. lia.
Qed.

End amount_facts.

(** * Further properties of the calculations *)

Module calc_facts.

Import sig sig_facts round_facts.

Local Open Scope Q_scope.

Lemma close_mul (e1 e2 x x' y y' : Q) :
  0 <= e1 -> 0 <= e2 -> e1 <= 1 ->
  close e1 x x' -> close e2 y y' -> close (e1 + e2 + e1 * e2) (x * y) (x' * y').
Proof.
  intros H1 H2 H1' (r1 & E1 & B1) (r2 & E2 & B2). exists (r1 * r2). split.
  - rewrite E1, E2. ring.
  - split; nra.
Qed.

Lemma close_scale (e x x' c : Q) : close e x x' -> close e (x * c) (x' * c).
Proof. intros (r & E & B). exists r. split; [rewrite E; ring | exact B]. Qed.

Lemma close_bounds (e x y : Q) :
  0 <= x -> close e x y -> x * (1 - e) <= y /\ y <= x * (1 + e).
Proof. intros Hx (r & E & B). rewrite E. split; nra. Qed.

Lemma close_proper (e x x' y : Q) : x == x' -> close e x y -> close e x' y.
Proof. intros Ex (r & E & B). exists r. split; [rewrite <- Ex; exact E | exact B]. Qed.

Lemma round_one (B n : Z) : (2 <= B)%Z -> (1 <= n)%Z -> round B n 1 = 1.
Proof.
  intros HB Hn. apply (round_exact B n 1 HB Hn).
  change (Z.abs 1) with 1%Z. apply Z.pow_gt_1; lia.
Qed.

Lemma round_nonneg (B n : Z) (x : Q) :
  (2 <= B)%Z -> (1 <= n)%Z -> 0 <= x -> 0 <= round B n x.
Proof.
  intros HB Hn Hx. pose proof (round_le B n 0 x HB Hn Hx) as H.
  rewrite (round_zero B n 0 (Qeq_refl 0)) in H. exact H.
Qed.

Lemma round_le_one (B n : Z) (x : Q) :
  (2 <= B)%Z -> (1 <= n)%Z -> x <= 1 -> round B n x <= 1.
Proof.
  intros HB Hn Hx. pose proof (round_le B n x 1 HB Hn Hx) as H.
  rewrite (round_one B n HB Hn) in H. exact H.
Qed.

Lemma round_le_Z (B n : Z) (x : Q) (z : Z) :
  (2 <= B)%Z -> (1 <= n)%Z -> (Z.abs z < B ^ n)%Z ->
  x <= inject_Z z -> round B n x <= inject_Z z.
Proof.
  intros HB Hn Hz Hx. pose proof (round_le B n x _ HB Hn Hx) as H.
  rewrite (round_exact B n z HB Hn Hz) in H. exact H.
Qed.

Lemma round_ge_Z (B n : Z) (x : Q) (z : Z) :
  (2 <= B)%Z -> (1 <= n)%Z -> (Z.abs z < B ^ n)%Z ->
  inject_Z z <= x -> inject_Z z <= round B n x.
Proof.
  intros HB Hn Hz Hx. pose proof (round_le B n _ x HB Hn Hx) as H.
  rewrite (round_exact B n z HB Hn Hz) in H. exact H.
Qed.

(** The quotient of two rationals in order. *)
Lemma Qdiv_unit (x t : Q) : 0 <= x -> x <= t -> 0 < t -> 0 <= x / t /\ x / t <= 1.
Proof.
  intros H0 Hx Ht. split.
  - apply Qle_shift_div_l; [exact Ht | rewrite Qmult_0_l; exact H0].
  - apply Qle_shift_div_r; [exact Ht | rewrite Qmult_1_l; exact Hx].
Qed.

Lemma Qdiv_le (x y t : Q) : 0 < t -> x <= y -> x / t <= y / t.
Proof.
  intros Ht H. apply Qle_shift_div_l; [exact Ht|].
  assert (E : x / t * t == x) by (field; lra). rewrite E. exact H.
Qed.

Lemma inject_Z_pos_lt (t : Z) : (0 < t)%Z -> 0 < inject_Z t.
Proof. intros H. change 0 with (inject_Z 0). rewrite <- Zlt_Qlt. exact H. Qed.

(** ** The weight as a function of the two numbers *)

Lemma weight_of_unit (b t : Z) :
  (0 <= b <= t)%Z -> (0 < t)%Z ->
  0 <= big.val (weight_of b t) /\ big.val (weight_of b t) <= 1.
Proof.
  intros Hb Ht. unfold weight_of. cbn [big.val].
  set (w := round 2 64 (inject_Z b)). set (tt := round 2 64 (inject_Z t)).
  assert (Hw : 0 <= w).
  { apply round_nonneg; [lia | lia |]. change 0 with (inject_Z 0).
    rewrite <- Zle_Qle. lia. }
  assert (Hwt : w <= tt).
  { apply round_le; [lia | lia |]. rewrite <- Zle_Qle. lia. }
  assert (Htt : 0 < tt).
  { apply round_pos; [lia | lia |]. apply inject_Z_pos_lt, Ht. }
  destruct (Qdiv_unit w tt Hw Hwt Htt) as [Hq0 Hq1].
  split.
  - repeat (apply round_nonneg; [lia | lia |]). exact Hq0.
  - repeat (apply round_le_one; [lia | lia |]). exact Hq1.
Qed.

Lemma weight_of_zero (t : Z) : big.val (weight_of 0 t) = 0.
Proof.
  unfold weight_of. cbn [big.val].
  rewrite (round_zero 2 64 (inject_Z 0)) by reflexivity.
  assert (E : round 2 64 (0 / round 2 64 (inject_Z t)) = 0).
  { apply round_zero. unfold Qdiv. ring. }
  rewrite E. reflexivity.
Qed.

Lemma weight_of_whole (t : Z) : (0 < t)%Z -> big.val (weight_of t t) = 1.
Proof.
  intros Ht. unfold weight_of. cbn [big.val].
  set (tt := round 2 64 (inject_Z t)).
  assert (Htt : 0 < tt).
  { apply round_pos; [lia | lia |]. apply inject_Z_pos_lt, Ht. }
  assert (E : round 2 64 (tt / tt) = 1).
  { rewrite (round_proper 2 64 (tt / tt) 1) by (try lia; field; lra).
    apply round_one; lia. }
  rewrite E. reflexivity.
Qed.

Lemma weight_of_mono (b1 b2 t : Z) :
  (b1 <= b2)%Z -> (0 < t)%Z ->
  big.val (weight_of b1 t) <= big.val (weight_of b2 t).
Proof.
  intros Hb Ht. unfold weight_of. cbn [big.val].
  set (tt := round 2 64 (inject_Z t)).
  assert (Htt : 0 < tt).
  { apply round_pos; [lia | lia |]. apply inject_Z_pos_lt, Ht. }
  repeat (apply round_le; [lia | lia |]).
  apply Qdiv_le; [exact Htt|].
  apply round_le; [lia | lia |]. rewrite <- Zle_Qle. exact Hb.
Qed.

(** ** The text of a float read as an amount *)

Lemma NewAmount_String (x : big.Float) (n : Z) :
  types.NewAmount (big.String x) = types.mkAmount (Some n)
  <-> round 10 10 (big.val x) = inject_Z n /\ (Z.abs n < 10 ^ 10)%Z.
Proof.
  unfold types.NewAmount. rewrite <- amount_facts.parse_int_String.
  split; [intros E; injection E as E; exact E | intros ->; reflexivity].
Qed.

(** ** The fee a call leaves behind *)

Lemma NewFloat_100 : big.NewFloat 100 = big.mkFloat 53 100.
Proof. vm_compute. reflexivity. Qed.

Lemma NewFloat_0 : big.NewFloat 0 = big.mkFloat 53 0.
Proof. vm_compute. reflexivity. Qed.

Lemma validator_fee_after_value (f : big.Float) :
  (1 <= big.prec f)%Z ->
  validator_fee_after f
  = big.mkFloat (big.prec f) (round 2 (big.prec f) (big.val f / 100)).
Proof.
  intros Hp. unfold validator_fee_after, big.result_prec. rewrite NewFloat_100.
  cbn [big.prec big.val].
  destruct (Z.eqb_spec (big.prec f) 0) as [E|_]; [lia | reflexivity].
Qed.

Lemma delegator_fee_after_value (f : big.Float) :
  (1 <= big.prec f)%Z ->
  delegator_fee_after f
  = big.mkFloat (big.prec f)
      (round 2 (big.prec f) (round 2 53 (100 - big.val f) / 100)).
Proof.
  intros Hp. unfold delegator_fee_after, big.Sub, big.result_prec.
  rewrite NewFloat_100, NewFloat_0. cbn [big.prec big.val Z.eqb].
  destruct (Z.eqb_spec (big.prec f) 0) as [E|_]; [lia | reflexivity].
Qed.

(** Rounding at [p] bits is at least as good as at [p0 <= p] bits. *)
Lemma round_close_at (p0 p : Z) (x : Q) :
  (p0 <= p)%Z -> close ((1 # 2) * Bpow 2 (1 - p0)) x (round 2 p x).
Proof.
  intros Hp. apply (close_weaken ((1 # 2) * Bpow 2 (1 - p))).
  - apply Qmult_le_l; [reflexivity|]. apply Bpow_le; lia.
  - apply round_close. lia.
Qed.

Lemma validator_fee_after_close (f : big.Float) :
  (53 <= big.prec f)%Z ->
  close (1 # 2 ^ 53) (big.val f / 100) (big.val (validator_fee_after f)).
Proof.
  intros Hp. rewrite validator_fee_after_value by lia. cbn [big.val].
  apply (round_close_at 53 _ _ Hp).
Qed.

Lemma delegator_fee_after_close (f : big.Float) :
  (53 <= big.prec f)%Z ->
  close (1 # 2 ^ 51) ((100 - big.val f) / 100) (big.val (delegator_fee_after f)).
Proof.
  intros Hp. rewrite delegator_fee_after_value by lia. cbn [big.val].
  set (e := (1 # 2) * Bpow 2 (1 - 53)).
  apply (close_weaken (e + e + e * e)); [qcmp|].
  apply (close_trans e e _ (round 2 53 (100 - big.val f) / 100) _);
    [qcmp | qcmp | qcmp | |].
  - unfold Qdiv. apply close_scale. apply round_close. lia.
  - apply (round_close_at 53 _ _ Hp).
Qed.

(** A fee between 0 and 100 is left between 0 and 1. *)
Lemma validator_fee_after_unit (f : big.Float) :
  (1 <= big.prec f)%Z -> 0 <= big.val f -> big.val f <= 100 ->
  0 <= big.val (validator_fee_after f) /\ big.val (validator_fee_after f) <= 1.
Proof.
  intros Hp H0 H1. rewrite validator_fee_after_value by lia. cbn [big.val].
  destruct (Qdiv_unit (big.val f) 100 H0 H1 ltac:(reflexivity)) as [Hq0 Hq1].
  split; [apply round_nonneg | apply round_le_one]; (lia || assumption).
Qed.

Lemma remaining_bounds (lo : Z) (x : Q) :
  (0 <= lo <= 100)%Z -> 0 <= x -> x <= 100 - inject_Z lo ->
  inject_Z lo <= round 2 53 (100 - x) /\ round 2 53 (100 - x) <= 100.
Proof.
  intros Hlo H0 H1. split.
  - apply round_ge_Z; [lia | lia | |lra].
    change (2 ^ 53)%Z with 9007199254740992%Z. lia.
  - apply (round_le_Z 2 53 _ 100); [lia | lia | reflexivity |].
    change (inject_Z 100) with 100. lra.
Qed.

Lemma delegator_fee_after_unit (f : big.Float) :
  (1 <= big.prec f)%Z -> 0 <= big.val f -> big.val f <= 100 ->
  0 <= big.val (delegator_fee_after f) /\ big.val (delegator_fee_after f) <= 1.
Proof.
  intros Hp H0 H1. rewrite delegator_fee_after_value by lia. cbn [big.val].
  destruct (remaining_bounds 0 (big.val f) ltac:(lia) H0) as [Hr0 Hr1].
  { change (inject_Z 0) with 0. lra. }
  change (inject_Z 0) with 0 in Hr0.
  destruct (Qdiv_unit _ 100 Hr0 Hr1 ltac:(reflexivity)) as [Hq0 Hq1].
  split; [apply round_nonneg | apply round_le_one]; (lia || assumption).
Qed.

(** A fee that is already a fraction is left at 98 percent or more. *)
Lemma delegator_fee_after_high (f : big.Float) :
  (7 <= big.prec f)%Z -> 0 <= big.val f -> big.val f <= 1 ->
  49 # 50 <= big.val (delegator_fee_after f).
Proof.
  intros Hp H0 H1. rewrite delegator_fee_after_value by lia. cbn [big.val].
  destruct (remaining_bounds 99 (big.val f) ltac:(lia) H0) as [Hr0 Hr1].
  { change (inject_Z 99) with 99. lra. }
  change (inject_Z 99) with 99 in Hr0.
  set (r := round 2 53 (100 - big.val f)) in *.
  assert (Hq : 99 # 100 <= r / 100).
  { apply Qle_shift_div_l; [reflexivity|]. lra. }
  pose proof (round_close_at 7 (big.prec f) (r / 100) Hp) as Hc.
  apply close_bounds in Hc as [Hc _]; [|lra].
  change ((1 # 2) * Bpow 2 (1 - 7)) with ((1 # 2) * (1 # 64)) in Hc.
  lra.
Qed.

Lemma delegator_fee_after_prec (f : big.Float) :
  (1 <= big.prec f)%Z -> big.prec (delegator_fee_after f) = big.prec f.
Proof. intros Hp. rewrite delegator_fee_after_value by lia. reflexivity. Qed.

(** The fee after [n] delegator calls. *)
Lemma iterated_fee (f : big.Float) (n : nat) :
  (7 <= big.prec f)%Z -> 0 <= big.val f -> big.val f <= 100 ->
  let g := Nat.iter n delegator_fee_after f in
  big.prec g = big.prec f
  /\ 0 <= big.val g /\ big.val g <= 100
  /\ ((1 <= n)%nat -> big.val g <= 1)
  /\ ((2 <= n)%nat -> 49 # 50 <= big.val g).
Proof.
  intros Hp H0 H1. cbv zeta. induction n as [|n IH].
  - change (Nat.iter 0 delegator_fee_after f) with f.
    repeat split; try assumption; lia.
  - rewrite Nat.iter_succ. destruct IH as (Ep & G0 & G1 & G2 & G3).
    set (g := Nat.iter n delegator_fee_after f) in *.
    assert (Hpg : (1 <= big.prec g)%Z) by lia.
    destruct (delegator_fee_after_unit g Hpg G0 G1) as [U0 U1].
    split; [rewrite delegator_fee_after_prec by lia; exact Ep|].
    split; [exact U0|]. split; [lra|]. split; [intros _; exact U1|].
    intros Hn. apply delegator_fee_after_high; [lia | exact G0 | apply G2; lia].
Qed.

(** ** The floats of the rewards *)

Lemma validator_reward_float_value (z : Z) (f : big.Float) :
  big.val (validator_reward_float z f)
  = round 2 64 (round 2 64 (inject_Z z) * big.val (validator_fee_after f)).
Proof. reflexivity. Qed.

Lemma delegator_reward_float_value (w : big.Float) (z : Z) (f : big.Float) :
  big.val (delegator_reward_float w z f)
  = round 2 (Z.max 64 (big.prec w))
      (round 2 64 (round 2 64 (inject_Z z) * big.val (delegator_fee_after f))
       * big.val w).
Proof. reflexivity. Qed.

Lemma validator_reward_float_close (z : Z) (f : big.Float) :
  (53 <= big.prec f)%Z ->
  close (1 # 2 ^ 52) (inject_Z z * (big.val f / 100))
    (big.val (validator_reward_float z f)).
Proof.
  intros Hp. rewrite validator_reward_float_value.
  set (b := (1 # 2) * Bpow 2 (1 - 64)). set (e := 1 # 2 ^ 53).
  set (e1 := b + e + b * e).
  apply (close_weaken (e1 + b + e1 * b)); [qcmp|].
  apply (close_trans e1 b _
           (round 2 64 (inject_Z z) * big.val (validator_fee_after f)) _);
    [qcmp | qcmp | qcmp | |].
  - apply close_mul; [qcmp | qcmp | qcmp | |].
    + apply round_close. lia.
    + apply validator_fee_after_close, Hp.
  - apply round_close. lia.
Qed.

Lemma delegator_reward_float_close (w : big.Float) (z : Z) (f : big.Float) :
  (53 <= big.prec f)%Z ->
  close (1 # 2 ^ 50) (inject_Z z * ((100 - big.val f) / 100) * big.val w)
    (big.val (delegator_reward_float w z f)).
Proof.
  intros Hp. rewrite delegator_reward_float_value.
  set (b := (1 # 2) * Bpow 2 (1 - 64)). set (e := 1 # 2 ^ 51).
  set (e1 := b + e + b * e). set (e2 := e1 + b + e1 * b).
  apply (close_weaken (e2 + b + e2 * b)); [qcmp|].
  apply (close_trans e2 b _
           (round 2 64 (round 2 64 (inject_Z z) * big.val (delegator_fee_after f))
            * big.val w) _);
    [qcmp | qcmp | qcmp | |].
  - apply close_scale.
    apply (close_trans e1 b _
             (round 2 64 (inject_Z z) * big.val (delegator_fee_after f)) _);
      [qcmp | qcmp | qcmp | |].
    + apply close_mul; [qcmp | qcmp | qcmp | |].
      * apply round_close. lia.
      * apply delegator_fee_after_close, Hp.
    + apply round_close. lia.
  - apply round_close_at. lia.
Qed.

(** The number an amount holds after the ten-digit text. *)
Lemma amount_close (e : Q) (exact : Q) (x : big.Float) (n : Z) :
  0 <= e -> e <= 1 # 2 ^ 50 ->
  close e exact (big.val x) ->
  types.NewAmount (big.String x) = types.mkAmount (Some n) ->
  close (1 # 10 ^ 9) exact (inject_Z n).
Proof.
  intros He0 He Hc Hn. apply NewAmount_String in Hn as [Hn _]. rewrite <- Hn.
  set (d := (1 # 2) * Bpow 10 (1 - 10)). set (e0 := 1 # 2 ^ 50).
  apply (close_weaken (e0 + d + e0 * d)); [qcmp|].
  apply (close_trans e0 d _ (big.val x) _); [qcmp | qcmp | qcmp | |].
  - apply (close_weaken e); assumption.
  - apply round_close. lia.
Qed.

(** ** The zero test of [CalculateWeight] *)

Lemma wrap64_zero (z : Z) : big.wrap64 z = 0%Z <-> (z mod 2 ^ 64 = 0)%Z.
Proof.
  unfold big.wrap64.
  change (2 ^ 64)%Z with 18446744073709551616%Z.
  change (2 ^ 63)%Z with 9223372036854775808%Z.
  split; intros H; Z.to_euclidean_division_equations; lia.
Qed.

Lemma wrap64_bounds (z : Z) : (- 2 ^ 63 <= big.wrap64 z < 2 ^ 63)%Z.
Proof.
  unfold big.wrap64.
  change (2 ^ 64)%Z with 18446744073709551616%Z.
  change (2 ^ 63)%Z with 9223372036854775808%Z.
  Z.to_euclidean_division_equations; lia.
Qed.

Lemma Int64_zero (x : Z) : big.Int64 x = 0%Z <-> (x mod 2 ^ 64 = 0)%Z.
Proof.
  unfold big.Int64. cbv zeta.
  pose proof (wrap64_bounds (Z.abs x mod 2 ^ 64)) as Hb.
  pose proof (wrap64_zero (Z.abs x mod 2 ^ 64)) as Hv.
  pose proof (wrap64_zero (- big.wrap64 (Z.abs x mod 2 ^ 64))) as Hn.
  set (v := big.wrap64 (Z.abs x mod 2 ^ 64)) in *.
  set (nv := big.wrap64 (- v)) in *.
  change (2 ^ 64)%Z with 18446744073709551616%Z in *.
  change (2 ^ 63)%Z with 9223372036854775808%Z in *.
  destruct (Z.ltb_spec x 0) as [Hx|Hx].
  - rewrite Hn. split; intros H.
    + assert (Ev : v = 0%Z) by (Z.to_euclidean_division_equations; lia).
      apply Hv in Ev. Z.to_euclidean_division_equations; lia.
    + assert (Ev : v = 0%Z).
      { apply Hv. Z.to_euclidean_division_equations; lia. }
      rewrite Ev. reflexivity.
  - rewrite Hv. split; intros H; Z.to_euclidean_division_equations; lia.
Qed.

End calc_facts.

Section FurtherCalculations.

Import util scenario calc_facts.

Local Open Scope Q_scope.

(** X1. When the balance lies between zero and a total that passes the zero
    test, CalculateWeight returns a fresh float whose value lies between 0
    and 1: exactly 0 for a balance of zero and exactly 1 for the whole
    total. *)
Theorem weight_is_a_fraction_of_one (b t : Z) (h : heap) :
  (0 <= b <= t)%Z -> big.Int64 t <> 0%Z ->
  exists w : big.Float,
    CalculateWeight (amount b) (amount t) h
    = (Val (types.mkPercentage (Some (length h))), h ++ [w])
    /\ 0 <= big.val w /\ big.val w <= 1
    /\ (b = 0%Z -> big.val w = 0)
    /\ (b = t -> big.val w = 1).
Proof.
  intros Hb Ht. exists (weight_of b t).
  assert (Ht0 : (0 < t)%Z).
  { pose proof (util_facts.Int64_nonzero t Ht). lia. }
  split; [apply util_facts.CalculateWeight_run, Ht|].
  destruct (weight_of_unit b t Hb Ht0) as [H0 H1].
  split; [exact H0|]. split; [exact H1|]. split.
  - intros ->. apply weight_of_zero.
  - intros ->. apply weight_of_whole, Ht0.
Qed.

(** X2. For one positive total, CalculateWeight is monotone in the balance:
    of two balances the larger never gets the smaller weight, rounding
    included. *)
Theorem weight_grows_with_the_balance (b1 b2 t : Z) (h1 h2 : heap) :
  (b1 <= b2)%Z -> (0 < t)%Z -> big.Int64 t <> 0%Z ->
  exists w1 w2 : big.Float,
    CalculateWeight (amount b1) (amount t) h1
    = (Val (types.mkPercentage (Some (length h1))), h1 ++ [w1])
    /\ CalculateWeight (amount b2) (amount t) h2
       = (Val (types.mkPercentage (Some (length h2))), h2 ++ [w2])
    /\ big.val w1 <= big.val w2.
Proof.
  intros Hb Ht0 Ht. exists (weight_of b1 t), (weight_of b2 t).
  split; [apply util_facts.CalculateWeight_run, Ht|].
  split; [apply util_facts.CalculateWeight_run, Ht|].
  apply weight_of_mono; assumption.
Qed.

(** X3. None of the three calculations leaves a trace when it does not
    return a value: whatever the arguments, either the call returns a value
    or the heap is as it was, be the outcome an error or a panic. *)
Theorem failed_calculation_leaves_the_heap
    (balance total blockReward : types.Amount) (fee : types.Percentage)
    (weight : big.Float) (h : heap) :
  ((exists p, fst (CalculateWeight balance total h) = Val p)
   \/ snd (CalculateWeight balance total h) = h)
  /\ ((exists a, fst (CalculateValidatorReward blockReward fee h) = Val a)
      \/ snd (CalculateValidatorReward blockReward fee h) = h)
  /\ ((exists a, fst (CalculateDelegatorReward weight blockReward fee h) = Val a)
      \/ snd (CalculateDelegatorReward weight blockReward fee h) = h).
Proof.
  split; [|split].
  - destruct balance as [[b|]]; [|right; reflexivity].
    destruct total as [[t|]].
    + destruct (Z.eq_dec (big.Int64 t) 0%Z) as [E|E].
      * right. rewrite (util_facts.CalculateWeight_zero_total b t h E). reflexivity.
      * left. rewrite (util_facts.CalculateWeight_run b t h E). eexists. reflexivity.
    + right. rewrite util_facts.CalculateWeight_no_total. reflexivity.
  - destruct blockReward as [[z|]]; [|right; reflexivity].
    destruct fee as [[l|]].
    + destruct (h !! l) as [f|] eqn:Hl.
      * left. rewrite (util_facts.CalculateValidatorReward_run z (types.mkPercentage (Some l)) l f h
                   eq_refl Hl).
        eexists. reflexivity.
      * right. unfold CalculateValidatorReward.
        rewrite util_facts.SetString_amount. unfold bind, load. cbn [types.Float].
        rewrite Hl. reflexivity.
    + right. unfold CalculateValidatorReward.
      rewrite util_facts.SetString_amount. reflexivity.
  - destruct blockReward as [[z|]]; [|right; reflexivity].
    destruct fee as [[l|]].
    + destruct (h !! l) as [f|] eqn:Hl.
      * left.
        rewrite (util_facts.CalculateDelegatorReward_run weight z
                   (types.mkPercentage (Some l)) l f h eq_refl Hl).
        eexists. reflexivity.
      * right. unfold CalculateDelegatorReward.
        rewrite util_facts.SetString_amount. unfold bind, load. cbn [types.Float].
        rewrite Hl. reflexivity.
    + right. unfold CalculateDelegatorReward.
      rewrite util_facts.SetString_amount. reflexivity.
Qed.

(** X4. The amount a reward calculation returns holds the number [n]
    exactly when the float it computed, rounded to ten significant decimal
    digits, is the integer [n], and [n] has at most ten digits: the float
    goes through its ten-digit text, and a text with a fraction or an
    exponent is no integer.  (NewAmount is the one modelled above: it holds
    a number exactly when the text is a decimal integer.) *)
Theorem reward_holds_a_number_iff (weight : big.Float) (z : Z)
    (fee : types.Percentage) (l : loc) (f : big.Float) (h : heap) (n : Z) :
  types.Float fee = Some l -> h !! l = Some f ->
  (fst (CalculateValidatorReward (amount z) fee h) = Val (amount n)
   <-> sig.round 10 10 (big.val (validator_reward_float z f)) = inject_Z n
       /\ (Z.abs n < 10 ^ 10)%Z)
  /\ (fst (CalculateDelegatorReward weight (amount z) fee h) = Val (amount n)
      <-> sig.round 10 10 (big.val (delegator_reward_float weight z f)) = inject_Z n
          /\ (Z.abs n < 10 ^ 10)%Z).
Proof.
  intros Hfee Hl. split.
  - unfold amount at 1.
    rewrite (util_facts.CalculateValidatorReward_run z fee l f h Hfee Hl).
    cbn [fst]. fold (validator_reward_float z f).
    rewrite <- NewAmount_String. unfold amount.
    split; [intros E; congruence | intros ->; reflexivity].
  - unfold amount at 1.
    rewrite (util_facts.CalculateDelegatorReward_run weight z fee l f h Hfee Hl).
    cbn [fst]. fold (delegator_reward_float weight z f).
    rewrite <- NewAmount_String. unfold amount.
    split; [intros E; congruence | intros ->; reflexivity].
Qed.

(** X5. The validator reward of a first call: with a fee of at least 53
    bits behind the pointer, the float whose text becomes the reward agrees
    with blockReward * fee / 100 to a relative error of 2^-52, and a number
    the returned amount holds agrees with it to 1e-9. *)
Theorem validator_reward_accuracy (z : Z) (fee : types.Percentage) (l : loc)
    (f : big.Float) (h : heap) :
  types.Float fee = Some l -> h !! l = Some f -> (53 <= big.prec f)%Z ->
  exists x : big.Float,
    CalculateValidatorReward (amount z) fee h
    = (Val (types.NewAmount (big.String x)), <[l := validator_fee_after f]> h)
    /\ close (1 # 2 ^ 52) (inject_Z z * (big.val f / 100)) (big.val x)
    /\ forall n, types.NewAmount (big.String x) = amount n ->
                 close (1 # 10 ^ 9) (inject_Z z * (big.val f / 100)) (inject_Z n).
Proof.
  intros Hfee Hl Hp. exists (validator_reward_float z f).
  split; [apply (util_facts.CalculateValidatorReward_run z fee l f h Hfee Hl)|].
  pose proof (validator_reward_float_close z f Hp) as Hc.
  split; [exact Hc|]. intros n Hn.
  apply (amount_close (1 # 2 ^ 52) _ (validator_reward_float z f) n);
    [qcmp | qcmp | exact Hc | exact Hn].
Qed.

(** X6. The delegator reward of a first call: with a fee of at least 53
    bits behind the pointer, the float whose text becomes the reward agrees
    with blockReward * (100 - fee) / 100 * weight to a relative error of
    2^-50, and a number the returned amount holds agrees with it to 1e-9. *)
Theorem delegator_reward_accuracy (weight : big.Float) (z : Z)
    (fee : types.Percentage) (l : loc) (f : big.Float) (h : heap) :
  types.Float fee = Some l -> h !! l = Some f -> (53 <= big.prec f)%Z ->
  exists x : big.Float,
    CalculateDelegatorReward weight (amount z) fee h
    = (Val (types.NewAmount (big.String x)), <[l := delegator_fee_after f]> h)
    /\ close (1 # 2 ^ 50)
         (inject_Z z * ((100 - big.val f) / 100) * big.val weight) (big.val x)
    /\ forall n, types.NewAmount (big.String x) = amount n ->
                 close (1 # 10 ^ 9)
                   (inject_Z z * ((100 - big.val f) / 100) * big.val weight)
                   (inject_Z n).
Proof.
  intros Hfee Hl Hp. exists (delegator_reward_float weight z f).
  split; [apply (util_facts.CalculateDelegatorReward_run weight z fee l f h Hfee Hl)|].
  pose proof (delegator_reward_float_close weight z f Hp) as Hc.
  split; [exact Hc|]. intros n Hn.
  apply (amount_close (1 # 2 ^ 50) _ (delegator_reward_float weight z f) n);
    [qcmp | qcmp | exact Hc | exact Hn].
Qed.

(** X7. A fee given as a percentage comes back as a fraction: after either
    reward calculation the cell behind the fee pointer, which held a value
    between 0 and 100, holds one between 0 and 1 at the same precision, and
    no other cell of the heap has changed. *)
Theorem reward_call_leaves_a_fraction (weight : big.Float) (z : Z)
    (fee : types.Percentage) (l : loc) (f : big.Float) (h : heap) :
  types.Float fee = Some l -> h !! l = Some f ->
  (1 <= big.prec f)%Z -> 0 <= big.val f -> big.val f <= 100 ->
  forall h',
    h' = snd (CalculateValidatorReward (amount z) fee h)
    \/ h' = snd (CalculateDelegatorReward weight (amount z) fee h) ->
    length h' = length h
    /\ (forall l', l' <> l -> h' !! l' = h !! l')
    /\ exists f', h' !! l = Some f' /\ big.prec f' = big.prec f
                  /\ 0 <= big.val f' /\ big.val f' <= 1.
Proof.
  intros Hfee Hl Hp H0 H1 h' Hh'.
  pose proof (lookup_lt_Some _ _ _ Hl) as Hlt.
  assert (E : exists g, h' = <[l := g]> h /\ big.prec g = big.prec f
                        /\ 0 <= big.val g /\ big.val g <= 1).
  { destruct Hh' as [-> | ->]; unfold amount.
    - rewrite (util_facts.CalculateValidatorReward_run z fee l f h Hfee Hl).
      exists (validator_fee_after f). split; [reflexivity|].
      split; [rewrite validator_fee_after_value by lia; reflexivity|].
      apply validator_fee_after_unit; assumption.
    - rewrite (util_facts.CalculateDelegatorReward_run weight z fee l f h Hfee Hl).
      exists (delegator_fee_after f). split; [reflexivity|].
      split; [apply delegator_fee_after_prec; lia|].
      apply delegator_fee_after_unit; assumption. }
  destruct E as (g & -> & Eg & G0 & G1).
  split; [apply length_insert|]. split.
  - intros l' Hne. apply list_lookup_insert_ne. congruence.
  - exists g. split; [apply list_lookup_insert_eq; exact Hlt|]. auto.
Qed.

(** X17. The zero test of CalculateWeight reads the total through Int64,
    which keeps the low 64 bits: the call ends with the error "total staked
    amount can not be zero" exactly for the totals that are multiples of
    2^64, zero among them, and the heap is then as it was. *)
Theorem zero_test_rejects_the_multiples_of_2_64 (b t : Z) (h : heap) :
  CalculateWeight (amount b) (amount t) h
  = (Err (errors.New "total staked amount can not be zero"), h)
  <-> (t mod 2 ^ 64 = 0)%Z.
Proof.
  rewrite <- Int64_zero. split.
  - intros E. destruct (Z.eq_dec (big.Int64 t) 0%Z) as [E0|E0]; [exact E0|].
    unfold amount in E. rewrite (util_facts.CalculateWeight_run b t h E0) in E.
    discriminate E.
  - apply util_facts.CalculateWeight_zero_total.
Qed.

(** X18. The fee pointer is followed unchecked, after the block reward has
    been read: with a nil fee pointer both reward calculations panic for
    every block reward that holds a number, and return their error for one
    that holds none; the heap is as it was in all four cases. *)
Theorem nil_fee_pointer_panics (weight : big.Float) (fee : types.Percentage)
    (h : heap) :
  types.Float fee = None ->
  (forall z,
      CalculateValidatorReward (amount z) fee h = (Panic, h)
      /\ CalculateDelegatorReward weight (amount z) fee h = (Panic, h))
  /\ CalculateValidatorReward (types.mkAmount None) fee h
     = (Err (errors.New "error with block reward amount"), h)
  /\ CalculateDelegatorReward weight (types.mkAmount None) fee h
     = (Err (errors.New "error with stake amount"), h).
Proof.
  intros Hfee. split; [|split; reflexivity].
  intros z. unfold amount, CalculateValidatorReward, CalculateDelegatorReward.
  rewrite util_facts.SetString_amount, Hfee. split; reflexivity.
Qed.

End FurtherCalculations.

(** *** The theorems at work *)

Lemma weight_is_a_fraction_of_one_witness :
  (0 <= 600 <= 1000)%Z /\ big.Int64 1000 <> 0%Z
  /\ exists w : big.Float,
       util.CalculateWeight (scenario.amount 600) (scenario.amount 1000) []
       = (Val (types.mkPercentage (Some (length (@nil big.Float)))), [] ++ [w])
       /\ (0 <= big.val w)%Q /\ (big.val w <= 1)%Q
       /\ (600 = 0 -> big.val w = 0%Q)
       /\ (600 = 1000 -> big.val w = 1%Q).
Proof.
  split; [lia|]. split; [vm_compute; discriminate|].
  apply (weight_is_a_fraction_of_one 600 1000 []); [lia | vm_compute; discriminate].
Defined.

Lemma weight_grows_with_the_balance_witness :
  (400 <= 600)%Z /\ (0 < 1000)%Z /\ big.Int64 1000 <> 0%Z
  /\ exists w1 w2 : big.Float,
       util.CalculateWeight (scenario.amount 400) (scenario.amount 1000) []
       = (Val (types.mkPercentage (Some (length (@nil big.Float)))), [] ++ [w1])
       /\ util.CalculateWeight (scenario.amount 600) (scenario.amount 1000) []
          = (Val (types.mkPercentage (Some (length (@nil big.Float)))), [] ++ [w2])
       /\ (big.val w1 <= big.val w2)%Q.
Proof.
  split; [lia|]. split; [lia|]. split; [vm_compute; discriminate|].
  apply (weight_grows_with_the_balance 400 600 1000 [] []);
    [lia | lia | vm_compute; discriminate].
Defined.

Lemma reward_holds_a_number_iff_witness :
  types.Float scenario.fee = Some 0%nat
  /\ mem scenario.world !! 0%nat = Some (big.mkFloat 64 10)
  /\ (fst (util.CalculateValidatorReward (scenario.amount 100) scenario.fee
             (mem scenario.world)) = Val (scenario.amount 10)
      <-> sig.round 10 10
            (big.val (validator_reward_float 100 (big.mkFloat 64 10)))
          = inject_Z 10
          /\ (Z.abs 10 < 10 ^ 10)%Z)
  /\ (fst (util.CalculateDelegatorReward (big.mkFloat 64 (3 # 5))
             (scenario.amount 100) scenario.fee (mem scenario.world))
      = Val (scenario.amount 10)
      <-> sig.round 10 10
            (big.val (delegator_reward_float (big.mkFloat 64 (3 # 5)) 100
                        (big.mkFloat 64 10)))
          = inject_Z 10
          /\ (Z.abs 10 < 10 ^ 10)%Z).
Proof.
  split; [reflexivity|]. split; [reflexivity|].
  apply (reward_holds_a_number_iff (big.mkFloat 64 (3 # 5)) 100 scenario.fee 0%nat
           (big.mkFloat 64 10) (mem scenario.world) 10); reflexivity.
Defined.

Lemma validator_reward_accuracy_witness :
  types.Float scenario.fee = Some 0%nat
  /\ mem scenario.world !! 0%nat = Some (big.mkFloat 64 10)
  /\ (53 <= big.prec (big.mkFloat 64 10))%Z
  /\ exists x : big.Float,
       util.CalculateValidatorReward (scenario.amount 100) scenario.fee
         (mem scenario.world)
       = (Val (types.NewAmount (big.String x)),
          <[0%nat := validator_fee_after (big.mkFloat 64 10)]> (mem scenario.world))
       /\ close (1 # 2 ^ 52) (inject_Z 100 * (big.val (big.mkFloat 64 10) / 100))
            (big.val x)
       /\ forall n, types.NewAmount (big.String x) = scenario.amount n ->
                    close (1 # 10 ^ 9)
                      (inject_Z 100 * (big.val (big.mkFloat 64 10) / 100))
                      (inject_Z n).
Proof.
  split; [reflexivity|]. split; [reflexivity|]. split; [cbn; lia|].
  apply (validator_reward_accuracy 100 scenario.fee 0%nat (big.mkFloat 64 10)
           (mem scenario.world)); [reflexivity | reflexivity | cbn; lia].
Defined.

Lemma delegator_reward_accuracy_witness :
  types.Float scenario.fee = Some 0%nat
  /\ mem scenario.world !! 0%nat = Some (big.mkFloat 64 10)
  /\ (53 <= big.prec (big.mkFloat 64 10))%Z
  /\ exists x : big.Float,
       util.CalculateDelegatorReward (big.mkFloat 64 (3 # 5)) (scenario.amount 100)
         scenario.fee (mem scenario.world)
       = (Val (types.NewAmount (big.String x)),
          <[0%nat := delegator_fee_after (big.mkFloat 64 10)]> (mem scenario.world))
       /\ close (1 # 2 ^ 50)
            (inject_Z 100 * ((100 - big.val (big.mkFloat 64 10)) / 100)
             * big.val (big.mkFloat 64 (3 # 5)))
            (big.val x)
       /\ forall n, types.NewAmount (big.String x) = scenario.amount n ->
                    close (1 # 10 ^ 9)
                      (inject_Z 100 * ((100 - big.val (big.mkFloat 64 10)) / 100)
                       * big.val (big.mkFloat 64 (3 # 5)))
                      (inject_Z n).
Proof.
  split; [reflexivity|]. split; [reflexivity|]. split; [cbn; lia|].
  apply (delegator_reward_accuracy (big.mkFloat 64 (3 # 5)) 100 scenario.fee 0%nat
           (big.mkFloat 64 10) (mem scenario.world));
    [reflexivity | reflexivity | cbn; lia].
Defined.

Lemma reward_call_leaves_a_fraction_witness :
  types.Float scenario.fee = Some 0%nat
  /\ mem scenario.world !! 0%nat = Some (big.mkFloat 64 10)
  /\ (1 <= big.prec (big.mkFloat 64 10))%Z
  /\ (0 <= big.val (big.mkFloat 64 10))%Q
  /\ (big.val (big.mkFloat 64 10) <= 100)%Q
  /\ forall h',
       h' = snd (util.CalculateValidatorReward (scenario.amount 100) scenario.fee
                   (mem scenario.world))
       \/ h' = snd (util.CalculateDelegatorReward (big.mkFloat 64 (3 # 5))
                      (scenario.amount 100) scenario.fee (mem scenario.world)) ->
       length h' = length (mem scenario.world)
       /\ (forall l', l' <> 0%nat -> h' !! l' = mem scenario.world !! l')
       /\ exists f', h' !! 0%nat = Some f'
                     /\ big.prec f' = big.prec (big.mkFloat 64 10)
                     /\ (0 <= big.val f')%Q /\ (big.val f' <= 1)%Q.
Proof.
  split; [reflexivity|]. split; [reflexivity|]. split; [cbn; lia|].
  split; [discriminate|]. split; [discriminate|].
  apply (reward_call_leaves_a_fraction (big.mkFloat 64 (3 # 5)) 100 scenario.fee
           0%nat (big.mkFloat 64 10) (mem scenario.world));
    [reflexivity | reflexivity | cbn; lia | discriminate | discriminate].
Defined.

Lemma nil_fee_pointer_panics_witness :
  types.Float (types.mkPercentage None) = None
  /\ ((forall z,
         util.CalculateValidatorReward (scenario.amount z) (types.mkPercentage None)
           (mem scenario.world)
         = (Panic, mem scenario.world)
         /\ util.CalculateDelegatorReward (big.mkFloat 64 (3 # 5)) (scenario.amount z)
              (types.mkPercentage None) (mem scenario.world)
            = (Panic, mem scenario.world))
      /\ util.CalculateValidatorReward (types.mkAmount None) (types.mkPercentage None)
           (mem scenario.world)
         = (Err (errors.New "error with block reward amount"), mem scenario.world)
      /\ util.CalculateDelegatorReward (big.mkFloat 64 (3 # 5)) (types.mkAmount None)
           (types.mkPercentage None) (mem scenario.world)
         = (Err (errors.New "error with stake amount"), mem scenario.world)).
Proof.
  split; [reflexivity|].
  apply (nil_fee_pointer_panics (big.mkFloat 64 (3 # 5)) (types.mkPercentage None)
           (mem scenario.world)).
  reflexivity.
Defined.

(** * Further properties of the distribution run *)

Module loop_facts.

Import model indexing.

(** ** Lines 76 to 79: the weights by public key *)

Lemma weights_by_key_step (r : LedgerEntry) (rest : list LedgerEntry)
    (m : gmap string big.Float) (h : heap) (w : big.Float) :
  weight_at h r = Some w ->
  weights_by_key (r :: rest) m h = weights_by_key rest (<[PublicKey r := w]> m) h.
Proof.
  unfold weight_at. intros Hw. cbn [weights_by_key]. unfold bind, load.
  destruct (types.Float (Weight r)) as [l|]; [|discriminate].
  rewrite Hw. reflexivity.
Qed.

Lemma weights_by_key_stop (r : LedgerEntry) (rest : list LedgerEntry)
    (m : gmap string big.Float) (h : heap) :
  weight_at h r = None -> weights_by_key (r :: rest) m h = (Panic, h).
Proof.
  unfold weight_at. intros Hw. cbn [weights_by_key]. unfold bind, load.
  destruct (types.Float (Weight r)) as [l|]; [|reflexivity].
  rewrite Hw. reflexivity.
Qed.

Lemma weights_by_key_heap (records : list LedgerEntry) :
  forall (m : gmap string big.Float) (h : heap),
    snd (weights_by_key records m h) = h.
Proof.
  induction records as [|r rest IH]; intros m h; [reflexivity|].
  destruct (weight_at h r) as [w|] eqn:Hw.
  - rewrite (weights_by_key_step r rest m h w Hw). apply IH.
  - rewrite (weights_by_key_stop r rest m h Hw). reflexivity.
Qed.

Lemma weights_by_key_run (records : list LedgerEntry) :
  forall (m : gmap string big.Float) (h : heap),
    Forall (fun r => is_Some (weight_at h r)) records ->
    exists m',
      weights_by_key records m h = (Val m', h)
      /\ (forall k, Forall (fun r => PublicKey r <> k) records -> m' !! k = m !! k)
      /\ (forall pre r post,
            records = pre ++ r :: post ->
            Forall (fun r' => PublicKey r' <> PublicKey r) post ->
            m' !! PublicKey r = weight_at h r).
Proof.
  induction records as [|r0 rest IH]; intros m h Hall.
  - exists m. split; [reflexivity|]. split; [reflexivity|].
    intros [|? ?] r post E; discriminate E.
  - apply Forall_cons in Hall as [[w0 Hw0] Hrest].
    destruct (IH (<[PublicKey r0 := w0]> m) h Hrest) as (m' & Erun & Ekeep & Elast).
    exists m'. split; [rewrite (weights_by_key_step r0 rest m h w0 Hw0); exact Erun|].
    split.
    + intros k Hk. apply Forall_cons in Hk as [Hk0 Hk].
      rewrite (Ekeep k Hk). apply lookup_insert_ne. exact Hk0.
    + intros [|p pre] r post E Hpost.
      * cbn [app] in E. injection E as <- <-.
        rewrite (Ekeep (PublicKey r0) Hpost), lookup_insert_eq. symmetry. exact Hw0.
      * cbn [app] in E. injection E as <- ->. apply (Elast pre r post eq_refl Hpost).
Qed.

Lemma weights_by_key_panics (pre : list LedgerEntry) (r : LedgerEntry)
    (post : list LedgerEntry) :
  forall (m : gmap string big.Float) (h : heap),
    Forall (fun r' => is_Some (weight_at h r')) pre ->
    weight_at h r = None ->
    weights_by_key (pre ++ r :: post) m h = (Panic, h).
Proof.
  induction pre as [|p pre IH]; intros m h Hpre Hr.
  - apply weights_by_key_stop, Hr.
  - apply Forall_cons in Hpre as [[w Hw] Hpre]. cbn [app].
    rewrite (weights_by_key_step p _ m h w Hw). apply IH; assumption.
Qed.

(** ** Lines 85 to 97: the reward of every delegator *)

Lemma delegator_rewards_run (m : gmap string big.Float) (z : Z)
    (fee : types.Percentage) (l : loc) (dbrs : list BlockReward) :
  types.Float fee = Some l ->
  Forall (fun d => is_Some (m !! OwnerAccount d)) dbrs ->
  forall (f : big.Float) (h : heap),
    h !! l = Some f ->
    exists ds,
      delegator_rewards m (types.mkAmount (Some z)) fee dbrs h
      = (Val ds, <[l := Nat.iter (length dbrs) delegator_fee_after f]> h)
      /\ length ds = length dbrs
      /\ forall i d w,
           dbrs !! i = Some d -> m !! OwnerAccount d = Some w ->
           ds !! i
           = Some (set_Reward d
                     (types.NewAmount
                        (big.String
                           (delegator_reward_float w z
                              (Nat.iter i delegator_fee_after f))))).
Proof.
  intros Hfee Hall. induction Hall as [|d rest [w Hw] Hrest IH]; intros f h Hl.
  - exists []. split.
    + cbn [delegator_rewards length]. change (Nat.iter 0 delegator_fee_after f) with f.
      rewrite list_insert_id by exact Hl. reflexivity.
    + split; [reflexivity|]. intros i d w Hd. rewrite lookup_nil in Hd. discriminate.
  - pose proof (lookup_lt_Some _ _ _ Hl) as Hlt.
    assert (Hl1 : <[l := delegator_fee_after f]> h !! l = Some (delegator_fee_after f))
      by (apply list_lookup_insert_eq; exact Hlt).
    destruct (IH (delegator_fee_after f) _ Hl1) as (ds & Erun & Elen & Eith).
    exists (set_Reward d
              (types.NewAmount (big.String (delegator_reward_float w z f))) :: ds).
    split.
    + cbn [delegator_rewards]. rewrite Hw. unfold bind at 1.
      rewrite (util_facts.CalculateDelegatorReward_run w z fee l f h Hfee Hl).
      cbv beta iota. unfold bind at 1. rewrite Erun. cbv beta iota.
      rewrite list_insert_insert_eq. cbn [length]. rewrite Nat.iter_succ_r.
      reflexivity.
    + split; [cbn [length]; congruence|]. intros [|i] d' w' Hd' Hw'.
      * cbn in Hd'. injection Hd' as <-. rewrite Hw in Hw'. injection Hw' as <-.
        reflexivity.
      * cbn in Hd'. change ((?x :: ds) !! S i) with (ds !! i).
        rewrite (Eith i d' w' Hd' Hw'), Nat.iter_succ_r. reflexivity.
Qed.

Lemma delegator_rewards_stop (m : gmap string big.Float) (z : Z)
    (fee : types.Percentage) (l : loc) (pre : list BlockReward) (d : BlockReward)
    (post : list BlockReward) :
  types.Float fee = Some l ->
  Forall (fun d' => is_Some (m !! OwnerAccount d')) pre ->
  m !! OwnerAccount d = None ->
  forall (f : big.Float) (h : heap),
    h !! l = Some f ->
    delegator_rewards m (types.mkAmount (Some z)) fee (pre ++ d :: post) h
    = (Err (errors.New ("record is not found for " +:+ OwnerAccount d)),
       <[l := Nat.iter (length pre) delegator_fee_after f]> h).
Proof.
  intros Hfee Hpre Hd. induction Hpre as [|p pre [w Hw] Hpre IH]; intros f h Hl.
  - cbn [app delegator_rewards length]. rewrite Hd.
    change (Nat.iter 0 delegator_fee_after f) with f.
    rewrite list_insert_id by exact Hl. reflexivity.
  - pose proof (lookup_lt_Some _ _ _ Hl) as Hlt.
    assert (Hl1 : <[l := delegator_fee_after f]> h !! l = Some (delegator_fee_after f))
      by (apply list_lookup_insert_eq; exact Hlt).
    cbn [app delegator_rewards]. rewrite Hw. unfold bind at 1.
    rewrite (util_facts.CalculateDelegatorReward_run w z fee l f h Hfee Hl).
    cbv beta iota. unfold bind at 1. rewrite (IH _ _ Hl1). cbv beta iota.
    rewrite list_insert_insert_eq. cbn [length]. rewrite Nat.iter_succ_r.
    reflexivity.
Qed.

End loop_facts.

Section FurtherLoops.

Import model indexing scenario loop_facts calc_facts.

(** X8. The loop over the delegator rewards hands the fee from call to
    call.  With the fee behind a valid pointer and a weight on record for
    every owner, the loop returns the same records in the same order, each
    keeping its owner and owner type; the reward at position [i] is computed
    from the fee as [i] earlier calls left it, not from the fee of the
    store; and the cell ends as the fee after as many calls as there are
    records, every other cell being as it was. *)
Theorem delegator_rewards_thread_the_fee (m : gmap string big.Float) (z : Z)
    (fee : types.Percentage) (l : loc) (f : big.Float) (h : heap)
    (dbrs : list BlockReward) :
  types.Float fee = Some l -> h !! l = Some f ->
  Forall (fun d => is_Some (m !! OwnerAccount d)) dbrs ->
  exists ds,
    delegator_rewards m (amount z) fee dbrs h
    = (Val ds, <[l := Nat.iter (length dbrs) delegator_fee_after f]> h)
    /\ OwnerAccount <$> ds = OwnerAccount <$> dbrs
    /\ OwnerType <$> ds = OwnerType <$> dbrs
    /\ forall i d w,
         dbrs !! i = Some d -> m !! OwnerAccount d = Some w ->
         Reward <$> ds !! i
         = Some (types.NewAmount
                   (big.String
                      (delegator_reward_float w z
                         (Nat.iter i delegator_fee_after f)))).
Proof.
  intros Hfee Hl Hall.
  destruct (delegator_rewards_run m z fee l dbrs Hfee Hall f h Hl)
    as (ds & Erun & Elen & Eith).
  exists ds. split; [exact Erun|].
  assert (Hsame : forall i, (OwnerAccount <$> ds) !! i = (OwnerAccount <$> dbrs) !! i
                            /\ (OwnerType <$> ds) !! i = (OwnerType <$> dbrs) !! i).
  { intros i. rewrite !list_lookup_fmap. destruct (dbrs !! i) as [d|] eqn:Hd.
    - destruct (proj1 (Forall_lookup _ _) Hall i d Hd) as [w Hw].
      rewrite (Eith i d w Hd Hw). split; reflexivity.
    - apply lookup_ge_None in Hd. rewrite <- Elen in Hd.
      apply lookup_ge_None in Hd. rewrite Hd. split; reflexivity. }
  split; [apply list_eq; intros i; apply Hsame|].
  split; [apply list_eq; intros i; apply Hsame|].
  intros i d w Hd Hw. rewrite (Eith i d w Hd Hw). reflexivity.
Qed.

(** X9. A delegator reward whose owner has no weight on record stops the
    loop with the error "record is not found for " followed by the owner's
    account.  The rewards computed before it are dropped, but the fee is
    not put back: the cell holds the fee after the calls already made. *)
Theorem missing_weight_stops_the_split (m : gmap string big.Float) (z : Z)
    (fee : types.Percentage) (l : loc) (f : big.Float) (h : heap)
    (pre : list BlockReward) (d : BlockReward) (post : list BlockReward) :
  types.Float fee = Some l -> h !! l = Some f ->
  Forall (fun d' => is_Some (m !! OwnerAccount d')) pre ->
  m !! OwnerAccount d = None ->
  delegator_rewards m (amount z) fee (pre ++ d :: post) h
  = (Err (errors.New ("record is not found for " +:+ OwnerAccount d)),
     <[l := Nat.iter (length pre) delegator_fee_after f]> h).
Proof.
  intros Hfee Hl Hpre Hd.
  apply (delegator_rewards_stop m z fee l pre d post Hfee Hpre Hd f h Hl).
Qed.

(** X10. After two or more delegators the fee of the store is forgotten:
    whatever fee between 0 and 100 the cell held, kept at seven bits or
    more, the loop leaves a value between 0.98 and 1 there, which is what
    the validator reward is then computed from. *)
Theorem fee_is_forgotten_after_two_delegators (m : gmap string big.Float) (z : Z)
    (fee : types.Percentage) (l : loc) (f : big.Float) (h : heap)
    (dbrs : list BlockReward) :
  types.Float fee = Some l -> h !! l = Some f ->
  (7 <= big.prec f)%Z -> (0 <= big.val f)%Q -> (big.val f <= 100)%Q ->
  Forall (fun d => is_Some (m !! OwnerAccount d)) dbrs ->
  (2 <= length dbrs)%nat ->
  exists f',
    snd (delegator_rewards m (amount z) fee dbrs h) !! l = Some f'
    /\ (49 # 50 <= big.val f')%Q /\ (big.val f' <= 1)%Q.
Proof.
  intros Hfee Hl Hp H0 H1 Hall Hlen.
  destruct (delegator_rewards_run m z fee l dbrs Hfee Hall f h Hl)
    as (ds & Erun & _).
  unfold amount. rewrite Erun. cbn [snd].
  exists (Nat.iter (length dbrs) delegator_fee_after f).
  split; [apply list_lookup_insert_eq, (lookup_lt_Some _ _ _ Hl)|].
  destruct (iterated_fee f (length dbrs) Hp H0 H1) as (_ & _ & _ & G1 & G2).
  split; [apply G2; exact Hlen | apply G1; lia].
Qed.

(** X11. The map of weights is built from the records in order and never
    writes the heap: when every record has a weight to read, the weight on
    record for a public key is that of the last record with that key, and a
    key no record has keeps what the map held. *)
Theorem weights_by_key_last_record_wins (records : list LedgerEntry)
    (m : gmap string big.Float) (h : heap) :
  Forall (fun r => is_Some (weight_at h r)) records ->
  exists m',
    weights_by_key records m h = (Val m', h)
    /\ (forall k, Forall (fun r => PublicKey r <> k) records -> m' !! k = m !! k)
    /\ (forall pre r post,
          records = pre ++ r :: post ->
          Forall (fun r' => PublicKey r' <> PublicKey r) post ->
          m' !! PublicKey r = weight_at h r).
Proof. apply weights_by_key_run. Qed.

(** X12. A record whose weight was never set, its pointer nil or dangling,
    makes the pass over the records panic at that record, the heap being as
    it was. *)
Theorem record_without_weight_panics (pre : list LedgerEntry) (r : LedgerEntry)
    (post : list LedgerEntry) (m : gmap string big.Float) (h : heap) :
  Forall (fun r' => is_Some (weight_at h r')) pre ->
  weight_at h r = None ->
  weights_by_key (pre ++ r :: post) m h = (Panic, h).
Proof. apply weights_by_key_panics. Qed.

End FurtherLoops.

Section FurtherOrchestration.

Import model indexing scenario loop_facts.

Variable co : Collaborators.

(** A block reward that holds a number has its three components. *)
Lemma block_reward_components (block : Block) (z : Z) :
  types.Sub (types.Add (Coinbase block) (TransactionsFees block))
    (SnarkJobsFees block) = amount z ->
  components_present block.
Proof.
  unfold components_present, is_nil, types.Sub, types.Add.
  destruct (types.Int (Coinbase block));
    destruct (types.Int (TransactionsFees block));
    destruct (types.Int (SnarkJobsFees block)); cbn [types.Int];
    intros E; try discriminate E; repeat split; reflexivity.
Qed.

(** The run up to the lookup of the first block of the epoch. *)
Lemma run_to_first_slot (db : store.Store) (block : Block) (w : World)
    (ve : ValidatorEpoch) (rest : list ValidatorEpoch) (led : Ledger)
    (recs : list LedgerEntry) (rerr : option error) (r : outcome unit) :
  components_present block ->
  store.GetValidatorEpochs db (Itoa (Epoch block)) (Creator block)
  = (ve :: rest, None) ->
  store.FindLedger db (Epoch block) = (Some led, None) ->
  store.LedgerRecords db (ID led) = (recs, rerr) ->
  other_error rerr = None ->
  (exists e, first_slot_of_epoch db block w = (Err e, w) /\ r = Err e)
  \/ (first_slot_of_epoch db block w = (Panic, w) /\ r = Panic) ->
  RewardCalculation co db block w = (r, w).
Proof.
  intros Hc Hfee Hled Hrec Herr Hslot. unfold RewardCalculation.
  rewrite (guard_passed _ Hc), Hfee, Hled. cbn [other_error].
  unfold bind at 1. cbn [deref ret]. rewrite Hrec, Herr.
  unfold bind at 1.
  destruct Hslot as [(e & -> & ->) | [-> ->]]; reflexivity.
Qed.

(** X13. A run that returns nil has either changed nothing, because a
    reward component was absent or, the fee being found, the ledger lookup
    reported NotFound; or imported exactly two batches, both accepted by the
    store.  The first is the batch of delegator rewards the run itself
    computed, from its own lookups, its weight pass and its loop over the
    delegator rewards; the second is the one validator reward, the record
    of the mapper with the amount CalculateValidatorReward returns for the
    block reward and the fee of the block on the heap the split left; and
    the world ends with the heap of that call. *)
Theorem successful_run_imports_both_batches_or_nothing
    (db : store.Store) (block : Block) (w w' : World) :
  RewardCalculation co db block w = (Val tt, w') ->
  (w' = w
   /\ ((types.Int (Coinbase block) = None
        \/ types.Int (TransactionsFees block) = None
        \/ types.Int (SnarkJobsFees block) = None)
       \/ (fee_found db block
           /\ exists ledger,
                store.FindLedger db (Epoch block) = (ledger, Some ErrNotFound))))
  \/ exists creatorFee ds h v reward h',
       split_completed co db block w creatorFee ds h
       /\ store.ImportRefused db ds = None
       /\ ValidatorBlockReward co block = inr v
       /\ util.CalculateValidatorReward (block_reward block) creatorFee h
          = (Val reward, h')
       /\ store.ImportRefused db [set_Reward v reward] = None
       /\ w' = mkWorld h' (imported w ++ [ds; [set_Reward v reward]]).
Proof.
  intros H.
  destruct (run_split co db block w w' (Val tt) H)
    as [[_ Hstop] | (fee & ds & h & Hs & Hrun)];
    [left; apply Hstop; reflexivity|].
  bind_step Hrun E7 u wg; [|impossible Hrun..].
  apply Import_accepted in E7 as [Hacc ->]. cbn [mem imported] in Hrun.
  destruct (validator_stage_inv co _ _ _ _ _ _ _ Hrun)
    as [[Hne _] | [_ (v & reward & h' & Hv & Hcalc & Hacc' & ->)]];
    [contradiction|].
  cbn [mem imported] in Hcalc.
  right. exists fee, ds, h, v, reward, h'.
  split; [exact Hs|]. split; [exact Hacc|]. split; [exact Hv|].
  split; [exact Hcalc|]. split; [exact Hacc'|].
  cbn [imported]. rewrite <- app_assoc. reflexivity.
Qed.

(** X14. An error of the store other than NotFound comes back from the run
    as it is, with the world untouched, at each of the four lookups: the
    validator fee, the ledger, the records of the ledger and the first block
    of the epoch.  A NotFound that the fee lookup reports next to a row
    comes back as well. *)
Theorem store_errors_come_back_unchanged
    (db : store.Store) (block : Block) (w : World) (e : error) :
  components_present block -> e <> ErrNotFound ->
  (forall rows,
      store.GetValidatorEpochs db (Itoa (Epoch block)) (Creator block)
      = (rows, Some e) ->
      RewardCalculation co db block w = (Err e, w))
  /\ (forall ve rest,
        store.GetValidatorEpochs db (Itoa (Epoch block)) (Creator block)
        = (ve :: rest, Some ErrNotFound) ->
        RewardCalculation co db block w = (Err ErrNotFound, w))
  /\ (forall ledger,
        fee_found db block ->
        store.FindLedger db (Epoch block) = (ledger, Some e) ->
        RewardCalculation co db block w = (Err e, w))
  /\ (forall led recs,
        fee_found db block ->
        store.FindLedger db (Epoch block) = (Some led, None) ->
        store.LedgerRecords db (ID led) = (recs, Some e) ->
        RewardCalculation co db block w = (Err e, w))
  /\ (forall led recs rerr b,
        fee_found db block ->
        store.FindLedger db (Epoch block) = (Some led, None) ->
        store.LedgerRecords db (ID led) = (recs, rerr) ->
        other_error rerr = None ->
        store.FirstBlockOfEpoch db (Itoa (Epoch block)) = (b, Some e) ->
        RewardCalculation co db block w = (Err e, w)).
Proof.
  intros Hc He.
  assert (Ho : other_error (Some e) = Some e)
    by (destruct e; [contradiction | reflexivity]).
  split; [|split; [|split; [|split]]].
  - intros rows Hfee. unfold RewardCalculation.
    rewrite (guard_passed _ Hc), Hfee, Ho. reflexivity.
  - intros ve rest Hfee. unfold RewardCalculation.
    rewrite (guard_passed _ Hc), Hfee. reflexivity.
  - intros ledger (ve & rest & Hfee) Hled. unfold RewardCalculation.
    rewrite (guard_passed _ Hc), Hfee, Hled, Ho. reflexivity.
  - intros led recs (ve & rest & Hfee) Hled Hrec. unfold RewardCalculation.
    rewrite (guard_passed _ Hc), Hfee, Hled. cbn [other_error].
    unfold bind at 1. cbn [deref ret]. rewrite Hrec, Ho. reflexivity.
  - intros led recs rerr b (ve & rest & Hfee) Hled Hrec Herr Hfirst.
    apply (run_to_first_slot db block w ve rest led recs rerr (Err e)
             Hc Hfee Hled Hrec Herr).
    left. exists e. split; [|reflexivity].
    unfold first_slot_of_epoch. rewrite Hfirst, Ho. reflexivity.
Qed.

(** X15. The pointers the lookups bring are followed unchecked.  With the
    components and the fee there: a ledger lookup that reports no error and
    brings no ledger makes the run panic at [ledger.ID]; a first-block
    lookup that reports no error and brings no block ends the run with the
    error "first block of epoch is not found"; one that reports NotFound and
    brings no block makes the run panic at [firstBlockOfEpoch.Slot].  All
    three happen with the world untouched, supercharged or not. *)
Theorem nil_ledger_and_nil_first_block
    (db : store.Store) (block : Block) (w : World) :
  components_present block -> fee_found db block ->
  (store.FindLedger db (Epoch block) = (None, None) ->
   RewardCalculation co db block w = (Panic, w))
  /\ (forall led recs rerr,
        store.FindLedger db (Epoch block) = (Some led, None) ->
        store.LedgerRecords db (ID led) = (recs, rerr) ->
        other_error rerr = None ->
        (store.FirstBlockOfEpoch db (Itoa (Epoch block)) = (None, None) ->
         RewardCalculation co db block w
         = (Err (errors.New "first block of epoch is not found"), w))
        /\ (store.FirstBlockOfEpoch db (Itoa (Epoch block))
            = (None, Some ErrNotFound) ->
            RewardCalculation co db block w = (Panic, w))).
Proof.
  intros Hc (ve & rest & Hfee). split.
  - intros Hled. unfold RewardCalculation.
    rewrite (guard_passed _ Hc), Hfee, Hled. reflexivity.
  - intros led recs rerr Hled Hrec Herr. split; intros Hfirst.
    + apply (run_to_first_slot db block w ve rest led recs rerr _
               Hc Hfee Hled Hrec Herr).
      left. eexists. split; [|reflexivity].
      apply first_slot_missing_fails, Hfirst.
    + apply (run_to_first_slot db block w ve rest led recs rerr _
               Hc Hfee Hled Hrec Herr).
      right. split; [|reflexivity]. apply first_slot_nil_panics, Hfirst.
Qed.

(** X16. The whole run of a block that is not supercharged, when every
    lookup and both imports go through.  The delegator rewards are imported
    first and the validator reward after them, and the validator is paid
    from the fee as the delegators left it: with [n] delegator records the
    reward is computed from the fee after [n] delegator calls and one
    validator call, and that is also what the run leaves behind the fee
    pointer of the store's record. *)
Theorem run_pays_the_validator_from_the_fee_left_behind
    (db : store.Store) (block : Block) (w : World) (z : Z)
    (ve : ValidatorEpoch) (rest : list ValidatorEpoch) (l : loc)
    (led : Ledger) (recs0 : list LedgerEntry) (rerr : option error)
    (b : Block) (ferr : option error)
    (recs : list LedgerEntry) (h0 : heap) (m : gmap string big.Float)
    (dbrs : list BlockReward) (f : big.Float) (v : BlockReward) :
  types.Sub (types.Add (Coinbase block) (TransactionsFees block))
    (SnarkJobsFees block) = amount z ->
  store.GetValidatorEpochs db (Itoa (Epoch block)) (Creator block)
  = (ve :: rest, None) ->
  types.Float (ValidatorFee ve) = Some l ->
  store.FindLedger db (Epoch block) = (Some led, None) ->
  store.LedgerRecords db (ID led) = (recs0, rerr) -> other_error rerr = None ->
  store.FirstBlockOfEpoch db (Itoa (Epoch block)) = (Some b, ferr) ->
  other_error ferr = None ->
  Supercharged block = false ->
  CalculateWeightsNonSupercharged co (StakedAmount led) recs0 (mem w)
  = (Val recs, h0) ->
  weights_by_key recs ∅ h0 = (Val m, h0) ->
  DelegatorBlockRewards co recs block = inr dbrs ->
  Forall (fun d => is_Some (m !! OwnerAccount d)) dbrs ->
  h0 !! l = Some f ->
  ValidatorBlockReward co block = inr v ->
  (forall batch, store.ImportRefused db batch = None) ->
  let fn := Nat.iter (length dbrs) delegator_fee_after f in
  exists ds,
    delegator_rewards m (amount z) (ValidatorFee ve) dbrs h0
    = (Val ds, <[l := fn]> h0)
    /\ RewardCalculation co db block w
       = (Val tt,
          mkWorld (<[l := validator_fee_after fn]> h0)
            (imported w
             ++ [ds;
                 [set_Reward v
                    (types.NewAmount
                       (big.String (validator_reward_float z fn)))]])).
Proof.
  intros Hz Hfee Hptr Hled Hrec Herr Hfirst Hferr Hsc Hw Hkeys Hd Hown Hl Hv Himp fn.
  destruct (delegator_rewards_run m z (ValidatorFee ve) l dbrs Hptr Hown f h0 Hl)
    as (ds & Erun & _).
  fold fn in Erun. exists ds. split; [exact Erun|].
  pose proof (lookup_lt_Some _ _ _ Hl) as Hlt.
  assert (Hl1 : <[l := fn]> h0 !! l = Some fn)
    by (apply list_lookup_insert_eq; exact Hlt).
  pose proof (util_facts.CalculateValidatorReward_run z (ValidatorFee ve) l fn
                _ Hptr Hl1) as Hval.
  rewrite list_insert_insert_eq in Hval.
  unfold RewardCalculation.
  rewrite (guard_passed _ (block_reward_components block z Hz)), Hfee, Hled.
  cbn [other_error]. unfold bind at 1. cbn [deref ret]. rewrite Hrec, Herr.
  rewrite (first_slot_found db block b ferr Hfirst Hferr), Hsc, Hv, Hz.
  cbn [negb checked]. unfold bind at 1. cbv beta iota delta [ret].
  unfold bind at 1. unfold on_heap at 1. rewrite Hw. cbv beta iota.
  unfold bind at 1. unfold on_heap at 1. cbn [mem imported]. rewrite Hkeys.
  cbv beta iota. rewrite Hd. unfold bind at 1. cbv beta iota delta [checked ret].
  unfold bind at 1. unfold on_heap at 1. cbn [mem imported].
  unfold amount in Erun. unfold amount. rewrite Erun. cbv beta iota.
  unfold bind at 1. unfold Import at 1. rewrite Himp. cbv beta iota.
  unfold bind at 1. cbv beta iota delta [ret].
  unfold bind at 1. unfold on_heap at 1. cbn [mem imported]. rewrite Hval.
  cbv beta iota. unfold bind at 1. unfold Import at 1. rewrite Himp.
  cbv beta iota delta [ret]. cbn [mem imported].
  rewrite <- app_assoc. reflexivity.
Qed.

End FurtherOrchestration.

(** *** The theorems at work *)

Lemma delegator_rewards_thread_the_fee_witness :
  types.Float scenario.fee = Some 0%nat
  /\ examples.weighted_heap !! 0%nat = Some (big.mkFloat 64 10)
  /\ Forall (fun d => is_Some (examples.weights !! model.OwnerAccount d))
       examples.delegators
  /\ exists ds,
       indexing.delegator_rewards examples.weights (scenario.amount 100)
         scenario.fee examples.delegators examples.weighted_heap
       = (Val ds,
          <[0%nat := Nat.iter (length examples.delegators) delegator_fee_after
                       (big.mkFloat 64 10)]> examples.weighted_heap)
       /\ model.OwnerAccount <$> ds = model.OwnerAccount <$> examples.delegators
       /\ model.OwnerType <$> ds = model.OwnerType <$> examples.delegators
       /\ forall i d w,
            examples.delegators !! i = Some d ->
            examples.weights !! model.OwnerAccount d = Some w ->
            model.Reward <$> ds !! i
            = Some (types.NewAmount
                      (big.String
                         (delegator_reward_float w 100
                            (Nat.iter i delegator_fee_after (big.mkFloat 64 10))))).
Proof.
  assert (Hall : Forall (fun d => is_Some (examples.weights !! model.OwnerAccount d))
                   examples.delegators).
  { repeat (constructor; [eexists; vm_compute; reflexivity|]). constructor. }
  split; [reflexivity|]. split; [reflexivity|]. split; [exact Hall|].
  apply (delegator_rewards_thread_the_fee examples.weights 100 scenario.fee 0%nat
           (big.mkFloat 64 10) examples.weighted_heap examples.delegators);
    [reflexivity | reflexivity | exact Hall].
Defined.

Lemma missing_weight_stops_the_split_witness :
  types.Float scenario.fee = Some 0%nat
  /\ examples.weighted_heap !! 0%nat = Some (big.mkFloat 64 10)
  /\ Forall (fun d => is_Some (examples.weights !! model.OwnerAccount d))
       examples.delegators
  /\ examples.weights !! model.OwnerAccount examples.stranger = None
  /\ indexing.delegator_rewards examples.weights (scenario.amount 100) scenario.fee
       (examples.delegators ++ examples.stranger :: examples.delegators)
       examples.weighted_heap
     = (Err (errors.New ("record is not found for "
                         +:+ model.OwnerAccount examples.stranger)),
        <[0%nat := Nat.iter (length examples.delegators) delegator_fee_after
                     (big.mkFloat 64 10)]> examples.weighted_heap).
Proof.
  assert (Hall : Forall (fun d => is_Some (examples.weights !! model.OwnerAccount d))
                   examples.delegators).
  { repeat (constructor; [eexists; vm_compute; reflexivity|]). constructor. }
  split; [reflexivity|]. split; [reflexivity|]. split; [exact Hall|].
  split; [vm_compute; reflexivity|].
  apply (missing_weight_stops_the_split examples.weights 100 scenario.fee 0%nat
           (big.mkFloat 64 10) examples.weighted_heap examples.delegators
           examples.stranger examples.delegators);
    [reflexivity | reflexivity | exact Hall | vm_compute; reflexivity].
Defined.

Lemma fee_is_forgotten_after_two_delegators_witness :
  types.Float scenario.fee = Some 0%nat
  /\ examples.weighted_heap !! 0%nat = Some (big.mkFloat 64 10)
  /\ (7 <= big.prec (big.mkFloat 64 10))%Z
  /\ (0 <= big.val (big.mkFloat 64 10))%Q
  /\ (big.val (big.mkFloat 64 10) <= 100)%Q
  /\ Forall (fun d => is_Some (examples.weights !! model.OwnerAccount d))
       examples.delegators
  /\ (2 <= length examples.delegators)%nat
  /\ exists f',
       snd (indexing.delegator_rewards examples.weights (scenario.amount 100)
              scenario.fee examples.delegators examples.weighted_heap) !! 0%nat
       = Some f'
       /\ (49 # 50 <= big.val f')%Q /\ (big.val f' <= 1)%Q.
Proof.
  assert (Hall : Forall (fun d => is_Some (examples.weights !! model.OwnerAccount d))
                   examples.delegators).
  { repeat (constructor; [eexists; vm_compute; reflexivity|]). constructor. }
  split; [reflexivity|]. split; [reflexivity|]. split; [cbn; lia|].
  split; [discriminate|]. split; [discriminate|]. split; [exact Hall|].
  split; [cbn; lia|].
  apply (fee_is_forgotten_after_two_delegators examples.weights 100 scenario.fee
           0%nat (big.mkFloat 64 10) examples.weighted_heap examples.delegators);
    [reflexivity | reflexivity | cbn; lia | discriminate | discriminate
    | exact Hall | cbn; lia].
Defined.

Lemma weights_by_key_last_record_wins_witness :
  Forall (fun r => is_Some (weight_at examples.weighted_heap r))
    examples.weighted_records
  /\ exists m',
       indexing.weights_by_key examples.weighted_records ∅ examples.weighted_heap
       = (Val m', examples.weighted_heap)
       /\ (forall k,
             Forall (fun r => model.PublicKey r <> k) examples.weighted_records ->
             m' !! k = (∅ : gmap string big.Float) !! k)
       /\ (forall pre r post,
             examples.weighted_records = pre ++ r :: post ->
             Forall (fun r' => model.PublicKey r' <> model.PublicKey r) post ->
             m' !! model.PublicKey r = weight_at examples.weighted_heap r).
Proof.
  assert (Hall : Forall (fun r => is_Some (weight_at examples.weighted_heap r))
                   examples.weighted_records).
  { repeat (constructor; [eexists; reflexivity|]). constructor. }
  split; [exact Hall|].
  apply (weights_by_key_last_record_wins examples.weighted_records ∅
           examples.weighted_heap Hall).
Defined.

Lemma record_without_weight_panics_witness :
  Forall (fun r' => is_Some (weight_at examples.weighted_heap r'))
    examples.weighted_records
  /\ weight_at examples.weighted_heap examples.unweighted = None
  /\ indexing.weights_by_key
       (examples.weighted_records ++ examples.unweighted :: examples.weighted_records)
       ∅ examples.weighted_heap
     = (Panic, examples.weighted_heap).
Proof.
  assert (Hall : Forall (fun r => is_Some (weight_at examples.weighted_heap r))
                   examples.weighted_records).
  { repeat (constructor; [eexists; reflexivity|]). constructor. }
  split; [exact Hall|]. split; [reflexivity|].
  apply (record_without_weight_panics examples.weighted_records examples.unweighted
           examples.weighted_records ∅ examples.weighted_heap Hall).
  reflexivity.
Defined.

Lemma successful_run_witness :
  indexing.RewardCalculation scenario.co scenario.db scenario.block scenario.world
  = (Val tt,
     snd (indexing.RewardCalculation scenario.co scenario.db scenario.block
            scenario.world))
  /\ ((snd (indexing.RewardCalculation scenario.co scenario.db scenario.block
              scenario.world) = scenario.world
       /\ ((types.Int (model.Coinbase scenario.block) = None
            \/ types.Int (model.TransactionsFees scenario.block) = None
            \/ types.Int (model.SnarkJobsFees scenario.block) = None)
           \/ (fee_found scenario.db scenario.block
               /\ exists ledger,
                    store.FindLedger scenario.db (model.Epoch scenario.block)
                    = (ledger, Some ErrNotFound))))
      \/ exists creatorFee ds h v reward h',
           split_completed scenario.co scenario.db scenario.block scenario.world
             creatorFee ds h
           /\ store.ImportRefused scenario.db ds = None
           /\ ValidatorBlockReward scenario.co scenario.block = inr v
           /\ util.CalculateValidatorReward (block_reward scenario.block)
                creatorFee h
              = (Val reward, h')
           /\ store.ImportRefused scenario.db [model.set_Reward v reward] = None
           /\ snd (indexing.RewardCalculation scenario.co scenario.db
                     scenario.block scenario.world)
              = mkWorld h'
                  (imported scenario.world ++ [ds; [model.set_Reward v reward]])).
Proof.
  split; [vm_compute; reflexivity|].
  apply (successful_run_imports_both_batches_or_nothing scenario.co scenario.db
           scenario.block scenario.world).
  vm_compute. reflexivity.
Defined.

Lemma store_errors_come_back_unchanged_witness :
  components_present scenario.block
  /\ errors.New "connection lost" <> ErrNotFound
  /\ store.GetValidatorEpochs examples.failing_fee
       (indexing.Itoa (model.Epoch scenario.block)) (model.Creator scenario.block)
     = ([], Some (errors.New "connection lost"))
  /\ ((forall rows,
          store.GetValidatorEpochs examples.failing_fee
            (indexing.Itoa (model.Epoch scenario.block))
            (model.Creator scenario.block)
          = (rows, Some (errors.New "connection lost")) ->
          indexing.RewardCalculation scenario.co examples.failing_fee scenario.block
            scenario.world
          = (Err (errors.New "connection lost"), scenario.world))
      /\ (forall ve rest,
            store.GetValidatorEpochs examples.failing_fee
              (indexing.Itoa (model.Epoch scenario.block))
              (model.Creator scenario.block)
            = (ve :: rest, Some ErrNotFound) ->
            indexing.RewardCalculation scenario.co examples.failing_fee
              scenario.block scenario.world
            = (Err ErrNotFound, scenario.world))
      /\ (forall ledger,
            fee_found examples.failing_fee scenario.block ->
            store.FindLedger examples.failing_fee (model.Epoch scenario.block)
            = (ledger, Some (errors.New "connection lost")) ->
            indexing.RewardCalculation scenario.co examples.failing_fee
              scenario.block scenario.world
            = (Err (errors.New "connection lost"), scenario.world))
      /\ (forall led recs,
            fee_found examples.failing_fee scenario.block ->
            store.FindLedger examples.failing_fee (model.Epoch scenario.block)
            = (Some led, None) ->
            store.LedgerRecords examples.failing_fee (model.ID led)
            = (recs, Some (errors.New "connection lost")) ->
            indexing.RewardCalculation scenario.co examples.failing_fee
              scenario.block scenario.world
            = (Err (errors.New "connection lost"), scenario.world))
      /\ (forall led recs rerr b,
            fee_found examples.failing_fee scenario.block ->
            store.FindLedger examples.failing_fee (model.Epoch scenario.block)
            = (Some led, None) ->
            store.LedgerRecords examples.failing_fee (model.ID led) = (recs, rerr) ->
            indexing.other_error rerr = None ->
            store.FirstBlockOfEpoch examples.failing_fee
              (indexing.Itoa (model.Epoch scenario.block))
            = (b, Some (errors.New "connection lost")) ->
            indexing.RewardCalculation scenario.co examples.failing_fee
              scenario.block scenario.world
            = (Err (errors.New "connection lost"), scenario.world))).
Proof.
  split; [repeat split; reflexivity|]. split; [discriminate|].
  split; [reflexivity|].
  apply (store_errors_come_back_unchanged scenario.co examples.failing_fee
           scenario.block scenario.world (errors.New "connection lost"));
    [repeat split; reflexivity | discriminate].
Defined.

Lemma nil_ledger_and_nil_first_block_witness :
  components_present scenario.block
  /\ fee_found examples.no_first_block scenario.block
  /\ store.FirstBlockOfEpoch examples.no_first_block
       (indexing.Itoa (model.Epoch scenario.block)) = (None, None)
  /\ ((store.FindLedger examples.no_first_block (model.Epoch scenario.block)
       = (None, None) ->
       indexing.RewardCalculation scenario.co examples.no_first_block
         scenario.block scenario.world
       = (Panic, scenario.world))
      /\ (forall led recs rerr,
            store.FindLedger examples.no_first_block (model.Epoch scenario.block)
            = (Some led, None) ->
            store.LedgerRecords examples.no_first_block (model.ID led)
            = (recs, rerr) ->
            indexing.other_error rerr = None ->
            (store.FirstBlockOfEpoch examples.no_first_block
               (indexing.Itoa (model.Epoch scenario.block)) = (None, None) ->
             indexing.RewardCalculation scenario.co examples.no_first_block
               scenario.block scenario.world
             = (Err (errors.New "first block of epoch is not found"),
                scenario.world))
            /\ (store.FirstBlockOfEpoch examples.no_first_block
                  (indexing.Itoa (model.Epoch scenario.block))
                = (None, Some ErrNotFound) ->
                indexing.RewardCalculation scenario.co examples.no_first_block
                  scenario.block scenario.world
                = (Panic, scenario.world)))).
Proof.
  assert (Hfee : fee_found examples.no_first_block scenario.block)
    by (eexists; eexists; reflexivity).
  split; [repeat split; reflexivity|]. split; [exact Hfee|].
  split; [reflexivity|].
  apply (nil_ledger_and_nil_first_block scenario.co examples.no_first_block
           scenario.block scenario.world);
    [repeat split; reflexivity | exact Hfee].
Defined.

Lemma run_pays_the_validator_witness :
  types.Sub (types.Add (model.Coinbase scenario.block)
               (model.TransactionsFees scenario.block))
    (model.SnarkJobsFees scenario.block) = scenario.amount 100
  /\ store.GetValidatorEpochs scenario.db
       (indexing.Itoa (model.Epoch scenario.block)) (model.Creator scenario.block)
     = ([model.mkValidatorEpoch scenario.fee], None)
  /\ types.Float (model.ValidatorFee (model.mkValidatorEpoch scenario.fee))
     = Some 0%nat
  /\ store.FindLedger scenario.db (model.Epoch scenario.block)
     = (Some (model.mkLedger 1 (scenario.amount 1000)), None)
  /\ store.LedgerRecords scenario.db
       (model.ID (model.mkLedger 1 (scenario.amount 1000)))
     = (scenario.records, None)
  /\ store.FirstBlockOfEpoch scenario.db
       (indexing.Itoa (model.Epoch scenario.block))
     = (Some scenario.first_block, None)
  /\ model.Supercharged scenario.block = false
  /\ CalculateWeightsNonSupercharged scenario.co
       (model.StakedAmount (model.mkLedger 1 (scenario.amount 1000)))
       scenario.records (mem scenario.world)
     = (Val examples.weighted_records, examples.weighted_heap)
  /\ indexing.weights_by_key examples.weighted_records ∅ examples.weighted_heap
     = (Val examples.weights, examples.weighted_heap)
  /\ DelegatorBlockRewards scenario.co examples.weighted_records scenario.block
     = inr examples.delegators
  /\ Forall (fun d => is_Some (examples.weights !! model.OwnerAccount d))
       examples.delegators
  /\ examples.weighted_heap !! 0%nat = Some (big.mkFloat 64 10)
  /\ ValidatorBlockReward scenario.co scenario.block = inr examples.validator
  /\ (forall batch, store.ImportRefused scenario.db batch = None)
  /\ (let fn := Nat.iter (length examples.delegators) delegator_fee_after
                  (big.mkFloat 64 10) in
      exists ds,
        indexing.delegator_rewards examples.weights (scenario.amount 100)
          (model.ValidatorFee (model.mkValidatorEpoch scenario.fee))
          examples.delegators examples.weighted_heap
        = (Val ds, <[0%nat := fn]> examples.weighted_heap)
        /\ indexing.RewardCalculation scenario.co scenario.db scenario.block
             scenario.world
           = (Val tt,
              mkWorld (<[0%nat := validator_fee_after fn]> examples.weighted_heap)
                (imported scenario.world
                 ++ [ds;
                     [model.set_Reward examples.validator
                        (types.NewAmount
                           (big.String (validator_reward_float 100 fn)))]]))).
Proof.
  assert (Hall : Forall (fun d => is_Some (examples.weights !! model.OwnerAccount d))
                   examples.delegators).
  { repeat (constructor; [eexists; vm_compute; reflexivity|]). constructor. }
  assert (Hw : CalculateWeightsNonSupercharged scenario.co
                 (model.StakedAmount (model.mkLedger 1 (scenario.amount 1000)))
                 scenario.records (mem scenario.world)
               = (Val examples.weighted_records, examples.weighted_heap))
    by (vm_compute; reflexivity).
  assert (Hk : indexing.weights_by_key examples.weighted_records ∅
                 examples.weighted_heap
               = (Val examples.weights, examples.weighted_heap))
    by (vm_compute; reflexivity).
  split; [reflexivity|]. split; [reflexivity|]. split; [reflexivity|].
  split; [reflexivity|]. split; [reflexivity|]. split; [reflexivity|].
  split; [reflexivity|]. split; [exact Hw|]. split; [exact Hk|].
  split; [reflexivity|]. split; [exact Hall|]. split; [reflexivity|].
  split; [reflexivity|]. split; [reflexivity|].
  apply (run_pays_the_validator_from_the_fee_left_behind scenario.co scenario.db
           scenario.block scenario.world 100 (model.mkValidatorEpoch scenario.fee)
           [] 0%nat (model.mkLedger 1 (scenario.amount 1000)) scenario.records None
           scenario.first_block None examples.weighted_records
           examples.weighted_heap examples.weights examples.delegators
           (big.mkFloat 64 10) examples.validator);
    first [reflexivity | exact Hw | exact Hk | exact Hall].
Defined.
